(** * Position-synchronization engine of the copy-trading agent

    A shallow embedding of
      - [src/domain/leaderState.ts]   ([LeaderState.computeTargets],
        [LeaderState.getPosition]),
      - [src/domain/followerState.ts] ([FollowerState.computeDeltas],
        [FollowerState.getPosition]),
      - [src/services/tradeExecutor.ts] ([TradeExecutor.syncWithLeader],
        [TradeExecutor.buildOrder]),
      - [frontend/src/hooks/use-vault-data.ts] (the return on investment of
        a vault),
    followed by the properties the specification states about them and by
    further properties of the same code.

    Numbers.  A JavaScript [number] is modelled as an exact rational [Q]:
    arithmetic is exact, and NaN and the infinities have no counterpart.
    Decimal constants of the source ([1e-6], [0.1], [10_000]) are the
    rationals they denote.  Statements about this exact arithmetic give a
    result as the expression the code evaluates, or concern the structure
    of the results, their order, their signs and comparisons.  Where a
    statement is a bound that depends on how results are rounded, module
    [Double] has the same code with every arithmetic operation rounded to
    the nearest double (ties to even, gradual underflow), and the statement
    is about that.

    Maps and sets.  A JavaScript [Map] iterates in insertion order, so the
    position map is an association list (key, value) in insertion order whose
    keys are pairwise distinct; [Set<string>] is a duplicate-free list with
    [set_add] (which, like [Set.prototype.add], appends only a new key).

    Effects.  Methods of the state stores run in a state monad over the store,
    so that "does not mutate" is a statement about the returned store.  The
    [async] method [syncWithLeader] is a finite program tree whose nodes are
    synchronous steps on the executor's world and [await] points; a scheduler
    relation interleaves several invocations at their [await] points, the way
    the single-threaded event loop does. *)

From Stdlib Require Import QArith Qabs Qminmax Qround Qpower ZArith.
From Stdlib Require Import List ListSet String Ascii DecimalString Bool Lia Lqa.
Import ListNotations.

Open Scope string_scope.
Open Scope list_scope.
Open Scope Q_scope.

(** ** JavaScript numbers and the [Math] functions the code uses *)

(** [x < y] on numbers. *)
Definition Qltb (x y : Q) : bool := negb (Qle_bool y x).

(** [Math.sign]: 1, -1 or 0. *)
Definition Math_sign (x : Q) : Q :=
  match x ?= 0 with
  | Gt => 1
  | Lt => -1
  | Eq => 0
  end.

Definition Math_abs (x : Q) : Q := Qabs x.

Definition Math_min (x y : Q) : Q := Qmin x y.

Definition Math_max (x y : Q) : Q := Qmax x y.

(** ** [src/utils/math.ts] (not part of the sources at hand) *)

(** Modelled from the spec: [safeDivide] of [utils/math.js] is missing; the
    specification says of its two uses "division-by-zero or non-finite price
    yielding allowedSize = 0" and "0 if leader account value is 0, never
    divide-by-zero fault".  Over [Q] every number is finite, so the quotient
    is returned unless the denominator is zero, in which case the fallback
    is. *)
Definition safeDivide (numerator denominator fallback : Q) : Q :=
  if Qeq_bool denominator 0 then fallback else numerator / denominator.

(** Modelled from the spec: [clamp] of [utils/math.js] is missing; the
    specification says the limit price is "clamped to [0.1x, 10x] of the
    reference price".  The usual definition, lower bound first. *)
Definition clamp (value lo hi : Q) : Q := Math_min (Math_max value lo) hi.

(** ** Data model ([src/domain/types.ts], [src/config], and the interfaces
    declared in the three modelled files) *)

Module PositionSnapshot.
Record t : Type := mk { coin : string; size : Q; entryPrice : Q }.
End PositionSnapshot.

Module AccountMetrics.
Record t : Type := mk { accountValueUsd : Q; withdrawableUsd : option Q }.
End AccountMetrics.

Module RiskConfig.
Record t : Type := mk {
  copyRatio : Q;
  maxLeverage : Q;
  maxNotionalUsd : Q;
  maxSlippageBps : Q
}.
End RiskConfig.

Module TargetPosition.
Record t : Type := mk {
  coin : string;
  size : Q;
  notionalUsd : Q;
  impliedEntryPrice : Q;
  impliedLeverage : Q
}.
End TargetPosition.

Module PositionDelta.
Record t : Type := mk {
  coin : string;
  current : option PositionSnapshot.t;
  targetSize : Q;
  deltaSize : Q;
  maxNotionalUsd : Q
}.
End PositionDelta.

(** ** [Map<string, PositionSnapshot>] and [Set<string>] *)

Definition PositionMap : Type := list (string * PositionSnapshot.t).

(** [Map.prototype.get]. *)
Fixpoint Map_get (m : PositionMap) (key : string) : option PositionSnapshot.t :=
  match m with
  | [] => None
  | (k, v) :: rest => if String.eqb k key then Some v else Map_get rest key
  end.

(** [Map.prototype.values], in insertion order. *)
Definition Map_values (m : PositionMap) : list PositionSnapshot.t := map snd m.

Definition Map_keys (m : PositionMap) : list string := map fst m.

Definition StringSet : Type := set string.

Definition Set_add (s : StringSet) (x : string) : StringSet :=
  set_add string_dec x s.

Definition Set_has (s : StringSet) (x : string) : bool :=
  set_mem string_dec x s.

(** ** The trader state store and its monad *)

Module TraderStateStore.
Record t : Type := mk { positions : PositionMap; metrics : AccountMetrics.t }.
End TraderStateStore.

(** A method of a store: from the store before to a result and the store
    after. *)
Definition StoreM (A : Type) : Type :=
  TraderStateStore.t -> A * TraderStateStore.t.

Definition ret {A : Type} (a : A) : StoreM A := fun st => (a, st).

Definition bind {A B : Type} (m : StoreM A) (f : A -> StoreM B) : StoreM B :=
  fun st => let (a, st') := m st in f a st'.

Declare Scope store_scope.
Delimit Scope store_scope with store.
Notation "x <- m ;; k" := (bind m (fun x => k))
  (at level 61, m at next level, right associativity) : store_scope.
Notation "' pat <- m ;; k" := (bind m (fun x => match x with pat => k end))
  (at level 61, pat pattern, m at next level, right associativity) : store_scope.
Open Scope store_scope.

(** A [for (const x of xs) { ... }] loop whose body updates the local
    variables [s]; [continue] is a body that returns them unchanged. *)
Fixpoint for_of {A S : Type} (xs : list A) (body : A -> S -> StoreM S) (s : S)
  : StoreM S :=
  match xs with
  | [] => ret s
  | x :: rest => s' <- body x s ;; for_of rest body s'
  end.

(** Modelled from the spec: [TraderStateStore] ([domain/traderState.js]) is
    missing; the specification gives "[getPositions()], [getMetrics()]:
    read-only views". *)
Definition getPositions : StoreM PositionMap :=
  fun st => (TraderStateStore.positions st, st).

Definition getMetrics : StoreM AccountMetrics.t :=
  fun st => (TraderStateStore.metrics st, st).

(** ** [LeaderState.computeTargets] *)

Definition computeTargets (risk : RiskConfig.t) : StoreM (list TargetPosition.t) :=
  metrics <- getMetrics ;;
  positions <- getPositions ;;
  ret (map
         (fun position =>
            let scaledSize :=
              PositionSnapshot.size position * RiskConfig.copyRatio risk in
            let notionalUsd :=
              Math_abs scaledSize * PositionSnapshot.entryPrice position in
            let impliedLeverage :=
              safeDivide notionalUsd (AccountMetrics.accountValueUsd metrics) 0 in
            {| TargetPosition.coin := PositionSnapshot.coin position;
               TargetPosition.size := scaledSize;
               TargetPosition.notionalUsd := notionalUsd;
               TargetPosition.impliedEntryPrice := PositionSnapshot.entryPrice position;
               TargetPosition.impliedLeverage := impliedLeverage |})
         (Map_values positions)).

(** ** [getPosition] *)

(** [getPosition(coin)], of [LeaderState] and of [FollowerState] alike. *)
Definition getPosition (coin : string) : StoreM (option PositionSnapshot.t) :=
  positions <- getPositions ;;
  ret (Map_get positions coin).

(** ** [FollowerState.computeDeltas] *)

(** Dust threshold of the closing loop ([1e-9]). *)
Definition POSITION_DUST : Q := 1e-9.

(** [current?.size ?? 0]. *)
Definition currentSizeOr0 (current : option PositionSnapshot.t) : Q :=
  match current with
  | Some p => PositionSnapshot.size p
  | None => 0
  end.

Definition computeDeltas (targets : list TargetPosition.t) (risk : RiskConfig.t)
  : StoreM (list PositionDelta.t) :=
  followerMetrics <- getMetrics ;;
  let equity := AccountMetrics.accountValueUsd followerMetrics in
  let leverageCapNotional := RiskConfig.maxLeverage risk * equity in
  let globalNotionalCap :=
    Math_min (RiskConfig.maxNotionalUsd risk) leverageCapNotional in
  '(deltas, targetCoins) <-
    for_of targets
      (fun target '(deltas, targetCoins) =>
         positions <- getPositions ;;
         let current := Map_get positions (TargetPosition.coin target) in
         let targetCoins := Set_add targetCoins (TargetPosition.coin target) in
         let price := TargetPosition.impliedEntryPrice target in
         let allowedNotional :=
           Math_min (TargetPosition.notionalUsd target) globalNotionalCap in
         let allowedSize :=
           Math_sign (TargetPosition.size target)
           * safeDivide allowedNotional price 0 in
         let deltaSize := allowedSize - currentSizeOr0 current in
         ret (deltas ++ [ {| PositionDelta.coin := TargetPosition.coin target;
                             PositionDelta.current := current;
                             PositionDelta.targetSize := allowedSize;
                             PositionDelta.deltaSize := deltaSize;
                             PositionDelta.maxNotionalUsd := allowedNotional |} ],
              targetCoins))
      ([], empty_set string) ;;
  positions <- getPositions ;;
  for_of positions
    (fun '(coin, position) deltas =>
       if Set_has targetCoins coin then ret deltas
       else if Qltb (Math_abs (PositionSnapshot.size position)) POSITION_DUST
            then ret deltas
            else ret (deltas ++ [ {| PositionDelta.coin := coin;
                                     PositionDelta.current := Some position;
                                     PositionDelta.targetSize := 0;
                                     PositionDelta.deltaSize :=
                                       - PositionSnapshot.size position;
                                     PositionDelta.maxNotionalUsd := 0 |} ]))
    deltas.

(** ** Strings the executor builds *)

Fixpoint repeat_zero (n : nat) : string :=
  match n with
  | O => ""
  | S n' => String "0" (repeat_zero n')
  end.

(** [Number.prototype.toFixed(fractionDigits)] for a finite number below
    [1e21]: the integer [n] with [n / 10^f] closest to [x] (the larger one on
    a tie) is written in decimal, padded with zeros to [f + 1] digits, and
    the point is put before the last [f] digits; a negative [x] is treated by
    its opposite and gets a leading minus sign.  From [1e21] on the built-in
    writes exponential notation instead, and beyond 100 fraction digits it
    throws a RangeError: statements about the string, or about orders being
    built whatever the precision, carry these two bounds as hypotheses. *)
Definition toFixed (x : Q) (fractionDigits : nat) : string :=
  let s := if Qltb x 0 then "-" else "" in
  let x := if Qltb x 0 then - x else x in
  let n := Qfloor (x * inject_Z (10 ^ Z.of_nat fractionDigits) + 0.5) in
  let m := NilZero.string_of_uint (N.to_uint (Z.to_N n)) in
  let m :=
    match fractionDigits with
    | O => m
    | S _ =>
        let k := String.length m in
        let m :=
          if (k <=? fractionDigits)%nat
          then (repeat_zero (fractionDigits + 1 - k)%nat ++ m)%string
          else m in
        let k := String.length m in
        (substring 0 (k - fractionDigits)%nat m ++ "."
         ++ substring (k - fractionDigits)%nat fractionDigits m)%string
    end in
  (s ++ m)%string.

(** [str.replace(/-/g, "")]. *)
Fixpoint removeDashes (str : string) : string :=
  match str with
  | EmptyString => EmptyString
  | String ch rest =>
      if Ascii.eqb ch "-" then removeDashes rest
      else String ch (removeDashes rest)
  end.

(** ** Market metadata ([src/services/marketMetadata.ts], not part of the
    sources at hand) *)

Module MarketMetadata.
Record t : Type := mk { coin : string; assetId : Z; sizeDecimals : nat }.
End MarketMetadata.

Inductive JsError : Type := JsErr (message : string).

(** How an evaluation completes: normally with a value, or by a [throw]. *)
Inductive Completion (A : Type) : Type :=
| Normal (a : A)
| Throw (e : JsError).
Arguments Normal {A} a.
Arguments Throw {A} e.

(** Modelled from the spec: [MarketMetadataService] is missing.  The executor
    uses two synchronous methods of it, taken here as the interface of the
    service in its current state: [requireByCoin], which yields the metadata
    of a market or throws, and [getMarkPrice], of which the specification
    says "[getMarkPrice(coin)] returns absent if never successfully
    loaded". *)
Module MarketMetadataService.
Record t : Type := mk {
  requireByCoin : string -> Completion MarketMetadata.t;
  getMarkPrice : string -> option Q
}.
End MarketMetadataService.

(** ** Orders *)

Inductive OrderType : Type := limit (tif : string).

(** The order object of [buildOrder].  Field [p] holds the number [price]
    whose [toString()] rendering the source sends; the other fields are as
    in the source. *)
Module Order.
Record t : Type := mk {
  a : Z;
  b : bool;
  p : Q;
  s : string;
  r : bool;
  t_ : OrderType;
  c : string
}.
End Order.

(** ** The executor's world and asynchronous programs *)

Inductive LogLevel : Type := LogDebug | LogInfo | LogError.

(** What [this] and [this.deps] of a [TradeExecutor] reach, together with the
    logger's output and the source of [randomUUID]. *)
Module World.
Record t : Type := mk {
  syncing : bool;
  leaderState : TraderStateStore.t;
  followerState : TraderStateStore.t;
  metadataService : MarketMetadataService.t;
  risk : RiskConfig.t;
  log : list (LogLevel * string);
  uuidSource : nat -> string;
  uuidsDrawn : nat
}.
End World.

(** The three calls [syncWithLeader] awaits. *)
Inductive ExternalCall : Type :=
| EnsureLoaded
| RefreshMarkPrices
| ExchangeOrder (orders : list Order.t) (grouping : string).

(** An [async] function body: it returns, throws, takes a synchronous step on
    the world, or suspends at [await] until the awaited call settles. *)
Inductive Prog (A : Type) : Type :=
| Return (a : A)
| ThrowP (e : JsError)
| Step {X : Type} (f : World.t -> X * World.t) (k : X -> Prog A)
| Await (call : ExternalCall) (k : Completion unit -> Prog A).
Arguments Return {A} a.
Arguments ThrowP {A} e.
Arguments Step {A X} f k.
Arguments Await {A} call k.

Fixpoint pbind {A B : Type} (m : Prog A) (f : A -> Prog B) : Prog B :=
  match m with
  | Return a => f a
  | ThrowP e => ThrowP e
  | Step g k => Step g (fun x => pbind (k x) f)
  | Await call k => Await call (fun r => pbind (k r) f)
  end.

Declare Scope prog_scope.
Delimit Scope prog_scope with prog.
Notation "x <- m ;; k" := (pbind m (fun x => k))
  (at level 61, m at next level, right associativity) : prog_scope.
Notation "m ;; k" := (pbind m (fun _ => k))
  (at level 61, right associativity) : prog_scope.

(** [try { p } catch (error) { handler error }]. *)
Fixpoint tryCatch {A : Type} (p : Prog A) (handler : JsError -> Prog A) : Prog A :=
  match p with
  | Return a => Return a
  | ThrowP e => handler e
  | Step f k => Step f (fun x => tryCatch (k x) handler)
  | Await call k => Await call (fun r => tryCatch (k r) handler)
  end.

(** [try { p } finally { finalizer }]: the finalizer runs on every way out
    of [p], then the completion of [p] stands (unless the finalizer itself
    throws). *)
Fixpoint tryFinally {A : Type} (p : Prog A) (finalizer : Prog unit) : Prog A :=
  match p with
  | Return a => pbind finalizer (fun _ => Return a)
  | ThrowP e => pbind finalizer (fun _ => ThrowP e)
  | Step f k => Step f (fun x => tryFinally (k x) finalizer)
  | Await call k => Await call (fun r => tryFinally (k r) finalizer)
  end.

(** [await call]. *)
Definition await (call : ExternalCall) : Prog unit :=
  Await call (fun r => match r with Normal _ => Return tt | Throw e => ThrowP e end).

(** A synchronous read of the world. *)
Definition reads {X : Type} (f : World.t -> X) : Prog X :=
  Step (fun w => (f w, w)) Return.

Definition liftCompletion {A : Type} (r : Completion A) : Prog A :=
  match r with
  | Normal a => Return a
  | Throw e => ThrowP e
  end.

Definition setSyncing (v : bool) : Prog unit :=
  Step (fun w => (tt, World.mk v (World.leaderState w) (World.followerState w)
                        (World.metadataService w) (World.risk w) (World.log w)
                        (World.uuidSource w) (World.uuidsDrawn w)))
       Return.

Definition logged (w : World.t) (level : LogLevel) (message : string) : World.t :=
  World.mk (World.syncing w) (World.leaderState w) (World.followerState w)
    (World.metadataService w) (World.risk w) (World.log w ++ [(level, message)])
    (World.uuidSource w) (World.uuidsDrawn w).

(** [this.log.debug / info / error (message, ...)]; the structured payload
    of a log line is left out. *)
Definition log_ (level : LogLevel) (message : string) : Prog unit :=
  Step (fun w => (tt, logged w level message)) Return.

(** [randomUUID()]. *)
Definition randomUUID : Prog string :=
  Step (fun w => (World.uuidSource w (World.uuidsDrawn w),
                  World.mk (World.syncing w) (World.leaderState w)
                    (World.followerState w) (World.metadataService w)
                    (World.risk w) (World.log w) (World.uuidSource w)
                    (S (World.uuidsDrawn w))))
       Return.

(** [this.deps.leaderState.computeTargets(risk)]. *)
Definition leaderState_computeTargets (risk : RiskConfig.t)
  : Prog (list TargetPosition.t) :=
  Step (fun w =>
          let (targets, st) := computeTargets risk (World.leaderState w) in
          (targets,
           World.mk (World.syncing w) st (World.followerState w)
             (World.metadataService w) (World.risk w) (World.log w)
             (World.uuidSource w) (World.uuidsDrawn w)))
       Return.

(** [this.deps.followerState.computeDeltas(targets, risk)]. *)
Definition followerState_computeDeltas (targets : list TargetPosition.t)
  (risk : RiskConfig.t) : Prog (list PositionDelta.t) :=
  Step (fun w =>
          let (deltas, st) := computeDeltas targets risk (World.followerState w) in
          (deltas,
           World.mk (World.syncing w) (World.leaderState w) st
             (World.metadataService w) (World.risk w) (World.log w)
             (World.uuidSource w) (World.uuidsDrawn w)))
       Return.

(** [xs.map(f)] for an [f] that has effects and may throw. *)
Fixpoint Array_map {A B : Type} (f : A -> Prog B) (xs : list A) : Prog (list B) :=
  match xs with
  | [] => Return []
  | x :: rest =>
      pbind (f x) (fun y => pbind (Array_map f rest) (fun ys => Return (y :: ys)))
  end.

(** ** [TradeExecutor] *)

Definition MIN_ABS_DELTA : Q := 1e-6.

(** [metadataService.getMarkPrice(delta.coin) ?? delta.current?.entryPrice ?? 0]. *)
Definition referencePrice (metadataService : MarketMetadataService.t)
  (delta : PositionDelta.t) : Q :=
  match MarketMetadataService.getMarkPrice metadataService (PositionDelta.coin delta) with
  | Some mark => mark
  | None =>
      match PositionDelta.current delta with
      | Some position => PositionSnapshot.entryPrice position
      | None => 0
      end
  end.

(** The immediately-invoked arrow function that decides [reduceOnly]. *)
Definition reduceOnlyOf (delta : PositionDelta.t) : bool :=
  match PositionDelta.current delta with
  | None => false
  | Some current =>
      let currentSize := PositionSnapshot.size current in
      let targetSize := PositionDelta.targetSize delta in
      if Qltb (Math_abs targetSize) MIN_ABS_DELTA then true
      else
        let sameDirection :=
          Qeq_bool (Math_sign currentSize) (Math_sign targetSize) in
        sameDirection && Qltb (Math_abs targetSize) (Math_abs currentSize)
  end.

Definition buildOrder (delta : PositionDelta.t) : Prog Order.t :=
  (risk <- reads World.risk ;;
   metadataService <- reads World.metadataService ;;
   metadata <- liftCompletion
     (MarketMetadataService.requireByCoin metadataService (PositionDelta.coin delta)) ;;
   let markPrice := referencePrice metadataService delta in
   let sideIsBuy := Qltb 0 (PositionDelta.deltaSize delta) in
   let slippage := RiskConfig.maxSlippageBps risk / 10_000 in
   let priceMultiplier := if sideIsBuy then 1 + slippage else 1 - slippage in
   let price := clamp (markPrice * priceMultiplier) (markPrice * 0.1) (markPrice * 10) in
   let size := Math_abs (PositionDelta.deltaSize delta) in
   let reduceOnly := reduceOnlyOf delta in
   uuid <- randomUUID ;;
   Return {| Order.a := MarketMetadata.assetId metadata;
             Order.b := sideIsBuy;
             Order.p := price;
             Order.s := toFixed size (MarketMetadata.sizeDecimals metadata);
             Order.r := reduceOnly;
             Order.t_ := limit "Ioc";
             Order.c := ("0x" ++ substring 0 32 (removeDashes uuid))%string |})%prog.

(** The deltas that are large enough to trade. *)
Definition actionableOf (deltas : list PositionDelta.t) : list PositionDelta.t :=
  filter (fun delta => Qltb MIN_ABS_DELTA (Math_abs (PositionDelta.deltaSize delta)))
         deltas.

(** The [try] block of [syncWithLeader]. *)
Definition syncPass : Prog unit :=
  (await EnsureLoaded ;;
   await RefreshMarkPrices ;;
   risk <- reads World.risk ;;
   targets <- leaderState_computeTargets risk ;;
   deltas <- followerState_computeDeltas targets risk ;;
   let actionable := actionableOf deltas in
   if (List.length actionable =? 0)%nat then
     log_ LogDebug "Follower already synchronized with leader" ;;
     Return tt
   else
     orders <- Array_map buildOrder actionable ;;
     log_ LogInfo "Submitting follower sync orders" ;;
     await (ExchangeOrder orders "na"))%prog.

Definition syncWithLeader : Prog unit :=
  (syncing <- reads World.syncing ;;
   if syncing : bool then
     log_ LogDebug "Trade sync already in progress" ;;
     Return tt
   else
     setSyncing true ;;
     tryFinally
       (tryCatch
          syncPass
          (fun error =>
             log_ LogError "Failed to synchronize follower with leader" ;;
             ThrowP error))
       (setSyncing false))%prog.

(** ** Running asynchronous programs *)

(** An invocation is either suspended at an [await], with the continuation
    that takes the awaited call's completion, or it has settled. *)
Inductive Task (A : Type) : Type :=
| Blocked (call : ExternalCall) (k : Completion unit -> Prog A)
| Settled (result : Completion A).
Arguments Blocked {A} call k.
Arguments Settled {A} result.

(** Run [p] synchronously up to its next [await] or to its end. *)
Fixpoint advance {A : Type} (p : Prog A) (w : World.t) : World.t * Task A :=
  match p with
  | Return a => (w, Settled (Normal a))
  | ThrowP e => (w, Settled (Throw e))
  | Step f k => let (x, w') := f w in advance (k x) w'
  | Await call k => (w, Blocked call k)
  end.

(** *** One invocation on its own

    The environment decides how each awaited call settles and what the world
    looks like when the invocation resumes (the metadata service has loaded,
    fills have been applied to the stores, ...); it sees the calls settled so
    far.  The outcome records the final world, how the invocation completed,
    and each awaited call with its completion, in order. *)
Definition History : Type := list (ExternalCall * Completion unit).

Definition Environment : Type :=
  History -> ExternalCall -> World.t -> Completion unit * World.t.

Module Outcome.
Record t (A : Type) : Type := mk {
  world : World.t;
  result : Completion A;
  calls : History
}.
Arguments mk {A} world result calls.
Arguments world {A} t.
Arguments result {A} t.
Arguments calls {A} t.
End Outcome.

Fixpoint run {A : Type} (env : Environment) (p : Prog A) (w : World.t)
  (calls : History) : Outcome.t A :=
  match p with
  | Return a => Outcome.mk w (Normal a) calls
  | ThrowP e => Outcome.mk w (Throw e) calls
  | Step f k => let (x, w') := f w in run env (k x) w' calls
  | Await call k =>
      let (r, w') := env calls call w in
      run env (k r) w' (calls ++ [(call, r)])
  end.

(** *** Several invocations on the event loop *)

Module System.
Record t : Type := mk {
  world : World.t;
  tasks : list (Task unit);
  issued : list ExternalCall
}.
End System.

Definition issuedBy {A : Type} (t : Task A) : list ExternalCall :=
  match t with
  | Blocked call _ => [call]
  | Settled _ => []
  end.

Fixpoint replace_nth {A : Type} (i : nat) (x : A) (xs : list A) : list A :=
  match xs, i with
  | [], _ => []
  | _ :: rest, O => x :: rest
  | y :: rest, S i' => y :: replace_nth i' x rest
  end.

(** What happens on the event loop: [syncWithLeader()] is called; the call
    awaited by invocation [i] settles with [r]; or something outside the
    executor (event ingestion, the metadata service) changes the world, which
    it can do in any way but for the private field [syncing]. *)
Inductive Event : Type :=
| Invoke
| Settle (i : nat) (r : Completion unit)
| Outside (change : World.t -> World.t).

Definition keepSyncing (w w' : World.t) : World.t :=
  World.mk (World.syncing w) (World.leaderState w') (World.followerState w')
    (World.metadataService w') (World.risk w') (World.log w')
    (World.uuidSource w') (World.uuidsDrawn w').

Definition fire (ev : Event) (s : System.t) : System.t :=
  match ev with
  | Invoke =>
      let (w', t) := advance syncWithLeader (System.world s) in
      System.mk w' (System.tasks s ++ [t]) (System.issued s ++ issuedBy t)
  | Settle i r =>
      match nth_error (System.tasks s) i with
      | Some (Blocked _ k) =>
          let (w', t) := advance (k r) (System.world s) in
          System.mk w' (replace_nth i t (System.tasks s))
            (System.issued s ++ issuedBy t)
      | _ => s
      end
  | Outside change =>
      System.mk (keepSyncing (System.world s) (change (System.world s)))
        (System.tasks s) (System.issued s)
  end.

Definition fires (evs : list Event) (s : System.t) : System.t :=
  fold_left (fun s ev => fire ev s) evs s.

(** A freshly constructed executor: [syncing = false], nothing invoked. *)
Definition idle (w : World.t) : System.t :=
  System.mk
    (World.mk false (World.leaderState w) (World.followerState w)
       (World.metadataService w) (World.risk w) (World.log w)
       (World.uuidSource w) (World.uuidsDrawn w))
    [] [].

Definition isBlocked {A : Type} (t : Task A) : bool :=
  match t with
  | Blocked _ _ => true
  | Settled _ => false
  end.

Definition inFlight (s : System.t) : nat :=
  List.length (filter isBlocked (System.tasks s)).

Definition isExchangeOrder (call : ExternalCall) : bool :=
  match call with
  | ExchangeOrder _ _ => true
  | _ => false
  end.

Definition submissions (calls : list ExternalCall) : nat :=
  List.length (filter isExchangeOrder calls).

(** ** The dashboard's return on investment
    ([frontend/src/hooks/use-vault-data.ts], in [fetchData]; the [roiPercent]
    itself rounds, and is in module [Double] below) *)

(** [x || 0] on a number that may be missing: [undefined], [NaN] and 0 give
    0, any other number gives itself. *)
Definition orZero (x : option Q) : Q :=
  match x with
  | Some v => v
  | None => 0
  end.

(** * Notions the statements use *)

(** The local [globalNotionalCap] of [computeDeltas]. *)
Definition globalNotionalCapOf (risk : RiskConfig.t) (st : TraderStateStore.t) : Q :=
  Math_min (RiskConfig.maxNotionalUsd risk)
    (RiskConfig.maxLeverage risk
     * AccountMetrics.accountValueUsd (TraderStateStore.metrics st)).

(** The delta the first loop of [computeDeltas] pushes for [target]. *)
Definition derivedDelta (cap : Q) (positions : PositionMap)
  (target : TargetPosition.t) : PositionDelta.t :=
  let current := Map_get positions (TargetPosition.coin target) in
  let allowedNotional := Math_min (TargetPosition.notionalUsd target) cap in
  let allowedSize :=
    Math_sign (TargetPosition.size target)
    * safeDivide allowedNotional (TargetPosition.impliedEntryPrice target) 0 in
  {| PositionDelta.coin := TargetPosition.coin target;
     PositionDelta.current := current;
     PositionDelta.targetSize := allowedSize;
     PositionDelta.deltaSize := allowedSize - currentSizeOr0 current;
     PositionDelta.maxNotionalUsd := allowedNotional |}.

(** The delta the second loop pushes for an entry of the position map. *)
Definition closingDelta (entry : string * PositionSnapshot.t) : PositionDelta.t :=
  {| PositionDelta.coin := fst entry;
     PositionDelta.current := Some (snd entry);
     PositionDelta.targetSize := 0;
     PositionDelta.deltaSize := - PositionSnapshot.size (snd entry);
     PositionDelta.maxNotionalUsd := 0 |}.

(** [coin] is the coin of one of the targets. *)
Definition inTargets (targets : list TargetPosition.t) (coin : string) : bool :=
  existsb (fun target => String.eqb (TargetPosition.coin target) coin) targets.

(** The entries of the position map the second loop closes: coin absent
    from the targets, size not below the dust threshold. *)
Definition toClose (targets : list TargetPosition.t)
  (entry : string * PositionSnapshot.t) : bool :=
  negb (inTargets targets (fst entry))
  && negb (Qltb (Math_abs (PositionSnapshot.size (snd entry))) POSITION_DUST).

(** *** A worked pass: the leader is long 10 BTC entered at 50000, the
    follower holds 2 ETH the leader does not, copy ratio 0.1, leverage cap 10
    on an equity of 10000 *)

Definition example_risk : RiskConfig.t :=
  {| RiskConfig.copyRatio := 0.1;
     RiskConfig.maxLeverage := 10;
     RiskConfig.maxNotionalUsd := 1000000;
     RiskConfig.maxSlippageBps := 25 |}.

Definition example_leader : TraderStateStore.t :=
  {| TraderStateStore.positions :=
       [("BTC", {| PositionSnapshot.coin := "BTC";
                   PositionSnapshot.size := 10;
                   PositionSnapshot.entryPrice := 50000 |})];
     TraderStateStore.metrics :=
       {| AccountMetrics.accountValueUsd := 1000000;
          AccountMetrics.withdrawableUsd := None |} |}.

Definition example_follower : TraderStateStore.t :=
  {| TraderStateStore.positions :=
       [("ETH", {| PositionSnapshot.coin := "ETH";
                   PositionSnapshot.size := 2;
                   PositionSnapshot.entryPrice := 3000 |})];
     TraderStateStore.metrics :=
       {| AccountMetrics.accountValueUsd := 10000;
          AccountMetrics.withdrawableUsd := None |} |}.

Definition example_targets : list TargetPosition.t :=
  fst (computeTargets example_risk example_leader).

(** A program without [await] whose steps leave [syncing] alone. *)
Fixpoint synchronous {A : Type} (p : Prog A) : Prop :=
  match p with
  | Return _ | ThrowP _ => True
  | Step f k =>
      (forall w, World.syncing (snd (f w)) = World.syncing w)
      /\ forall x, synchronous (k x)
  | Await _ _ => False
  end.

(** A program whose steps leave [syncing] alone. *)
Fixpoint flagNeutral {A : Type} (p : Prog A) : Prop :=
  match p with
  | Return _ | ThrowP _ => True
  | Step f k =>
      (forall w, World.syncing (snd (f w)) = World.syncing w)
      /\ forall x, flagNeutral (k x)
  | Await _ k => forall r, flagNeutral (k r)
  end.

(** From world [w] the program keeps [syncing] set while it is suspended,
    whatever else changes in the meantime, and has cleared it when it
    settles. *)
Fixpoint ownsFlag {A : Type} (p : Prog A) (w : World.t) : Prop :=
  match p with
  | Return _ | ThrowP _ => World.syncing w = false
  | Step f k => ownsFlag (k (fst (f w))) (snd (f w))
  | Await _ k =>
      World.syncing w = true
      /\ forall r w', World.syncing w' = true -> ownsFlag (k r) w'
  end.

(** On no path does the program await more than [n] order submissions. *)
Fixpoint atMostOrders {A : Type} (n : nat) (p : Prog A) : Prop :=
  match p with
  | Return _ | ThrowP _ => True
  | Step _ k => forall x, atMostOrders n (k x)
  | Await call k =>
      if isExchangeOrder call
      then match n with
           | O => False
           | S n' => forall r, atMostOrders n' (k r)
           end
      else forall r, atMostOrders n (k r)
  end.

(** A suspended invocation holds the flag: resumed while it is set, its
    continuation owns it. *)
Definition holdsFlag (t : Task unit) : Prop :=
  match t with
  | Blocked _ k => forall r w, World.syncing w = true -> ownsFlag (k r) w
  | Settled _ => True
  end.

(** [syncing] is set exactly while one invocation is suspended, and no more
    than one ever is. *)
Definition singleFlight (s : System.t) : Prop :=
  inFlight s = (if World.syncing (System.world s) then 1 else 0)%nat
  /\ Forall holdsFlag (System.tasks s).

(** The order submissions a suspended invocation may still make. *)
Definition budgetOf (t : Task unit) (n : nat) : Prop :=
  match t with
  | Blocked _ k => forall r, atMostOrders n (k r)
  | Settled _ => n = 0%nat
  end.

(** The invocations among [evs] that found [syncing] clear, that is, the
    passes started. *)
Fixpoint passesStarted (evs : list Event) (s : System.t) : nat :=
  match evs with
  | [] => 0
  | ev :: rest =>
      (match ev with
       | Invoke => if World.syncing (System.world s) then 0 else 1
       | _ => 0
       end
       + passesStarted rest (fire ev s))%nat
  end.

(** The submissions issued and those the suspended invocations may still
    make do not outnumber the passes started. *)
Definition withinBudget (s : System.t) (started : nat) : Prop :=
  exists budgets,
    Forall2 budgetOf (System.tasks s) budgets
    /\ (submissions (System.issued s) + list_sum budgets <= started)%nat.

Definition blockedCount (t : Task unit) : nat := if isBlocked t then 1 else 0.

(** *** The worked pass, continued: the executor's world *)

Definition example_metadata : MarketMetadataService.t :=
  {| MarketMetadataService.requireByCoin :=
       fun coin =>
         if String.eqb coin "BTC" then Normal (MarketMetadata.mk "BTC" 0 5)
         else if String.eqb coin "ETH" then Normal (MarketMetadata.mk "ETH" 1 4)
         else Throw (JsErr "Unknown coin");
     MarketMetadataService.getMarkPrice :=
       fun coin =>
         if String.eqb coin "BTC" then Some 50100
         else if String.eqb coin "ETH" then Some 3010
         else None |}.

Definition example_world : World.t :=
  {| World.syncing := false;
     World.leaderState := example_leader;
     World.followerState := example_follower;
     World.metadataService := example_metadata;
     World.risk := example_risk;
     World.log := [];
     World.uuidSource := fun _ => "123e4567-e89b-12d3-a456-426614174000";
     World.uuidsDrawn := 0 |}.

(** Every awaited call succeeds and nothing else changes. *)
Definition calm : Environment := fun _ _ w => (Normal tt, w).

(** The exchange rejects every batch. *)
Definition rejecting (e : JsError) : Environment :=
  fun _ call w =>
    match call with
    | ExchangeOrder _ _ => (Throw e, w)
    | _ => (Normal tt, w)
    end.

(** The world after [this.syncing = false], and after [this.syncing = true]. *)
Definition cleared (w : World.t) : World.t :=
  World.mk false (World.leaderState w) (World.followerState w)
    (World.metadataService w) (World.risk w) (World.log w)
    (World.uuidSource w) (World.uuidsDrawn w).

Definition claimed (w : World.t) : World.t :=
  World.mk true (World.leaderState w) (World.followerState w)
    (World.metadataService w) (World.risk w) (World.log w)
    (World.uuidSource w) (World.uuidsDrawn w).

(** The batch the worked pass submits. *)
Definition example_orders : list Order.t :=
  Eval vm_compute in
    match Outcome.calls (run calm syncWithLeader example_world []) with
    | [_; _; (ExchangeOrder orders _, _)] => orders
    | _ => []
    end.

(** A delta with no mark price and no current position: the order is built
    and its price is 0. *)
Definition example_unpriced_world : World.t :=
  {| World.syncing := true;
     World.leaderState := example_leader;
     World.followerState := example_follower;
     World.metadataService :=
       {| MarketMetadataService.requireByCoin :=
            fun coin => Normal (MarketMetadata.mk coin 7 3);
          MarketMetadataService.getMarkPrice := fun _ => None |};
     World.risk := example_risk;
     World.log := [];
     World.uuidSource := fun _ => "123e4567-e89b-12d3-a456-426614174000";
     World.uuidsDrawn := 0 |}.

Definition example_unpriced_delta : PositionDelta.t :=
  {| PositionDelta.coin := "SOL";
     PositionDelta.current := None;
     PositionDelta.targetSize := 4;
     PositionDelta.deltaSize := 4;
     PositionDelta.maxNotionalUsd := 800 |}.

(** The scenario of the specification: the leader has no ETH, the follower
    still holds 2 ETH long; the closing delta is -2 to target 0 and its order
    is reduce-only. *)
Definition example_closing_delta : PositionDelta.t :=
  closingDelta ("ETH", {| PositionSnapshot.coin := "ETH";
                          PositionSnapshot.size := 2;
                          PositionSnapshot.entryPrice := 3000 |}).

(** The string [toFixed] writes for zero. *)
Definition zeroString (fractionDigits : nat) : string :=
  match fractionDigits with
  | O => "0"
  | S _ => ("0." ++ repeat_zero fractionDigits)%string
  end.

(** A leader position of 0.000002 BTC mirrored at ratio 1 onto a follower
    without position, on a market whose size precision is 2 decimals. *)
Definition example_dust_world : World.t :=
  {| World.syncing := false;
     World.leaderState :=
       {| TraderStateStore.positions :=
            [("BTC", {| PositionSnapshot.coin := "BTC";
                        PositionSnapshot.size := 2e-6;
                        PositionSnapshot.entryPrice := 50000 |})];
          TraderStateStore.metrics :=
            {| AccountMetrics.accountValueUsd := 1000000;
               AccountMetrics.withdrawableUsd := None |} |};
     World.followerState :=
       {| TraderStateStore.positions := [];
          TraderStateStore.metrics :=
            {| AccountMetrics.accountValueUsd := 10000;
               AccountMetrics.withdrawableUsd := None |} |};
     World.metadataService :=
       {| MarketMetadataService.requireByCoin :=
            fun coin => Normal (MarketMetadata.mk coin 0 2);
          MarketMetadataService.getMarkPrice := fun _ => Some 50000 |};
     World.risk :=
       {| RiskConfig.copyRatio := 1;
          RiskConfig.maxLeverage := 10;
          RiskConfig.maxNotionalUsd := 1000000;
          RiskConfig.maxSlippageBps := 25 |};
     World.log := [];
     World.uuidSource := fun _ => "123e4567-e89b-12d3-a456-426614174000";
     World.uuidsDrawn := 0 |}.

(** A store without positions, as a leader that is flat. *)
Definition flat (metrics : AccountMetrics.t) : TraderStateStore.t :=
  {| TraderStateStore.positions := []; TraderStateStore.metrics := metrics |}.

(** The example risk configuration with copying switched off. *)
Definition example_paused_risk : RiskConfig.t :=
  {| RiskConfig.copyRatio := 0;
     RiskConfig.maxLeverage := 10;
     RiskConfig.maxNotionalUsd := 1000000;
     RiskConfig.maxSlippageBps := 25 |}.

(** The world with [n] UUIDs drawn. *)
Definition withUuidsDrawn (w : World.t) (n : nat) : World.t :=
  World.mk (World.syncing w) (World.leaderState w) (World.followerState w)
    (World.metadataService w) (World.risk w) (World.log w)
    (World.uuidSource w) n.

(** The world in which a pass that found [syncing] clear in [w] resumes after
    its two loads. *)
Definition afterLoads (env : Environment) (w : World.t) : World.t :=
  snd (env [(EnsureLoaded, Normal tt)] RefreshMarkPrices
         (snd (env [] EnsureLoaded (claimed w)))).

(** Both loads of that pass succeed. *)
Definition loadsSucceed (env : Environment) (w : World.t) : Prop :=
  fst (env [] EnsureLoaded (claimed w)) = Normal tt
  /\ fst (env [(EnsureLoaded, Normal tt)] RefreshMarkPrices
            (snd (env [] EnsureLoaded (claimed w)))) = Normal tt.

(** The deltas a pass computes in world [w]:
    [followerState.computeDeltas(leaderState.computeTargets(risk), risk)]. *)
Definition passDeltas (w : World.t) : list PositionDelta.t :=
  fst (computeDeltas
         (fst (computeTargets (World.risk w) (World.leaderState w)))
         (World.risk w) (World.followerState w)).

(** The metadata service knows the market of [delta]. *)
Definition knownMarket (w : World.t) (delta : PositionDelta.t) : Prop :=
  exists metadata,
    MarketMetadataService.requireByCoin (World.metadataService w)
      (PositionDelta.coin delta) = Normal metadata.

(** The metadata service knows the market of [delta], and its size precision
    is one [toFixed] accepts: at most 100 digits. *)
Definition tradableMarket (w : World.t) (delta : PositionDelta.t) : Prop :=
  exists metadata,
    MarketMetadataService.requireByCoin (World.metadataService w)
      (PositionDelta.coin delta) = Normal metadata
    /\ (MarketMetadata.sizeDecimals metadata <= 100)%nat.


(** The executor's dependencies are the same in [w'] as in [w]: both stores,
    the metadata service, the risk configuration. *)
Definition sameDeps (w w' : World.t) : Prop :=
  World.leaderState w' = World.leaderState w
  /\ World.followerState w' = World.followerState w
  /\ World.metadataService w' = World.metadataService w
  /\ World.risk w' = World.risk w.

(** A program none of whose steps writes to the dependencies. *)
Fixpoint keepsDeps {A : Type} (p : Prog A) : Prop :=
  match p with
  | Return _ | ThrowP _ => True
  | Step f k =>
      (forall w, sameDeps w (snd (f w))) /\ forall x, keepsDeps (k x)
  | Await _ k => forall r, keepsDeps (k r)
  end.

(** A suspended invocation whose continuation does not write to them. *)
Definition taskKeepsDeps (t : Task unit) : Prop :=
  match t with
  | Blocked _ k => forall r, keepsDeps (k r)
  | Settled _ => True
  end.

(** An event of the executor itself: an invocation or the settling of an
    awaited call, not a change from outside. *)
Definition ownEvent (ev : Event) : bool :=
  match ev with
  | Outside _ => false
  | _ => true
  end.

(** A follower that needs 1 BTC and still holds 2 ETH, before a metadata
    service that knows BTC only. *)
Definition example_partial_world : World.t :=
  World.mk false example_leader example_follower
    (MarketMetadataService.mk
       (fun coin =>
          if String.eqb coin "BTC" then Normal (MarketMetadata.mk "BTC" 0 5)
          else Throw (JsErr "Unknown coin"))
       (fun _ => None))
    example_risk [] (fun _ => "123e4567-e89b-12d3-a456-426614174000") 0.

(** A follower that already holds the 1 BTC the leader's 10 BTC ask for. *)
Definition example_synchronized_world : World.t :=
  World.mk false example_leader
    (TraderStateStore.mk [("BTC", PositionSnapshot.mk "BTC" 1 50000)]
       (AccountMetrics.mk 10000 None))
    example_metadata example_risk []
    (fun _ => "123e4567-e89b-12d3-a456-426614174000") 0.

(** The metadata service cannot be loaded. *)
Definition unloadable (e : JsError) : Environment :=
  fun _ call w =>
    match call with
    | EnsureLoaded => (Throw e, w)
    | _ => (Normal tt, w)
    end.

(** * The same arithmetic, rounded

    Each arithmetic operation of the code returns the double nearest to the
    exact result.  The definitions of this module round where the code does;
    comparisons, [Math.min], [Math.abs], [Math.sign] and negation are exact on
    doubles.  An overflow to Infinity has no counterpart. *)

(** [Number.EPSILON] and [Number.MIN_VALUE]. *)
Definition Number_EPSILON : Q := 2 ^ (-52).

Definition Number_MIN_VALUE : Q := 2 ^ (-1074).

Module Double.

(** [floor (log2 x)] of a positive [x]. *)
Definition ilog2 (x : Q) : Z :=
  let k := (Z.log2 (Qnum x) - Z.log2 (Zpos (Qden x)))%Z in
  if Qle_bool (2 ^ k) x then k else (k - 1)%Z.

(** The integer nearest to [x], the even one on a tie. *)
Definition roundTiesToEven (x : Q) : Z :=
  let f := Qfloor x in
  match Qcompare (x - inject_Z f) (1 # 2) with
  | Lt => f
  | Gt => (f + 1)%Z
  | Eq => if Z.even f then f else (f + 1)%Z
  end.

(** The exponent of the unit in the last place of the doubles around [x]:
    53 significant bits, and never below [2^-1074]. *)
Definition ulpExponent (x : Q) : Z := Z.max (ilog2 (Qabs x) - 52) (-1074).

(** The double nearest to [x], ties to even. *)
Definition round (x : Q) : Q :=
  if Qeq_bool x 0 then 0
  else
    Math_sign x
    * (inject_Z (roundTiesToEven (Qabs x / 2 ^ ulpExponent x))
       * 2 ^ ulpExponent x).

(** [x * y], [x / y], [x - y] and [x + y] on numbers. *)
Definition mul (x y : Q) : Q := round (x * y).

Definition div (x y : Q) : Q := round (x / y).

Definition sub (x y : Q) : Q := round (x - y).

Definition add (x y : Q) : Q := round (x + y).

(** Modelled from the spec: [safeDivide] of [utils/math.js] is missing (see
    [safeDivide] above); here with the quotient rounded. *)
Definition safeDivide (numerator denominator fallback : Q) : Q :=
  if Qeq_bool denominator 0 then fallback else div numerator denominator.

(** The literal [1e-9] of the closing loop is the double nearest to it. *)
Definition POSITION_DUST : Q := round 1e-9.

(** [LeaderState.computeTargets]. *)
Definition computeTargets (risk : RiskConfig.t) : StoreM (list TargetPosition.t) :=
  metrics <- getMetrics ;;
  positions <- getPositions ;;
  ret (map
         (fun position =>
            let scaledSize :=
              mul (PositionSnapshot.size position) (RiskConfig.copyRatio risk) in
            let notionalUsd :=
              mul (Math_abs scaledSize) (PositionSnapshot.entryPrice position) in
            let impliedLeverage :=
              safeDivide notionalUsd (AccountMetrics.accountValueUsd metrics) 0 in
            {| TargetPosition.coin := PositionSnapshot.coin position;
               TargetPosition.size := scaledSize;
               TargetPosition.notionalUsd := notionalUsd;
               TargetPosition.impliedEntryPrice := PositionSnapshot.entryPrice position;
               TargetPosition.impliedLeverage := impliedLeverage |})
         (Map_values positions)).

(** [FollowerState.computeDeltas]. *)
Definition computeDeltas (targets : list TargetPosition.t) (risk : RiskConfig.t)
  : StoreM (list PositionDelta.t) :=
  followerMetrics <- getMetrics ;;
  let equity := AccountMetrics.accountValueUsd followerMetrics in
  let leverageCapNotional := mul (RiskConfig.maxLeverage risk) equity in
  let globalNotionalCap :=
    Math_min (RiskConfig.maxNotionalUsd risk) leverageCapNotional in
  '(deltas, targetCoins) <-
    for_of targets
      (fun target '(deltas, targetCoins) =>
         positions <- getPositions ;;
         let current := Map_get positions (TargetPosition.coin target) in
         let targetCoins := Set_add targetCoins (TargetPosition.coin target) in
         let price := TargetPosition.impliedEntryPrice target in
         let allowedNotional :=
           Math_min (TargetPosition.notionalUsd target) globalNotionalCap in
         let allowedSize :=
           mul (Math_sign (TargetPosition.size target))
               (safeDivide allowedNotional price 0) in
         let deltaSize := sub allowedSize (currentSizeOr0 current) in
         ret (deltas ++ [ {| PositionDelta.coin := TargetPosition.coin target;
                             PositionDelta.current := current;
                             PositionDelta.targetSize := allowedSize;
                             PositionDelta.deltaSize := deltaSize;
                             PositionDelta.maxNotionalUsd := allowedNotional |} ],
              targetCoins))
      ([], empty_set string) ;;
  positions <- getPositions ;;
  for_of positions
    (fun '(coin, position) deltas =>
       if Set_has targetCoins coin then ret deltas
       else if Qltb (Math_abs (PositionSnapshot.size position)) POSITION_DUST
            then ret deltas
            else ret (deltas ++ [ {| PositionDelta.coin := coin;
                                     PositionDelta.current := Some position;
                                     PositionDelta.targetSize := 0;
                                     PositionDelta.deltaSize :=
                                       - PositionSnapshot.size position;
                                     PositionDelta.maxNotionalUsd := 0 |} ]))
    deltas.

(** The [roiPercent] of a vault ([use-vault-data.ts], in [fetchData]). *)
Definition roiPercentOf (equity totalPnl : option Q) : Q :=
  let followerEquity := orZero equity in
  let totalPnl := orZero totalPnl in
  let initialCapital := sub followerEquity totalPnl in
  if Qltb 0 initialCapital then mul (div totalPnl initialCapital) 100 else 0.

(** The local [globalNotionalCap] of [computeDeltas]. *)
Definition globalNotionalCapOf (risk : RiskConfig.t) (st : TraderStateStore.t) : Q :=
  Math_min (RiskConfig.maxNotionalUsd risk)
    (mul (RiskConfig.maxLeverage risk)
       (AccountMetrics.accountValueUsd (TraderStateStore.metrics st))).

(** The delta the first loop of [computeDeltas] pushes for [target]. *)
Definition derivedDelta (cap : Q) (positions : PositionMap)
  (target : TargetPosition.t) : PositionDelta.t :=
  let current := Map_get positions (TargetPosition.coin target) in
  let allowedNotional := Math_min (TargetPosition.notionalUsd target) cap in
  let allowedSize :=
    mul (Math_sign (TargetPosition.size target))
        (safeDivide allowedNotional (TargetPosition.impliedEntryPrice target) 0) in
  {| PositionDelta.coin := TargetPosition.coin target;
     PositionDelta.current := current;
     PositionDelta.targetSize := allowedSize;
     PositionDelta.deltaSize := sub allowedSize (currentSizeOr0 current);
     PositionDelta.maxNotionalUsd := allowedNotional |}.

(** The entries of the position map the second loop closes. *)
Definition toClose (targets : list TargetPosition.t)
  (entry : string * PositionSnapshot.t) : bool :=
  negb (inTargets targets (fst entry))
  && negb (Qltb (Math_abs (PositionSnapshot.size (snd entry))) POSITION_DUST).

(** The target [computeTargets] makes of a leader position. *)
Definition targetOf (risk : RiskConfig.t) (metrics : AccountMetrics.t)
  (position : PositionSnapshot.t) : TargetPosition.t :=
  let scaledSize :=
    mul (PositionSnapshot.size position) (RiskConfig.copyRatio risk) in
  let notionalUsd :=
    mul (Math_abs scaledSize) (PositionSnapshot.entryPrice position) in
  {| TargetPosition.coin := PositionSnapshot.coin position;
     TargetPosition.size := scaledSize;
     TargetPosition.notionalUsd := notionalUsd;
     TargetPosition.impliedEntryPrice := PositionSnapshot.entryPrice position;
     TargetPosition.impliedLeverage :=
       safeDivide notionalUsd (AccountMetrics.accountValueUsd metrics) 0 |}.

End Double.

(** A number that is a double: rounding returns it. *)
Definition isDouble (x : Q) : Prop := Double.round x == x.

(** A leader long 2000 at 97 mirrored in full into a follower with an equity
    of 10000: the cap 100000 binds, and 100000 / 97 is not a double. *)
Definition example_full_copy_risk : RiskConfig.t :=
  {| RiskConfig.copyRatio := 1;
     RiskConfig.maxLeverage := 10;
     RiskConfig.maxNotionalUsd := 1000000;
     RiskConfig.maxSlippageBps := 25 |}.

Definition example_capped_leader : TraderStateStore.t :=
  {| TraderStateStore.positions :=
       [("SOL", {| PositionSnapshot.coin := "SOL";
                   PositionSnapshot.size := 2000;
                   PositionSnapshot.entryPrice := 97 |})];
     TraderStateStore.metrics :=
       {| AccountMetrics.accountValueUsd := 1000000;
          AccountMetrics.withdrawableUsd := None |} |}.

(** * Properties *)

(** ** Numbers *)

Lemma Qltb_true (x y : Q) : Qltb x y = true <-> x < y.
Proof.
  unfold Qltb. rewrite negb_true_iff. split; intro H.
  - apply Qnot_le_lt. intro Hle. apply Qle_bool_iff in Hle. congruence.
  - destruct (Qle_bool y x) eqn:E; [|reflexivity].
    apply Qle_bool_iff in E. exfalso. apply (Qlt_not_le _ _ H E).
Qed.

Lemma Qltb_false (x y : Q) : Qltb x y = false <-> y <= x.
Proof.
  unfold Qltb. rewrite negb_false_iff. apply Qle_bool_iff.
Qed.


Lemma Math_sign_pos (x : Q) : 0 < x -> Math_sign x = 1.
Proof.
  intro H. unfold Math_sign. destruct (x ?= 0) eqn:E; [| |reflexivity].
  - apply Qeq_alt in E. lra.
  - apply Qlt_alt in E. lra.
Qed.

Lemma Math_sign_neg (x : Q) : x < 0 -> Math_sign x = -1.
Proof.
  intro H. unfold Math_sign. destruct (x ?= 0) eqn:E; [|reflexivity|].
  - apply Qeq_alt in E. lra.
  - apply Qgt_alt in E. lra.
Qed.

Lemma Math_sign_zero (x : Q) : x == 0 -> Math_sign x = 0.
Proof.
  intro H. unfold Math_sign. destruct (x ?= 0) eqn:E; [reflexivity| |].
  - apply Qlt_alt in E. lra.
  - apply Qgt_alt in E. lra.
Qed.

Lemma Math_sign_cases (x : Q) :
  (x < 0 /\ Math_sign x = -1) \/ (x == 0 /\ Math_sign x = 0)
  \/ (0 < x /\ Math_sign x = 1).
Proof.
  destruct (Q_dec x 0) as [[H | H] | H].
  - left. split; [exact H | now apply Math_sign_neg].
  - right. right. split; [exact H | now apply Math_sign_pos].
  - right. left. split; [exact H | now apply Math_sign_zero].
Qed.

Lemma Qabs_cases (x : Q) :
  (0 <= x /\ Qabs x == x) \/ (x <= 0 /\ Qabs x == - x).
Proof.
  destruct (Qlt_le_dec x 0) as [H | H].
  - right. split; [lra | apply Qabs_neg; lra].
  - left. split; [exact H | now apply Qabs_pos].
Qed.


Lemma safeDivide_zero (n d fb : Q) : d == 0 -> safeDivide n d fb = fb.
Proof.
  intro H. unfold safeDivide. apply Qeq_bool_iff in H. now rewrite H.
Qed.

Lemma safeDivide_nonzero (n d fb : Q) : ~ d == 0 -> safeDivide n d fb = n / d.
Proof.
  intro H. unfold safeDivide. destruct (Qeq_bool d 0) eqn:E; [|reflexivity].
  apply Qeq_bool_iff in E. contradiction.
Qed.

Lemma Math_min_le_r (x y : Q) : Math_min x y <= y.
Proof. apply Q.le_min_r. Qed.

Lemma Math_min_glb (x y z : Q) : z <= x -> z <= y -> z <= Math_min x y.
Proof. intros. now apply Q.min_glb. Qed.

(** ** The store methods as functions of the store *)

Lemma Set_has_add (s : StringSet) (x y : string) :
  Set_has (Set_add s x) y = String.eqb x y || Set_has s y.
Proof.
  unfold Set_has, Set_add.
  destruct (String.eqb_spec x y) as [-> | Hne]; simpl.
  - apply set_mem_correct2. apply set_add_intro2. reflexivity.
  - destruct (set_mem string_dec y s) eqn:E.
    + apply set_mem_correct2. apply set_add_intro1.
      now apply set_mem_correct1 in E.
    + apply set_mem_complete2. intro Hin.
      apply set_add_elim in Hin. destruct Hin as [Heq | Hin].
      * congruence.
      * apply set_mem_complete1 in E. contradiction.
Qed.

Lemma Set_has_fold (coins : list string) (s : StringSet) (y : string) :
  Set_has (fold_left Set_add coins s) y
  = Set_has s y || existsb (fun x => String.eqb x y) coins.
Proof.
  revert s. induction coins as [| x coins IH]; intro s; simpl.
  - now rewrite orb_false_r.
  - rewrite IH, Set_has_add.
    destruct (String.eqb x y), (Set_has s y); reflexivity.
Qed.

Lemma first_loop (cap : Q) (targets : list TargetPosition.t)
  (deltas : list PositionDelta.t) (targetCoins : StringSet)
  (st : TraderStateStore.t) :
  for_of targets
    (fun target '(deltas, targetCoins) =>
       positions <- getPositions ;;
       let current := Map_get positions (TargetPosition.coin target) in
       let targetCoins := Set_add targetCoins (TargetPosition.coin target) in
       let price := TargetPosition.impliedEntryPrice target in
       let allowedNotional := Math_min (TargetPosition.notionalUsd target) cap in
       let allowedSize :=
         Math_sign (TargetPosition.size target)
         * safeDivide allowedNotional price 0 in
       let deltaSize := allowedSize - currentSizeOr0 current in
       ret (deltas ++ [ {| PositionDelta.coin := TargetPosition.coin target;
                           PositionDelta.current := current;
                           PositionDelta.targetSize := allowedSize;
                           PositionDelta.deltaSize := deltaSize;
                           PositionDelta.maxNotionalUsd := allowedNotional |} ],
            targetCoins))
    (deltas, targetCoins) st
  = ((deltas ++ map (derivedDelta cap (TraderStateStore.positions st)) targets,
      fold_left Set_add (map TargetPosition.coin targets) targetCoins),
     st).
Proof.
  revert deltas targetCoins.
  induction targets as [| target targets IH]; intros deltas targetCoins.
  - simpl. unfold ret. now rewrite app_nil_r.
  - cbn [for_of map fold_left]. unfold bind at 1. unfold bind at 1.
    unfold getPositions at 1. cbv beta iota zeta. unfold ret at 1.
    rewrite IH. rewrite <- app_assoc. reflexivity.
Qed.

Lemma second_loop (targetCoins : StringSet) (positions : PositionMap)
  (deltas : list PositionDelta.t) (st : TraderStateStore.t) :
  for_of positions
    (fun '(coin, position) deltas =>
       if Set_has targetCoins coin then ret deltas
       else if Qltb (Math_abs (PositionSnapshot.size position)) POSITION_DUST
            then ret deltas
            else ret (deltas ++ [ {| PositionDelta.coin := coin;
                                     PositionDelta.current := Some position;
                                     PositionDelta.targetSize := 0;
                                     PositionDelta.deltaSize :=
                                       - PositionSnapshot.size position;
                                     PositionDelta.maxNotionalUsd := 0 |} ]))
    deltas st
  = (deltas
     ++ map closingDelta
          (filter (fun entry =>
                     negb (Set_has targetCoins (fst entry))
                     && negb (Qltb (Math_abs (PositionSnapshot.size (snd entry)))
                                POSITION_DUST))
                  positions),
     st).
Proof.
  revert deltas.
  induction positions as [| [coin position] positions IH]; intro deltas.
  - simpl. unfold ret. now rewrite app_nil_r.
  - cbn [for_of filter fst snd]. unfold bind at 1.
    destruct (Set_has targetCoins coin); cbn [negb andb].
    + unfold ret at 1. apply IH.
    + destruct (Qltb (Math_abs (PositionSnapshot.size position)) POSITION_DUST);
        cbn [negb]; unfold ret at 1.
      * apply IH.
      * rewrite IH. cbn [map]. rewrite <- app_assoc. reflexivity.
Qed.

Lemma computeDeltas_eq (targets : list TargetPosition.t) (risk : RiskConfig.t)
  (st : TraderStateStore.t) :
  computeDeltas targets risk st
  = (map (derivedDelta (globalNotionalCapOf risk st) (TraderStateStore.positions st))
         targets
     ++ map closingDelta (filter (toClose targets) (TraderStateStore.positions st)),
     st).
Proof.
  unfold computeDeltas. unfold bind at 1. unfold getMetrics at 1.
  cbv beta iota zeta. unfold bind at 1.
  rewrite (first_loop (globalNotionalCapOf risk st)).
  cbv beta iota zeta. unfold bind at 1. unfold getPositions at 1.
  cbv beta iota zeta. rewrite second_loop. cbn [app]. f_equal. f_equal. f_equal.
  apply filter_ext. intros [coin position]. cbn [fst snd]. unfold toClose.
  cbn [fst snd]. f_equal. f_equal.
  rewrite Set_has_fold. cbn. unfold inTargets.
  clear. induction targets as [| t targets IH]; simpl; [reflexivity|].
  now rewrite IH.
Qed.

Lemma computeTargets_eq (risk : RiskConfig.t) (st : TraderStateStore.t) :
  computeTargets risk st
  = (map (fun position =>
            let scaledSize :=
              PositionSnapshot.size position * RiskConfig.copyRatio risk in
            let notionalUsd :=
              Math_abs scaledSize * PositionSnapshot.entryPrice position in
            {| TargetPosition.coin := PositionSnapshot.coin position;
               TargetPosition.size := scaledSize;
               TargetPosition.notionalUsd := notionalUsd;
               TargetPosition.impliedEntryPrice := PositionSnapshot.entryPrice position;
               TargetPosition.impliedLeverage :=
                 safeDivide notionalUsd
                   (AccountMetrics.accountValueUsd (TraderStateStore.metrics st)) 0 |})
         (Map_values (TraderStateStore.positions st)),
     st).
Proof. reflexivity. Qed.

Lemma derived_part (targets : list TargetPosition.t) (risk : RiskConfig.t)
  (st : TraderStateStore.t) :
  firstn (List.length targets) (fst (computeDeltas targets risk st))
  = map (derivedDelta (globalNotionalCapOf risk st) (TraderStateStore.positions st))
        targets.
Proof.
  rewrite computeDeltas_eq. cbn [fst].
  rewrite <- (length_map (derivedDelta (globalNotionalCapOf risk st)
                            (TraderStateStore.positions st)) targets).
  rewrite firstn_app, firstn_all, Nat.sub_diag. cbn [firstn].
  now rewrite app_nil_r.
Qed.

Lemma closing_part (targets : list TargetPosition.t) (risk : RiskConfig.t)
  (st : TraderStateStore.t) :
  skipn (List.length targets) (fst (computeDeltas targets risk st))
  = map closingDelta (filter (toClose targets) (TraderStateStore.positions st)).
Proof.
  rewrite computeDeltas_eq. cbn [fst].
  rewrite <- (length_map (derivedDelta (globalNotionalCapOf risk st)
                            (TraderStateStore.positions st)) targets).
  rewrite skipn_app, skipn_all, Nat.sub_diag. reflexivity.
Qed.

Lemma inTargets_false (targets : list TargetPosition.t) (coin : string) :
  inTargets targets coin = false
  <-> ~ In coin (map TargetPosition.coin targets).
Proof.
  unfold inTargets. induction targets as [| t targets IH]; simpl.
  - split; [intros _ H; exact H | reflexivity].
  - rewrite orb_false_iff, IH. split.
    + intros [Hne Hnin] [Heq | Hin]; [|contradiction].
      apply String.eqb_neq in Hne. contradiction.
    + intro H. split.
      * apply String.eqb_neq. intro Heq. apply H. now left.
      * intro Hin. apply H. now right.
Qed.

Lemma unique_key_value (m : PositionMap) (key : string)
  (v v' : PositionSnapshot.t) :
  NoDup (Map_keys m) -> In (key, v) m -> In (key, v') m -> v = v'.
Proof.
  unfold Map_keys. induction m as [| [k x] m IH]; simpl; intros Hnd Hv Hv'.
  - contradiction.
  - inversion Hnd as [| ? ? Hnotin Hnd']; subst.
    destruct Hv as [Hv | Hv], Hv' as [Hv' | Hv'].
    + congruence.
    + inversion Hv; subst. exfalso. apply Hnotin.
      apply (in_map fst) in Hv'. exact Hv'.
    + inversion Hv'; subst. exfalso. apply Hnotin.
      apply (in_map fst) in Hv. exact Hv.
    + now apply IH.
Qed.

(** ** The leader's targets *)

(** C6.  [computeTargets] returns one target per stored leader position, in
    the order of the position map: its size is the leader's size times
    [copyRatio], its notional is the magnitude of that size times the
    leader's entry price, its implied entry price is the leader's entry
    price, and its implied leverage is the notional divided by the leader's
    account value, or 0 when that account value is 0.  The store it returns
    is the store it was given. *)
Theorem computeTargets_one_target_per_position
  (risk : RiskConfig.t) (st : TraderStateStore.t) :
  snd (computeTargets risk st) = st
  /\ List.length (fst (computeTargets risk st))
     = List.length (TraderStateStore.positions st)
  /\ Forall2
       (fun position target =>
          TargetPosition.coin target = PositionSnapshot.coin position
          /\ TargetPosition.size target
             = PositionSnapshot.size position * RiskConfig.copyRatio risk
          /\ TargetPosition.notionalUsd target
             = Math_abs (TargetPosition.size target)
               * PositionSnapshot.entryPrice position
          /\ TargetPosition.impliedEntryPrice target
             = PositionSnapshot.entryPrice position
          /\ (AccountMetrics.accountValueUsd (TraderStateStore.metrics st) == 0
              -> TargetPosition.impliedLeverage target = 0)
          /\ (~ AccountMetrics.accountValueUsd (TraderStateStore.metrics st) == 0
              -> TargetPosition.impliedLeverage target
                 = TargetPosition.notionalUsd target
                   / AccountMetrics.accountValueUsd (TraderStateStore.metrics st)))
       (Map_values (TraderStateStore.positions st))
       (fst (computeTargets risk st)).
Proof.
  rewrite computeTargets_eq. cbn [fst snd]. split; [reflexivity|]. split.
  - unfold Map_values. now rewrite !length_map.
  - induction (Map_values (TraderStateStore.positions st)) as [| position rest IH].
    + constructor.
    + cbn [map]. constructor; [|exact IH]. cbn.
      repeat split; try reflexivity.
      * intro H. now apply safeDivide_zero.
      * intro H. now apply safeDivide_nonzero.
Qed.

(** ** The follower's deltas *)

(** C3.  The list [computeDeltas] returns is the deltas derived from the
    targets, in the order of the targets, followed by the closing deltas.
    The closing deltas are, in the order of the follower's position map, one
    per entry whose coin is not the coin of any target and whose size is not
    below the dust threshold [1e-9]: target size 0, delta size the opposite
    of the current size, maximal notional 0.  So such an entry at or above
    the threshold has its closing delta after all the derived ones, an entry
    below the threshold whose coin is in no target has no delta at all under
    its coin (the keys of a map being distinct), and no position below the
    threshold has a closing delta, whatever the targets. *)
Theorem computeDeltas_closes_abandoned_positions
  (targets : list TargetPosition.t) (risk : RiskConfig.t)
  (st : TraderStateStore.t) :
  let deltas := fst (computeDeltas targets risk st) in
  let n := List.length targets in
  map PositionDelta.coin (firstn n deltas) = map TargetPosition.coin targets
  /\ skipn n deltas
     = map closingDelta (filter (toClose targets) (TraderStateStore.positions st))
  /\ (forall coin position,
         In (coin, position) (TraderStateStore.positions st) ->
         ~ In coin (map TargetPosition.coin targets) ->
         POSITION_DUST <= Math_abs (PositionSnapshot.size position) ->
         In {| PositionDelta.coin := coin;
               PositionDelta.current := Some position;
               PositionDelta.targetSize := 0;
               PositionDelta.deltaSize := - PositionSnapshot.size position;
               PositionDelta.maxNotionalUsd := 0 |}
            (skipn n deltas))
  /\ (forall coin position,
         NoDup (Map_keys (TraderStateStore.positions st)) ->
         In (coin, position) (TraderStateStore.positions st) ->
         ~ In coin (map TargetPosition.coin targets) ->
         Math_abs (PositionSnapshot.size position) < POSITION_DUST ->
         ~ In coin (map PositionDelta.coin deltas))
  /\ (forall coin position,
         Math_abs (PositionSnapshot.size position) < POSITION_DUST ->
         ~ In (closingDelta (coin, position)) (skipn n deltas)).
Proof.
  cbv zeta. rewrite derived_part, closing_part.
  split; [|split; [|split; [|split]]].
  - rewrite map_map. reflexivity.
  - reflexivity.
  - intros coin position Hin Hnot Hdust.
    change (In (closingDelta (coin, position))
              (map closingDelta
                 (filter (toClose targets) (TraderStateStore.positions st)))).
    apply in_map. apply filter_In. split; [exact Hin|].
    unfold toClose. cbn [fst snd].
    apply inTargets_false in Hnot. rewrite Hnot. cbn [negb andb].
    apply negb_true_iff. now apply Qltb_false.
  - intros coin position Hnd Hin Hnot Hdust Hcoin.
    rewrite computeDeltas_eq in Hcoin. cbn [fst] in Hcoin.
    rewrite map_app, !map_map in Hcoin. apply in_app_or in Hcoin.
    destruct Hcoin as [Hcoin | Hcoin].
    + apply Hnot. exact Hcoin.
    + apply in_map_iff in Hcoin. destruct Hcoin as [[coin' position'] [Heq Hin']].
      cbn in Heq. subst coin'. apply filter_In in Hin'.
      destruct Hin' as [Hin' Hkeep].
      assert (position' = position) by (eapply unique_key_value; eassumption).
      subst position'. unfold toClose in Hkeep. cbn [fst snd] in Hkeep.
      apply andb_true_iff in Hkeep. destruct Hkeep as [_ Hkeep].
      apply negb_true_iff in Hkeep. apply Qltb_false in Hkeep.
      apply (Qlt_not_le _ _ Hdust Hkeep).
  - intros coin position Hdust Hin. apply in_map_iff in Hin.
    destruct Hin as [[coin' position'] [Heq Hkept]].
    unfold closingDelta in Heq. cbn [fst snd] in Heq.
    injection Heq as Hcoin Hposition _. subst coin' position'.
    apply filter_In in Hkept. destruct Hkept as [_ Hkeep].
    unfold toClose in Hkeep. cbn [fst snd] in Hkeep.
    apply andb_true_iff in Hkeep. destruct Hkeep as [_ Hkeep].
    apply negb_true_iff in Hkeep. apply Qltb_false in Hkeep.
    apply (Qlt_not_le _ _ Hdust Hkeep).
Qed.

Lemma Math_sign_abs_le (s : Q) :
  0 <= Qabs (Math_sign s) /\ Qabs (Math_sign s) <= 1.
Proof.
  destruct (Math_sign_cases s) as [[_ H] | [[_ H] | [_ H]]]; rewrite H;
    split; cbv; discriminate.
Qed.

(** With a non-negative notional and a non-negative price the capped size is
    zero or has the sign of [s]. *)
Lemma capped_size_sign (s N p : Q) :
  0 <= N -> 0 <= p ->
  Math_sign s * safeDivide N p 0 == 0
  \/ Math_sign (Math_sign s * safeDivide N p 0) = Math_sign s.
Proof.
  intros HN Hp.
  destruct (Qeq_dec p 0) as [Hz | Hnz].
  - left. rewrite (safeDivide_zero _ _ _ Hz). ring.
  - rewrite (safeDivide_nonzero _ _ _ Hnz).
    assert (Hq : 0 <= N / p).
    { apply Qle_shift_div_l; lra. }
    destruct (Qeq_dec (N / p) 0) as [Hq0 | Hq0].
    + left. rewrite Hq0. ring.
    + assert (0 < N / p) by lra.
      destruct (Math_sign_cases s) as [[Hs E] | [[Hs E] | [Hs E]]]; rewrite E.
      * right. apply Math_sign_neg. lra.
      * left. ring.
      * right. apply Math_sign_pos. lra.
Qed.

Lemma Forall2_map_self {A B : Type} (R : A -> B -> Prop) (f : A -> B)
  (xs : list A) :
  (forall x, In x xs -> R x (f x)) -> Forall2 R xs (map f xs).
Proof.
  induction xs as [| x xs IH]; intro H; cbn [map]; constructor.
  - apply H. now left.
  - apply IH. intros y Hy. apply H. now right.
Qed.

(** The scenario of the specification: target 1 BTC worth 50000, allowed in
    full, so the delta is +1; the abandoned 2 ETH are closed. *)
Example example_deltas :
  map (fun delta =>
         (PositionDelta.coin delta,
          Qred (PositionDelta.targetSize delta),
          Qred (PositionDelta.deltaSize delta)))
      (fst (computeDeltas example_targets example_risk example_follower))
  = [("BTC", 1, 1); ("ETH", 0, -2)].
Proof. reflexivity. Qed.

Lemma computeTargets_one_target_per_position_example :
  snd (computeTargets example_risk example_leader) = example_leader
  /\ List.length (fst (computeTargets example_risk example_leader)) = 1%nat.
Proof.
  destruct (computeTargets_one_target_per_position example_risk example_leader)
    as [Hstore [Hlength _]].
  split; [exact Hstore | exact Hlength].
Defined.

Lemma computeDeltas_closes_abandoned_positions_example :
  In ("ETH", PositionSnapshot.mk "ETH" 2 3000)
     (TraderStateStore.positions example_follower)
  /\ ~ In "ETH" (map TargetPosition.coin example_targets)
  /\ POSITION_DUST <= Math_abs (PositionSnapshot.size (PositionSnapshot.mk "ETH" 2 3000))
  /\ In {| PositionDelta.coin := "ETH";
           PositionDelta.current := Some (PositionSnapshot.mk "ETH" 2 3000);
           PositionDelta.targetSize := 0;
           PositionDelta.deltaSize := - 2;
           PositionDelta.maxNotionalUsd := 0 |}
        (skipn (List.length example_targets)
           (fst (computeDeltas example_targets example_risk example_follower))).
Proof.
  assert (Hin : In ("ETH", PositionSnapshot.mk "ETH" 2 3000)
                  (TraderStateStore.positions example_follower))
    by (left; reflexivity).
  assert (Hnot : ~ In "ETH" (map TargetPosition.coin example_targets)).
  { intros [H | []]. discriminate. }
  assert (Hdust : POSITION_DUST
                  <= Math_abs (PositionSnapshot.size (PositionSnapshot.mk "ETH" 2 3000)))
    by (vm_compute; discriminate).
  repeat split; try assumption.
  exact (proj1 (proj2 (proj2
           (computeDeltas_closes_abandoned_positions example_targets example_risk
              example_follower))) "ETH" (PositionSnapshot.mk "ETH" 2 3000)
           Hin Hnot Hdust).
Defined.

(** C8.  When maxNotionalUsd and maxLeverage * follower account value are
    not negative, the delta derived from a target that [computeTargets]
    returned and whose notional is not negative has a target size that is
    zero or has the sign of the target's size: the capped target never points
    against the leader's position.  (A target of [computeTargets] has the
    notional |size| * implied entry price, so a negative entry price with a
    notional that is not negative means a size of zero.) *)
Theorem computeDeltas_keeps_direction
  (risk : RiskConfig.t) (leader follower : TraderStateStore.t) :
  0 <= RiskConfig.maxNotionalUsd risk ->
  0 <= RiskConfig.maxLeverage risk
       * AccountMetrics.accountValueUsd (TraderStateStore.metrics follower) ->
  Forall2
    (fun target delta =>
       0 <= TargetPosition.notionalUsd target ->
       PositionDelta.targetSize delta == 0
       \/ Math_sign (PositionDelta.targetSize delta)
          = Math_sign (TargetPosition.size target))
    (fst (computeTargets risk leader))
    (firstn (List.length (fst (computeTargets risk leader)))
       (fst (computeDeltas (fst (computeTargets risk leader)) risk follower))).
Proof.
  intros Hmax Hlev. rewrite derived_part.
  apply Forall2_map_self. intros target Hin Hnot.
  rewrite computeTargets_eq in Hin. cbn [fst] in Hin.
  apply in_map_iff in Hin. destruct Hin as [position [<- _]].
  cbv zeta in Hnot |- *. unfold derivedDelta.
  cbn [PositionDelta.targetSize TargetPosition.size TargetPosition.notionalUsd
         TargetPosition.impliedEntryPrice] in Hnot |- *.
  set (s := PositionSnapshot.size position * RiskConfig.copyRatio risk) in *.
  set (p := PositionSnapshot.entryPrice position) in *.
  destruct (Qlt_le_dec p 0) as [Hneg | Hpos].
  - left. unfold Math_abs in Hnot. pose proof (Qabs_nonneg s) as Habs.
    assert (Hs : Qabs s == 0).
    { destruct (Qeq_dec (Qabs s) 0) as [E | E]; [exact E|].
      assert (0 < Qabs s) by lra. nra. }
    assert (Hs0 : s == 0).
    { destruct (Qabs_cases s) as [[_ E] | [_ E]]; rewrite E in Hs; lra. }
    rewrite (Math_sign_zero s Hs0). ring.
  - apply capped_size_sign; [|exact Hpos].
    apply Math_min_glb; [exact Hnot|].
    unfold globalNotionalCapOf. apply Math_min_glb; assumption.
Qed.

Lemma computeDeltas_keeps_direction_example :
  0 <= RiskConfig.maxNotionalUsd example_risk
  /\ 0 <= RiskConfig.maxLeverage example_risk
          * AccountMetrics.accountValueUsd
              (TraderStateStore.metrics example_follower)
  /\ Forall2
       (fun target delta =>
          0 <= TargetPosition.notionalUsd target ->
          PositionDelta.targetSize delta == 0
          \/ Math_sign (PositionDelta.targetSize delta)
             = Math_sign (TargetPosition.size target))
       (fst (computeTargets example_risk example_leader))
       (firstn (List.length (fst (computeTargets example_risk example_leader)))
          (fst (computeDeltas (fst (computeTargets example_risk example_leader))
                  example_risk example_follower))).
Proof.
  split; [vm_compute; discriminate|].
  split; [vm_compute; discriminate|].
  apply (computeDeltas_keeps_direction example_risk example_leader
           example_follower); vm_compute; discriminate.
Defined.

(** ** Asynchronous programs: how [run] and [advance] go through the
    combinators *)

Arguments computeTargets : simpl never.
Arguments computeDeltas : simpl never.
Arguments toFixed : simpl never.

Lemma run_pbind {A B : Type} (env : Environment) (m : Prog A) (f : A -> Prog B)
  (w : World.t) (calls : History) :
  run env (pbind m f) w calls
  = match Outcome.result (run env m w calls) with
    | Normal a =>
        run env (f a) (Outcome.world (run env m w calls))
          (Outcome.calls (run env m w calls))
    | Throw e =>
        Outcome.mk (Outcome.world (run env m w calls)) (Throw e)
          (Outcome.calls (run env m w calls))
    end.
Proof.
  revert w calls.
  induction m as [a | e | X g k IH | call k IH]; intros w calls; cbn.
  - reflexivity.
  - reflexivity.
  - destruct (g w) as [x w']. apply IH.
  - destruct (env calls call w) as [r w']. apply IH.
Qed.

Lemma run_tryCatch {A : Type} (env : Environment) (p : Prog A)
  (handler : JsError -> Prog A) (w : World.t) (calls : History) :
  run env (tryCatch p handler) w calls
  = match Outcome.result (run env p w calls) with
    | Normal a => run env p w calls
    | Throw e =>
        run env (handler e) (Outcome.world (run env p w calls))
          (Outcome.calls (run env p w calls))
    end.
Proof.
  revert w calls.
  induction p as [a | e | X g k IH | call k IH]; intros w calls; cbn.
  - reflexivity.
  - reflexivity.
  - destruct (g w) as [x w']. apply IH.
  - destruct (env calls call w) as [r w']. apply IH.
Qed.

Lemma run_tryFinally {A : Type} (env : Environment) (p : Prog A)
  (finalizer : Prog unit) (w : World.t) (calls : History) :
  run env (tryFinally p finalizer) w calls
  = let o := run env p w calls in
    let o' := run env finalizer (Outcome.world o) (Outcome.calls o) in
    match Outcome.result o' with
    | Normal _ => Outcome.mk (Outcome.world o') (Outcome.result o) (Outcome.calls o')
    | Throw e => Outcome.mk (Outcome.world o') (Throw e) (Outcome.calls o')
    end.
Proof.
  revert w calls.
  induction p as [a | e | X g k IH | call k IH]; intros w calls; cbn.
  - rewrite run_pbind. destruct (Outcome.result (run env finalizer w calls)); reflexivity.
  - rewrite run_pbind. destruct (Outcome.result (run env finalizer w calls)); reflexivity.
  - destruct (g w) as [x w']. apply IH.
  - destruct (env calls call w) as [r w']. apply IH.
Qed.

Create HintDb prog.

Lemma synchronous_pbind {A B : Type} (m : Prog A) (f : A -> Prog B) :
  synchronous m -> (forall a, synchronous (f a)) -> synchronous (pbind m f).
Proof.
  intros Hm Hf. induction m as [a | e | X g k IH | call k IH]; cbn in *.
  - apply Hf.
  - exact I.
  - destruct Hm as [Hg Hk]. split; [exact Hg|]. intro x. apply IH, Hk.
  - contradiction.
Qed.

Lemma synchronous_reads {X : Type} (f : World.t -> X) : synchronous (reads f).
Proof. cbn. split; [reflexivity | intro; exact I]. Qed.

Lemma synchronous_log (level : LogLevel) (message : string) :
  synchronous (log_ level message).
Proof. cbn. split; [reflexivity | intro; exact I]. Qed.

Lemma synchronous_randomUUID : synchronous randomUUID.
Proof. cbn. split; [reflexivity | intro; exact I]. Qed.

Lemma synchronous_liftCompletion {A : Type} (r : Completion A) :
  synchronous (liftCompletion r).
Proof. destruct r; exact I. Qed.

Lemma synchronous_computeTargets (risk : RiskConfig.t) :
  synchronous (leaderState_computeTargets risk).
Proof.
  unfold leaderState_computeTargets. cbn [synchronous].
  split; [|intro; exact I]. intro w.
  destruct (computeTargets risk (World.leaderState w)). reflexivity.
Qed.

Lemma synchronous_computeDeltas (targets : list TargetPosition.t)
  (risk : RiskConfig.t) :
  synchronous (followerState_computeDeltas targets risk).
Proof.
  unfold followerState_computeDeltas. cbn [synchronous].
  split; [|intro; exact I]. intro w.
  destruct (computeDeltas targets risk (World.followerState w)). reflexivity.
Qed.

#[export] Hint Resolve synchronous_reads synchronous_log synchronous_randomUUID
  synchronous_liftCompletion synchronous_computeTargets
  synchronous_computeDeltas : prog.

Lemma synchronous_buildOrder (delta : PositionDelta.t) :
  synchronous (buildOrder delta).
Proof.
  unfold buildOrder.
  repeat (apply synchronous_pbind; [auto with prog | intro]).
  exact I.
Qed.

Lemma synchronous_Array_map {A B : Type} (f : A -> Prog B) (xs : list A) :
  (forall x, synchronous (f x)) -> synchronous (Array_map f xs).
Proof.
  intro Hf. induction xs as [| x xs IH]; cbn [Array_map].
  - exact I.
  - apply synchronous_pbind; [apply Hf|]. intro y.
    apply synchronous_pbind; [exact IH|]. intro ys. exact I.
Qed.

Lemma synchronous_flagNeutral {A : Type} (p : Prog A) :
  synchronous p -> flagNeutral p.
Proof.
  induction p as [a | e | X g k IH | call k IH]; cbn; intro H.
  - exact I.
  - exact I.
  - destruct H as [Hg Hk]. split; [exact Hg|]. intro x. apply IH, Hk.
  - contradiction.
Qed.

Lemma synchronous_atMostOrders {A : Type} (n : nat) (p : Prog A) :
  synchronous p -> atMostOrders n p.
Proof.
  induction p as [a | e | X g k IH | call k IH]; cbn; intro H.
  - exact I.
  - exact I.
  - destruct H as [_ Hk]. intro x. apply IH, Hk.
  - contradiction.
Qed.

(** A synchronous program runs to its end without the environment. *)
Lemma synchronous_run {A : Type} (env : Environment) (p : Prog A)
  (w : World.t) (calls : History) :
  synchronous p ->
  Outcome.calls (run env p w calls) = calls
  /\ World.syncing (Outcome.world (run env p w calls)) = World.syncing w
  /\ advance p w
     = (Outcome.world (run env p w calls),
        Settled (Outcome.result (run env p w calls))).
Proof.
  revert w. induction p as [a | e | X g k IH | call k IH]; cbn; intros w H.
  - auto.
  - auto.
  - destruct H as [Hg Hk]. specialize (Hg w). destruct (g w) as [x w'].
    cbn in Hg. rewrite <- Hg. apply IH, Hk.
  - contradiction.
Qed.

Lemma flagNeutral_pbind {A B : Type} (m : Prog A) (f : A -> Prog B) :
  flagNeutral m -> (forall a, flagNeutral (f a)) -> flagNeutral (pbind m f).
Proof.
  intros Hm Hf. induction m as [a | e | X g k IH | call k IH]; cbn in *.
  - apply Hf.
  - exact I.
  - destruct Hm as [Hg Hk]. split; [exact Hg|]. intro x. apply IH, Hk.
  - intro r. apply IH, Hm.
Qed.

Lemma flagNeutral_tryCatch {A : Type} (p : Prog A) (handler : JsError -> Prog A) :
  flagNeutral p -> (forall e, flagNeutral (handler e)) ->
  flagNeutral (tryCatch p handler).
Proof.
  intros Hp Hh. induction p as [a | e | X g k IH | call k IH]; cbn in *.
  - exact I.
  - apply Hh.
  - destruct Hp as [Hg Hk]. split; [exact Hg|]. intro x. apply IH, Hk.
  - intro r. apply IH, Hp.
Qed.

Lemma flagNeutral_await (call : ExternalCall) : flagNeutral (await call).
Proof. cbn. intros [[] | e]; exact I. Qed.

Lemma ownsFlag_tryFinally {A : Type} (p : Prog A) (w : World.t) :
  flagNeutral p -> World.syncing w = true ->
  ownsFlag (tryFinally p (setSyncing false)) w.
Proof.
  revert w. induction p as [a | e | X g k IH | call k IH]; cbn; intros w Hp Hw.
  - reflexivity.
  - reflexivity.
  - destruct Hp as [Hg Hk]. apply IH; [apply Hk|]. now rewrite Hg.
  - split; [exact Hw|]. intros r w' Hw'. apply IH; [apply Hp | exact Hw'].
Qed.

Lemma ownsFlag_advance {A : Type} (p : Prog A) (w : World.t) :
  ownsFlag p w ->
  match snd (advance p w) with
  | Settled _ => World.syncing (fst (advance p w)) = false
  | Blocked _ k =>
      World.syncing (fst (advance p w)) = true
      /\ forall r w', World.syncing w' = true -> ownsFlag (k r) w'
  end.
Proof.
  revert w. induction p as [a | e | X g k IH | call k IH]; cbn; intros w H.
  - exact H.
  - exact H.
  - destruct (g w) as [x w']. cbn in H. apply IH, H.
  - exact H.
Qed.

Lemma atMostOrders_mono {A : Type} (n m : nat) (p : Prog A) :
  (n <= m)%nat -> atMostOrders n p -> atMostOrders m p.
Proof.
  revert n m. induction p as [a | e | X g k IH | call k IH]; cbn; intros n m Hle H.
  - exact I.
  - exact I.
  - intro x. eapply IH; [exact Hle | apply H].
  - destruct (isExchangeOrder call).
    + destruct n as [| n']; [contradiction|].
      destruct m as [| m']; [lia|]. intro r. eapply IH; [|apply H]. lia.
    + intro r. eapply IH; [exact Hle | apply H].
Qed.

Lemma atMostOrders_pbind {A B : Type} (n : nat) (m : Prog A) (f : A -> Prog B) :
  atMostOrders 0 m -> (forall a, atMostOrders n (f a)) ->
  atMostOrders n (pbind m f).
Proof.
  intros Hm Hf. induction m as [a | e | X g k IH | call k IH]; cbn in *.
  - apply Hf.
  - exact I.
  - intro x. apply IH, Hm.
  - destruct (isExchangeOrder call); [contradiction|]. intro r. apply IH, Hm.
Qed.

Lemma atMostOrders_tryCatch {A : Type} (n : nat) (p : Prog A)
  (handler : JsError -> Prog A) :
  atMostOrders n p -> (forall e, atMostOrders 0 (handler e)) ->
  atMostOrders n (tryCatch p handler).
Proof.
  intros Hp Hh. revert n Hp.
  induction p as [a | e | X g k IH | call k IH]; cbn; intros n Hp.
  - exact I.
  - apply (atMostOrders_mono 0); [lia | apply Hh].
  - intro x. apply IH, Hp.
  - destruct (isExchangeOrder call).
    + destruct n as [| n']; [contradiction|]. intro r. apply IH, Hp.
    + intro r. apply IH, Hp.
Qed.

Lemma atMostOrders_tryFinally {A : Type} (n : nat) (p : Prog A)
  (finalizer : Prog unit) :
  atMostOrders n p -> atMostOrders 0 finalizer ->
  atMostOrders n (tryFinally p finalizer).
Proof.
  intros Hp Hf. revert n Hp.
  induction p as [a | e | X g k IH | call k IH]; cbn; intros n Hp.
  - apply atMostOrders_pbind; [exact Hf | intro; exact I].
  - apply atMostOrders_pbind; [exact Hf | intro; exact I].
  - intro x. apply IH, Hp.
  - destruct (isExchangeOrder call).
    + destruct n as [| n']; [contradiction|]. intro r. apply IH, Hp.
    + intro r. apply IH, Hp.
Qed.

Lemma atMostOrders_advance {A : Type} (n : nat) (p : Prog A) (w : World.t) :
  atMostOrders n p ->
  match snd (advance p w) with
  | Settled _ => True
  | Blocked call k =>
      exists n', (forall r, atMostOrders n' (k r))
                 /\ (List.length (filter isExchangeOrder [call]) + n' <= n)%nat
  end.
Proof.
  revert w. induction p as [a | e | X g k IH | call k IH]; cbn; intros w H.
  - exact I.
  - exact I.
  - destruct (g w) as [x w']. apply IH, H.
  - destruct (isExchangeOrder call); cbn.
    + destruct n as [| n']; [contradiction|]. exists n'. split; [exact H | lia].
    + exists n. split; [exact H | lia].
Qed.

(** ** [syncWithLeader]: the guard, the flag, the submissions *)

Lemma ownsFlag_reads {A X : Type} (f : World.t -> X) (k : X -> Prog A)
  (w : World.t) :
  ownsFlag (pbind (reads f) k) w = ownsFlag (k (f w)) w.
Proof. reflexivity. Qed.

Lemma atMostOrders_await (n : nat) (call : ExternalCall) :
  (List.length (filter isExchangeOrder [call]) <= n)%nat ->
  atMostOrders n (await call).
Proof.
  unfold await. cbn. destruct (isExchangeOrder call); cbn; intro H.
  - destruct n as [| n']; [lia|]. intros [[] | e]; exact I.
  - intros [[] | e]; exact I.
Qed.

(** The invocation that finds the flag set: one debug line, and it has
    returned. *)
Lemma syncWithLeader_busy (w : World.t) :
  World.syncing w = true ->
  advance syncWithLeader w
  = (logged w LogDebug "Trade sync already in progress", Settled (Normal tt)).
Proof.
  intro H. unfold syncWithLeader. cbn [pbind reads advance]. rewrite H.
  reflexivity.
Qed.

Lemma synchronous_buildOrders (deltas : list PositionDelta.t) :
  synchronous (Array_map buildOrder deltas).
Proof. apply synchronous_Array_map. exact synchronous_buildOrder. Qed.

#[export] Hint Resolve synchronous_buildOrders : prog.

(** One statement of a sequence, then the rest. *)
Ltac neutral_statement :=
  apply flagNeutral_pbind;
  [ first [ apply flagNeutral_await
          | apply synchronous_flagNeutral; auto with prog ]
  | intro ].

Ltac budget_statement :=
  apply atMostOrders_pbind;
  [ first [ apply atMostOrders_await; cbn; lia
          | apply synchronous_atMostOrders; auto with prog ]
  | intro ].

Lemma syncPass_flagNeutral : flagNeutral syncPass.
Proof.
  unfold syncPass. do 5 neutral_statement.
  cbv zeta. destruct (List.length (actionableOf _) =? 0)%nat.
  - apply synchronous_flagNeutral.
    apply synchronous_pbind; [auto with prog | intro; exact I].
  - do 2 neutral_statement. apply flagNeutral_await.
Qed.

Lemma syncPass_atMostOrders : atMostOrders 1 syncPass.
Proof.
  unfold syncPass. do 5 budget_statement.
  cbv zeta. destruct (List.length (actionableOf _) =? 0)%nat.
  - apply synchronous_atMostOrders.
    apply synchronous_pbind; [auto with prog | intro; exact I].
  - do 2 budget_statement. apply atMostOrders_await. cbn. lia.
Qed.

Lemma synchronous_handler (e : JsError) :
  synchronous
    (pbind (log_ LogError "Failed to synchronize follower with leader")
       (fun _ => ThrowP e) : Prog unit).
Proof. apply synchronous_pbind; [auto with prog | intro; exact I]. Qed.

(** The invocation that finds the flag clear sets it and owns it until it
    settles. *)
Lemma syncWithLeader_ownsFlag (w : World.t) :
  World.syncing w = false -> ownsFlag syncWithLeader w.
Proof.
  intro H. unfold syncWithLeader. rewrite ownsFlag_reads, H.
  change (ownsFlag
            (tryFinally
               (tryCatch syncPass
                  (fun error =>
                     log_ LogError "Failed to synchronize follower with leader" ;;
                     ThrowP error)%prog)
               (setSyncing false))
            (World.mk true (World.leaderState w) (World.followerState w)
               (World.metadataService w) (World.risk w) (World.log w)
               (World.uuidSource w) (World.uuidsDrawn w))).
  apply ownsFlag_tryFinally; [|reflexivity].
  apply flagNeutral_tryCatch; [exact syncPass_flagNeutral|].
  intro e. apply synchronous_flagNeutral, synchronous_handler.
Qed.

(** No invocation awaits more than one order submission. *)
Lemma syncWithLeader_atMostOrders : atMostOrders 1 syncWithLeader.
Proof.
  unfold syncWithLeader.
  apply atMostOrders_pbind;
    [apply synchronous_atMostOrders; auto with prog | intros [|]].
  - apply synchronous_atMostOrders.
    apply synchronous_pbind; [auto with prog | intro; exact I].
  - apply atMostOrders_pbind; [intro; exact I | intros _].
    apply atMostOrders_tryFinally; [|intro; exact I].
    apply atMostOrders_tryCatch; [exact syncPass_atMostOrders|].
    intro e. apply synchronous_atMostOrders, synchronous_handler.
Qed.

(** ** The event loop *)

Lemma inFlight_snoc (ts : list (Task unit)) (t : Task unit) :
  List.length (filter isBlocked (ts ++ [t]))
  = (List.length (filter isBlocked ts) + blockedCount t)%nat.
Proof.
  rewrite filter_app, length_app. unfold blockedCount. cbn.
  destruct (isBlocked t); reflexivity.
Qed.

Lemma inFlight_replace (ts : list (Task unit)) (i : nat) (old t : Task unit) :
  nth_error ts i = Some old ->
  (List.length (filter isBlocked (replace_nth i t ts)) + blockedCount old
   = List.length (filter isBlocked ts) + blockedCount t)%nat.
Proof.
  revert i. induction ts as [| y ts IH]; intros i H.
  - destruct i; discriminate.
  - destruct i as [| i']; cbn in H.
    + inversion H; subst. unfold blockedCount. cbn.
      destruct (isBlocked old), (isBlocked t); cbn; lia.
    + specialize (IH i' H). cbn. destruct (isBlocked y); cbn; lia.
Qed.

Lemma Forall_replace {A : Type} (P : A -> Prop) (xs : list A) (i : nat) (x : A) :
  Forall P xs -> P x -> Forall P (replace_nth i x xs).
Proof.
  intros Hxs Hx. revert i. induction Hxs as [| y ys Hy Hys IH]; intro i.
  - destruct i; constructor.
  - destruct i; cbn; constructor; auto.
Qed.

Lemma Forall2_replace {A B : Type} (R : A -> B -> Prop) (xs : list A)
  (ys : list B) (i : nat) (x : A) (y : B) :
  Forall2 R xs ys -> R x y -> Forall2 R (replace_nth i x xs) (replace_nth i y ys).
Proof.
  intros H Hxy. revert i. induction H as [| a b xs ys Hab Hrest IH]; intro i.
  - destruct i; constructor.
  - destruct i; cbn; constructor; auto.
Qed.

Lemma Forall2_nth {A B : Type} (R : A -> B -> Prop) (xs : list A)
  (ys : list B) (i : nat) (x : A) :
  Forall2 R xs ys -> nth_error xs i = Some x ->
  exists y, nth_error ys i = Some y /\ R x y.
Proof.
  intro H. revert i. induction H as [| a b xs ys Hab Hrest IH]; intros i Hi.
  - destruct i; discriminate.
  - destruct i as [| i']; cbn in Hi.
    + inversion Hi; subst. exists b. split; [reflexivity | exact Hab].
    + apply IH, Hi.
Qed.

Lemma list_sum_replace (ns : list nat) (i old n : nat) :
  nth_error ns i = Some old ->
  (list_sum (replace_nth i n ns) + old = list_sum ns + n)%nat.
Proof.
  revert i. induction ns as [| m ns IH]; intros i H.
  - destruct i; discriminate.
  - destruct i as [| i']; cbn in H.
    + inversion H; subst. cbn. lia.
    + specialize (IH i' H). cbn [replace_nth]. unfold list_sum in *.
      cbn [fold_right]. lia.
Qed.

Lemma submissions_app (xs ys : list ExternalCall) :
  submissions (xs ++ ys) = (submissions xs + submissions ys)%nat.
Proof. unfold submissions. now rewrite filter_app, length_app. Qed.

Lemma singleFlight_fire (ev : Event) (s : System.t) :
  singleFlight s -> singleFlight (fire ev s).
Proof.
  intros [Hcount Hheld]. unfold singleFlight, inFlight in *.
  destruct ev as [| i r | change]; cbn [fire].
  - destruct (World.syncing (System.world s)) eqn:Hs.
    + rewrite (syncWithLeader_busy _ Hs). cbn [System.world System.tasks].
      rewrite inFlight_snoc. cbn. rewrite Hs. split; [lia|].
      apply Forall_app. split; [exact Hheld | repeat constructor].
    + pose proof (ownsFlag_advance _ _ (syncWithLeader_ownsFlag _ Hs)) as Ha.
      destruct (advance syncWithLeader (System.world s)) as [w' t].
      cbn [fst snd] in Ha. cbn [System.world System.tasks].
      rewrite inFlight_snoc. destruct t as [call k | result].
      * destruct Ha as [Hw' Hk]. rewrite Hw'. cbn. split; [lia|].
        apply Forall_app. split; [exact Hheld|].
        constructor; [|constructor]. intros r w Hw. now apply Hk.
      * rewrite Ha. cbn. split; [lia|].
        apply Forall_app. split; [exact Hheld | repeat constructor].
  - destruct (nth_error (System.tasks s) i) as [[call k | result] |] eqn:Hi;
      try (split; assumption).
    assert (Hk : holdsFlag (Blocked call k)).
    { eapply Forall_forall; [exact Hheld|]. eapply nth_error_In, Hi. }
    assert (Hs : World.syncing (System.world s) = true).
    { destruct (World.syncing (System.world s)); [reflexivity|].
      pose proof (inFlight_replace _ _ _ (Settled (Normal tt)) Hi) as Hr.
      cbn in Hr. lia. }
    pose proof (ownsFlag_advance _ _ (Hk r _ Hs)) as Ha.
    destruct (advance (k r) (System.world s)) as [w' t].
    cbn [fst snd] in Ha. cbn [System.world System.tasks].
    pose proof (inFlight_replace _ _ _ t Hi) as Hr. rewrite Hs in Hcount.
    destruct t as [call' k' | result'].
    + destruct Ha as [Hw' Hk']. rewrite Hw'. cbn in Hr. split; [lia|].
      apply Forall_replace; [exact Hheld|]. intros r' w Hw. now apply Hk'.
    + rewrite Ha. cbn in Hr. split; [lia|].
      apply Forall_replace; [exact Hheld | exact I].
  - cbn. split; assumption.
Qed.

Lemma singleFlight_fires (evs : list Event) (s : System.t) :
  singleFlight s -> singleFlight (fires evs s).
Proof.
  revert s. induction evs as [| ev evs IH]; intros s H; cbn.
  - exact H.
  - apply IH, singleFlight_fire, H.
Qed.

Lemma singleFlight_idle (w : World.t) : singleFlight (idle w).
Proof. split; [reflexivity | constructor]. Qed.

Lemma withinBudget_fire (ev : Event) (s : System.t) (started : nat) :
  withinBudget s started ->
  withinBudget (fire ev s) (started + passesStarted [ev] s).
Proof.
  intros [budgets [Hb Hle]]. unfold withinBudget.
  destruct ev as [| i r | change]; cbn [fire passesStarted].
  - destruct (World.syncing (System.world s)) eqn:Hs.
    + rewrite (syncWithLeader_busy _ Hs). cbn [System.tasks System.issued issuedBy].
      exists (budgets ++ [0%nat]). split.
      * apply Forall2_app; [exact Hb | repeat constructor].
      * rewrite app_nil_r, list_sum_app. cbn. lia.
    + pose proof (atMostOrders_advance 1 _ (System.world s)
                    syncWithLeader_atMostOrders) as Ha.
      destruct (advance syncWithLeader (System.world s)) as [w' t].
      cbn [snd] in Ha. cbn [System.tasks System.issued].
      destruct t as [call k | result].
      * destruct Ha as [n' [Hk Hn']]. exists (budgets ++ [n']). split.
        -- apply Forall2_app; [exact Hb | repeat constructor; exact Hk].
        -- cbn [issuedBy]. rewrite submissions_app, list_sum_app.
           unfold submissions at 2. cbn [list_sum fold_right]. lia.
      * exists (budgets ++ [0%nat]). split.
        -- apply Forall2_app; [exact Hb | repeat constructor].
        -- cbn [issuedBy]. rewrite app_nil_r, list_sum_app. cbn. lia.
  - destruct (nth_error (System.tasks s) i) as [[call k | result] |] eqn:Hi;
      try (exists budgets; split; [exact Hb | cbn [passesStarted]; lia]).
    destruct (Forall2_nth _ _ _ _ _ Hb Hi) as [n [Hn Hk]]. cbn in Hk.
    pose proof (atMostOrders_advance n _ (System.world s) (Hk r)) as Ha.
    destruct (advance (k r) (System.world s)) as [w' t].
    cbn [snd] in Ha. cbn [System.tasks System.issued].
    destruct t as [call' k' | result'].
    + destruct Ha as [n' [Hk' Hn']]. exists (replace_nth i n' budgets). split.
      * apply Forall2_replace; [exact Hb | exact Hk'].
      * pose proof (list_sum_replace _ _ _ n' Hn) as Hsum.
        cbn [issuedBy]. rewrite submissions_app. unfold submissions at 2.
        cbn in Hn' |- *. lia.
    + exists (replace_nth i 0%nat budgets). split.
      * apply Forall2_replace; [exact Hb | reflexivity].
      * pose proof (list_sum_replace _ _ _ 0%nat Hn) as Hsum.
        cbn [issuedBy]. rewrite app_nil_r. cbn. lia.
  - exists budgets. split; [exact Hb | cbn [passesStarted System.issued]; lia].
Qed.

Lemma withinBudget_fires (evs : list Event) (s : System.t) (started : nat) :
  withinBudget s started ->
  withinBudget (fires evs s) (started + passesStarted evs s).
Proof.
  revert s started. induction evs as [| ev evs IH]; intros s started H.
  - cbn. now rewrite Nat.add_0_r.
  - cbn [fires fold_left]. pose proof (withinBudget_fire ev _ _ H) as H1.
    apply IH in H1. cbn [passesStarted] in *. rewrite Nat.add_0_r in H1.
    now rewrite Nat.add_assoc.
Qed.

Lemma withinBudget_idle (w : World.t) : withinBudget (idle w) 0.
Proof. exists []. split; [constructor | cbn; lia]. Qed.

(** The pass of the worked example submits one batch of two orders: buy 1 BTC
    (not reduce-only), sell 2 ETH (reduce-only). *)
Example example_pass :
  map (fun entry =>
         match fst entry with
         | ExchangeOrder orders grouping =>
             map (fun order =>
                    (Order.a order, Order.b order, Order.s order, Order.r order))
                 orders
         | _ => []
         end)
      (Outcome.calls (run calm syncWithLeader example_world []))
  = [ []; []; [ (0%Z, true, "1.00000", false); (1%Z, false, "2.0000", true) ] ].
Proof. reflexivity. Qed.

(** ** Single flight *)

(** C2.  In every state the event loop can reach from a fresh executor, at
    most one invocation of [syncWithLeader] is suspended at an [await], and
    [syncing] is set exactly when one is.  An invocation made while [syncing]
    is set returns at once and normally: the only change to the system is one
    debug line in the log and one more settled invocation, no call is issued
    (no metadata load, no mark price refresh, no order submission) and the
    suspended invocations are as they were.  Hence the order submissions
    issued never outnumber the invocations that found [syncing] clear: one
    pass with any number of invocations made while it runs issues at most
    one. *)
Theorem syncWithLeader_single_flight (w : World.t) (evs : list Event) :
  let s := fires evs (idle w) in
  (inFlight s <= 1)%nat
  /\ inFlight s = (if World.syncing (System.world s) then 1 else 0)%nat
  /\ (World.syncing (System.world s) = true ->
      fire Invoke s
      = System.mk
          (logged (System.world s) LogDebug "Trade sync already in progress")
          (System.tasks s ++ [Settled (Normal tt)])
          (System.issued s))
  /\ (submissions (System.issued s) <= passesStarted evs (idle w))%nat.
Proof.
  cbv zeta.
  pose proof (singleFlight_fires evs _ (singleFlight_idle w)) as [Hcount _].
  pose proof (withinBudget_fires evs _ _ (withinBudget_idle w)) as [bs [_ Hle]].
  repeat split.
  - rewrite Hcount. destruct (World.syncing _); lia.
  - exact Hcount.
  - intro Hs. cbn [fire]. rewrite (syncWithLeader_busy _ Hs).
    cbn [issuedBy]. now rewrite app_nil_r.
  - cbn in Hle. lia.
Qed.

(** A pass and two more invocations made while it is suspended, then the pass
    runs to its end: one submission, and all three invocations have
    returned. *)
Example example_concurrent_invocations :
  let s :=
    fires [Invoke; Invoke; Settle 0 (Normal tt); Invoke;
           Settle 0 (Normal tt); Settle 0 (Normal tt)]
      (idle example_world) in
  submissions (System.issued s) = 1%nat
  /\ System.tasks s
     = [Settled (Normal tt); Settled (Normal tt); Settled (Normal tt)]
  /\ World.syncing (System.world s) = false.
Proof. repeat split. Qed.

Lemma syncWithLeader_single_flight_example :
  let s := fires [Invoke] (idle example_world) in
  World.syncing (System.world s) = true
  /\ fire Invoke s
     = System.mk
         (logged (System.world s) LogDebug "Trade sync already in progress")
         (System.tasks s ++ [Settled (Normal tt)])
         (System.issued s).
Proof.
  split.
  - reflexivity.
  - exact (proj1 (proj2 (proj2
             (syncWithLeader_single_flight example_world [Invoke]))) eq_refl).
Defined.

(** ** The flag is released *)

Lemma run_reads {A X : Type} (env : Environment) (f : World.t -> X)
  (k : X -> Prog A) (w : World.t) (calls : History) :
  run env (pbind (reads f) k) w calls = run env (k (f w)) w calls.
Proof. reflexivity. Qed.

Lemma run_setSyncing {A : Type} (env : Environment) (v : bool)
  (k : unit -> Prog A) (w : World.t) (calls : History) :
  run env (pbind (setSyncing v) k) w calls
  = run env (k tt)
      (World.mk v (World.leaderState w) (World.followerState w)
         (World.metadataService w) (World.risk w) (World.log w)
         (World.uuidSource w) (World.uuidsDrawn w))
      calls.
Proof. reflexivity. Qed.

Lemma run_log {A : Type} (env : Environment) (level : LogLevel)
  (message : string) (k : unit -> Prog A) (w : World.t) (calls : History) :
  run env (pbind (log_ level message) k) w calls
  = run env (k tt) (logged w level message) calls.
Proof. reflexivity. Qed.

Lemma run_await {A : Type} (env : Environment) (call : ExternalCall)
  (k : unit -> Prog A) (w : World.t) (calls : History) :
  run env (pbind (await call) k) w calls
  = match fst (env calls call w) with
    | Normal _ =>
        run env (k tt) (snd (env calls call w))
          (calls ++ [(call, fst (env calls call w))])
    | Throw e =>
        Outcome.mk (snd (env calls call w)) (Throw e)
          (calls ++ [(call, Throw e)])
    end.
Proof.
  cbn. destruct (env calls call w) as [[[] | e] w']; reflexivity.
Qed.

(** C9 fails as stated: an invocation made while a pass is suspended returns
    (normally) and [syncing] is still set when it has. *)
Lemma syncWithLeader_returns_with_flag_set :
  let s := fires [Invoke; Invoke] (idle example_world) in
  nth_error (System.tasks s) 1 = Some (Settled (Normal tt))
  /\ inFlight s = 1%nat
  /\ World.syncing (System.world s) = true.
Proof. repeat split. Qed.

(** C9, amended.  An invocation of [syncWithLeader] that finds [syncing]
    clear has cleared it again when it returns or throws, however the awaited
    calls settle and whatever happens to the world meanwhile; so in every
    state the event loop reaches from a fresh executor in which no invocation
    is suspended, [syncing] is clear and the next invocation starts a pass.
    An invocation that finds [syncing] set leaves it set. *)
Theorem syncWithLeader_releases_flag
  (env : Environment) (w : World.t) (evs : list Event) :
  World.syncing w = false ->
  World.syncing (Outcome.world (run env syncWithLeader w [])) = false
  /\ (inFlight (fires evs (idle w)) = 0%nat ->
      World.syncing (System.world (fires evs (idle w))) = false)
  /\ (forall busy,
         World.syncing busy = true ->
         World.syncing (Outcome.world (run env syncWithLeader busy [])) = true).
Proof.
  intro H. repeat split.
  - unfold syncWithLeader. rewrite run_reads, H, run_setSyncing.
    rewrite run_tryFinally. cbv zeta. unfold setSyncing at 1.
    cbn [run Outcome.result Outcome.world World.syncing]. reflexivity.
  - intro Hzero.
    pose proof (singleFlight_fires evs _ (singleFlight_idle w)) as [Hcount _].
    rewrite Hzero in Hcount.
    destruct (World.syncing (System.world (fires evs (idle w))));
      [discriminate | reflexivity].
  - intros busy Hb. unfold syncWithLeader. rewrite run_reads, Hb.
    cbn. exact Hb.
Qed.

Lemma syncWithLeader_releases_flag_example :
  World.syncing example_world = false
  /\ World.syncing
       (Outcome.world
          (run (rejecting (JsErr "rejected")) syncWithLeader example_world []))
     = false.
Proof.
  split.
  - reflexivity.
  - exact (proj1 (syncWithLeader_releases_flag (rejecting (JsErr "rejected"))
                    example_world [] eq_refl)).
Defined.

(** ** What one invocation does *)

Lemma syncWithLeader_outcome (env : Environment) (w : World.t) :
  World.syncing w = false ->
  run env syncWithLeader w []
  = let o := run env syncPass (claimed w) [] in
    Outcome.mk
      (cleared
         (match Outcome.result o with
          | Normal _ => Outcome.world o
          | Throw _ =>
              logged (Outcome.world o) LogError
                "Failed to synchronize follower with leader"
          end))
      (Outcome.result o) (Outcome.calls o).
Proof.
  intro H. unfold syncWithLeader. rewrite run_reads, H, run_setSyncing.
  rewrite run_tryFinally, run_tryCatch. cbv zeta. fold (claimed w).
  destruct (Outcome.result (run env syncPass (claimed w) [])) as [[] | e] eqn:E.
  - rewrite E. reflexivity.
  - rewrite run_log. cbn. reflexivity.
Qed.

Lemma run_synchronous_pbind {A B : Type} (env : Environment) (m : Prog A)
  (k : A -> Prog B) (w : World.t) (calls : History) :
  synchronous m ->
  run env (pbind m k) w calls
  = match Outcome.result (run env m w calls) with
    | Normal a => run env (k a) (Outcome.world (run env m w calls)) calls
    | Throw e => Outcome.mk (Outcome.world (run env m w calls)) (Throw e) calls
    end.
Proof.
  intro H. rewrite run_pbind.
  destruct (synchronous_run env m w calls H) as [-> _]. reflexivity.
Qed.

Lemma run_computeTargets {A : Type} (env : Environment) (risk : RiskConfig.t)
  (k : list TargetPosition.t -> Prog A) (w : World.t) (calls : History) :
  run env (pbind (leaderState_computeTargets risk) k) w calls
  = run env (k (fst (computeTargets risk (World.leaderState w))))
      (World.mk (World.syncing w)
         (snd (computeTargets risk (World.leaderState w)))
         (World.followerState w) (World.metadataService w) (World.risk w)
         (World.log w) (World.uuidSource w) (World.uuidsDrawn w))
      calls.
Proof.
  unfold leaderState_computeTargets. cbn [pbind run].
  destruct (computeTargets risk (World.leaderState w)). reflexivity.
Qed.

Lemma run_computeDeltas {A : Type} (env : Environment)
  (targets : list TargetPosition.t) (risk : RiskConfig.t)
  (k : list PositionDelta.t -> Prog A) (w : World.t) (calls : History) :
  run env (pbind (followerState_computeDeltas targets risk) k) w calls
  = run env (k (fst (computeDeltas targets risk (World.followerState w))))
      (World.mk (World.syncing w) (World.leaderState w)
         (snd (computeDeltas targets risk (World.followerState w)))
         (World.metadataService w) (World.risk w)
         (World.log w) (World.uuidSource w) (World.uuidsDrawn w))
      calls.
Proof.
  unfold followerState_computeDeltas. cbn [pbind run].
  destruct (computeDeltas targets risk (World.followerState w)). reflexivity.
Qed.

Lemma run_await_last (env : Environment) (call : ExternalCall)
  (w : World.t) (calls : History) :
  run env (await call) w calls
  = Outcome.mk (snd (env calls call w)) (fst (env calls call w))
      (calls ++ [(call, fst (env calls call w))]).
Proof.
  cbn. destruct (env calls call w) as [[[] | e] w']; reflexivity.
Qed.

Lemma syncPass_outcome (env : Environment) (w : World.t) (calls : History) :
  let o := run env syncPass w calls in
  (exists e,
      Outcome.result o = Throw e
      /\ Outcome.calls o = calls ++ [(EnsureLoaded, Throw e)])
  \/ (exists e,
         Outcome.result o = Throw e
         /\ Outcome.calls o
            = calls ++ [(EnsureLoaded, Normal tt); (RefreshMarkPrices, Throw e)])
  \/ Outcome.calls o
     = calls ++ [(EnsureLoaded, Normal tt); (RefreshMarkPrices, Normal tt)]
  \/ (exists orders,
         Outcome.calls o
         = calls ++ [(EnsureLoaded, Normal tt); (RefreshMarkPrices, Normal tt);
                     (ExchangeOrder orders "na", Outcome.result o)]).
Proof.
  cbv zeta. unfold syncPass. rewrite run_await.
  destruct (env calls EnsureLoaded w) as [[[] | e1] w1]; cbn [fst snd].
  2:{ left. exists e1. split; reflexivity. }
  right. rewrite run_await.
  destruct (env _ RefreshMarkPrices w1) as [[[] | e2] w2]; cbn [fst snd].
  2:{ left. exists e2. split; [reflexivity|]. now rewrite <- app_assoc. }
  right. rewrite run_reads, run_computeTargets, run_computeDeltas. cbv zeta.
  match goal with
  | |- context [if ?b then _ else _] => destruct b
  end.
  - left. rewrite run_log. cbn. now rewrite <- app_assoc.
  - rewrite run_synchronous_pbind
      by (apply synchronous_Array_map; exact synchronous_buildOrder).
    match goal with
    | |- context [Outcome.result ?o] => destruct (Outcome.result o) as [orders | e3]
    end.
    + right. exists orders. rewrite run_log, run_await_last.
      cbn [Outcome.calls Outcome.result]. now rewrite <- !app_assoc.
    + left. cbn. now rewrite <- app_assoc.
Qed.

Lemma syncWithLeader_busy_outcome (env : Environment) (w : World.t) :
  World.syncing w = true ->
  run env syncWithLeader w []
  = Outcome.mk (logged w LogDebug "Trade sync already in progress") (Normal tt) [].
Proof.
  intro H. unfold syncWithLeader. rewrite run_reads, H. reflexivity.
Qed.

(** ** Submission failures *)

(** C7.  If the batch order call of a pass settles by throwing [e], the
    invocation of [syncWithLeader] throws that same [e] to its caller; the
    calls it has awaited are the metadata load, the mark price refresh and
    that one submission, which is the last: nothing is submitted again,
    neither the batch nor an order of it.  The failure is the last line of
    the log and [syncing] is clear. *)
Theorem syncWithLeader_propagates_submission_failure
  (env : Environment) (w : World.t) (orders : list Order.t)
  (grouping : string) (e : JsError) :
  In (ExchangeOrder orders grouping, Throw e)
     (Outcome.calls (run env syncWithLeader w [])) ->
  Outcome.result (run env syncWithLeader w []) = Throw e
  /\ Outcome.calls (run env syncWithLeader w [])
     = [(EnsureLoaded, Normal tt); (RefreshMarkPrices, Normal tt);
        (ExchangeOrder orders grouping, Throw e)]
  /\ (exists earlier,
         World.log (Outcome.world (run env syncWithLeader w []))
         = earlier ++ [(LogError, "Failed to synchronize follower with leader")])
  /\ World.syncing (Outcome.world (run env syncWithLeader w [])) = false.
Proof.
  destruct (World.syncing w) eqn:Hw.
  - rewrite (syncWithLeader_busy_outcome env w Hw). cbn. contradiction.
  - rewrite (syncWithLeader_outcome env w Hw). cbv zeta.
    pose proof (syncPass_outcome env (claimed w) []) as Hp. cbv zeta in Hp.
    remember (run env syncPass (claimed w) []) as o eqn:Eo. clear Eo.
    cbn [Outcome.calls Outcome.result Outcome.world].
    destruct Hp as [[e1 [Hr Hc]] | [[e2 [Hr Hc]] | [Hc | [orders' Hc]]]];
      rewrite Hc; cbn [app In]; intro Hin.
    + destruct Hin as [Hin | []]. discriminate.
    + destruct Hin as [Hin | [Hin | []]]; discriminate.
    + destruct Hin as [Hin | [Hin | []]]; discriminate.
    + destruct Hin as [Hin | [Hin | [Hin | []]]]; try discriminate.
      injection Hin as Ho Hg Hres. subst orders' grouping. rewrite Hres.
      repeat split. eexists. cbn. reflexivity.
Qed.

Lemma syncWithLeader_propagates_submission_failure_example :
  In (ExchangeOrder example_orders "na", Throw (JsErr "rejected"))
     (Outcome.calls
        (run (rejecting (JsErr "rejected")) syncWithLeader example_world []))
  /\ Outcome.result
       (run (rejecting (JsErr "rejected")) syncWithLeader example_world [])
     = Throw (JsErr "rejected").
Proof.
  assert (H : In (ExchangeOrder example_orders "na", Throw (JsErr "rejected"))
                (Outcome.calls
                   (run (rejecting (JsErr "rejected")) syncWithLeader
                      example_world []))).
  { right. right. left. reflexivity. }
  split.
  - exact H.
  - exact (proj1 (syncWithLeader_propagates_submission_failure
                    (rejecting (JsErr "rejected")) example_world
                    example_orders "na" (JsErr "rejected") H)).
Defined.

(** ** Orders *)

(** [buildOrder] in one step: it throws what [requireByCoin] throws, and
    otherwise returns the order, having drawn one UUID. *)
Lemma buildOrder_advance (delta : PositionDelta.t) (w : World.t) :
  advance (buildOrder delta) w
  = match MarketMetadataService.requireByCoin (World.metadataService w)
            (PositionDelta.coin delta) with
    | Throw e => (w, Settled (Throw e))
    | Normal metadata =>
        (World.mk (World.syncing w) (World.leaderState w) (World.followerState w)
           (World.metadataService w) (World.risk w) (World.log w)
           (World.uuidSource w) (S (World.uuidsDrawn w)),
         Settled
           (Normal
              {| Order.a := MarketMetadata.assetId metadata;
                 Order.b := Qltb 0 (PositionDelta.deltaSize delta);
                 Order.p :=
                   clamp
                     (referencePrice (World.metadataService w) delta
                      * (if Qltb 0 (PositionDelta.deltaSize delta)
                         then 1 + RiskConfig.maxSlippageBps (World.risk w) / 10_000
                         else 1 - RiskConfig.maxSlippageBps (World.risk w) / 10_000))
                     (referencePrice (World.metadataService w) delta * 0.1)
                     (referencePrice (World.metadataService w) delta * 10);
                 Order.s :=
                   toFixed (Math_abs (PositionDelta.deltaSize delta))
                     (MarketMetadata.sizeDecimals metadata);
                 Order.r := reduceOnlyOf delta;
                 Order.t_ := limit "Ioc";
                 Order.c :=
                   ("0x" ++ substring 0 32
                              (removeDashes
                                 (World.uuidSource w (World.uuidsDrawn w))))%string |}))
    end.
Proof.
  unfold buildOrder. cbn [pbind reads advance].
  destruct (MarketMetadataService.requireByCoin (World.metadataService w)
              (PositionDelta.coin delta)); reflexivity.
Qed.




Example example_unpriced_order :
  match snd (advance (buildOrder example_unpriced_delta) example_unpriced_world) with
  | Settled (Normal order) =>
      Some (Order.a order, Order.b order, Qred (Order.p order), Order.s order,
            Order.r order, Order.t_ order, Order.c order)
  | _ => None
  end
  = Some (7%Z, true, 0, "4.000", false, limit "Ioc",
          "0x123e4567e89b12d3a456426614174000").
Proof. reflexivity. Qed.






(** ** The dust filter and the size precision *)

(** The least integer the rounding of [toFixed] can produce is reached below
    half an increment. *)
Lemma toFixed_rounds_to_zero (x : Q) (fractionDigits : nat) :
  0 <= x ->
  x * inject_Z (10 ^ Z.of_nat fractionDigits) < 0.5 ->
  Qfloor (x * inject_Z (10 ^ Z.of_nat fractionDigits) + 0.5) = 0%Z.
Proof.
  intros Hx Hhalf.
  assert (Hpow : 0 <= inject_Z (10 ^ Z.of_nat fractionDigits)).
  { change 0 with (inject_Z 0). rewrite <- Zle_Qle. apply Z.pow_nonneg. lia. }
  assert (Hprod : 0 <= x * inject_Z (10 ^ Z.of_nat fractionDigits))
    by (apply Qmult_le_0_compat; assumption).
  set (y := x * inject_Z (10 ^ Z.of_nat fractionDigits) + 0.5) in *.
  assert (Hlo : (0 <= Qfloor y)%Z).
  { change 0%Z with (Qfloor 0). apply Qfloor_resp_le. unfold y. lra. }
  assert (Hhi : (Qfloor y < 1)%Z).
  { rewrite Zlt_Qlt. apply Qle_lt_trans with y; [apply Qfloor_le|].
    unfold y. change (inject_Z 1) with 1. lra. }
  lia.
Qed.

Lemma repeat_zero_snoc (n : nat) :
  (repeat_zero n ++ "0")%string = repeat_zero (S n).
Proof. induction n as [| n IH]; cbn; [reflexivity | now rewrite IH]. Qed.

Lemma repeat_zero_length (n : nat) : String.length (repeat_zero n) = n.
Proof. induction n as [| n IH]; cbn; [reflexivity | now rewrite IH]. Qed.

Lemma substring_whole (s : string) : substring 0 (String.length s) s = s.
Proof. induction s as [| ch s IH]; cbn; [reflexivity | now rewrite IH]. Qed.

(** Below half an increment [toFixed] writes zero. *)
Lemma toFixed_below_half_increment (x : Q) (fractionDigits : nat) :
  0 <= x ->
  x * inject_Z (10 ^ Z.of_nat fractionDigits) < 0.5 ->
  toFixed x fractionDigits = zeroString fractionDigits.
Proof.
  intros Hx Hhalf. unfold toFixed.
  assert (Hneg : Qltb x 0 = false) by now apply Qltb_false.
  rewrite Hneg. rewrite (toFixed_rounds_to_zero x fractionDigits Hx Hhalf).
  change (NilZero.string_of_uint (N.to_uint (Z.to_N 0))) with "0"%string.
  destruct fractionDigits as [| d]; [reflexivity|].
  cbn [String.length Nat.leb append].
  replace (S d + 1 - 1)%nat with (S d) by lia.
  cbn [repeat_zero append]. rewrite repeat_zero_snoc.
  cbn [String.length]. rewrite repeat_zero_length.
  replace (S (S d) - S d)%nat with 1%nat by lia.
  cbn [substring].
  pose proof (substring_whole (repeat_zero (S d))) as Hwhole.
  rewrite repeat_zero_length in Hwhole. rewrite Hwhole.
  assert (Hnone : substring 0 0 (repeat_zero (S d)) = ""%string)
    by (destruct (repeat_zero (S d)); reflexivity).
  rewrite Hnone. reflexivity.
Qed.

(** C10.  There is a delta that passes the dust filter and whose order has
    a size string that denotes zero.  In general, whenever the magnitude of
    a delta's size, however far above [MIN_ABS_DELTA] = 0.000001, is below
    half an increment of the market's size precision, [buildOrder] writes
    the size "0", "0.0", "0.00", ...; and there is such a delta: with a size
    precision of 2 decimals, the delta of size 0.000002 of the pass above is
    larger than 0.000001 and smaller than half an increment, 0.005, its
    order has the size string "0.00", and [syncWithLeader] submits that
    order. *)
Theorem dust_filter_admits_zero_size_order :
  (forall (w : World.t) (delta : PositionDelta.t) (metadata : MarketMetadata.t),
      MarketMetadataService.requireByCoin (World.metadataService w)
        (PositionDelta.coin delta) = Normal metadata ->
      MIN_ABS_DELTA < Math_abs (PositionDelta.deltaSize delta) ->
      Math_abs (PositionDelta.deltaSize delta)
      * inject_Z (10 ^ Z.of_nat (MarketMetadata.sizeDecimals metadata)) < 0.5 ->
      exists w' order,
        advance (buildOrder delta) w = (w', Settled (Normal order))
        /\ Order.s order = zeroString (MarketMetadata.sizeDecimals metadata))
  /\ exists (delta : PositionDelta.t) (order : Order.t),
       In delta
          (actionableOf
             (fst (computeDeltas
                     (fst (computeTargets (World.risk example_dust_world)
                             (World.leaderState example_dust_world)))
                     (World.risk example_dust_world)
                     (World.followerState example_dust_world))))
       /\ Math_abs (PositionDelta.deltaSize delta) == 2e-6
       /\ MIN_ABS_DELTA < Math_abs (PositionDelta.deltaSize delta)
       /\ Math_abs (PositionDelta.deltaSize delta) * inject_Z (10 ^ 2) < 0.5
       /\ MarketMetadataService.requireByCoin
            (World.metadataService example_dust_world) (PositionDelta.coin delta)
          = Normal (MarketMetadata.mk "BTC" 0 2)
       /\ snd (advance (buildOrder delta) example_dust_world)
          = Settled (Normal order)
       /\ Order.s order = "0.00"
       /\ Outcome.calls (run calm syncWithLeader example_dust_world [])
          = [(EnsureLoaded, Normal tt); (RefreshMarkPrices, Normal tt);
             (ExchangeOrder [order] "na", Normal tt)].
Proof.
  split.
  - intros w delta metadata Hmeta _ Hhalf.
    rewrite buildOrder_advance, Hmeta. eexists. eexists.
    split; [reflexivity|]. cbn [Order.s].
    apply toFixed_below_half_increment; [apply Qabs_nonneg | exact Hhalf].
  - eexists. eexists. split; [left; reflexivity|].
    split; [reflexivity|]. split; [reflexivity|]. split; [reflexivity|].
    split; [reflexivity|]. split; [reflexivity|]. split; reflexivity.
Qed.

(** * Further properties of the stores *)

Lemma Map_get_In (m : PositionMap) (key : string) (v : PositionSnapshot.t) :
  NoDup (Map_keys m) -> In (key, v) m -> Map_get m key = Some v.
Proof.
  unfold Map_keys. induction m as [| [k x] m IH]; cbn; intros Hnd Hin.
  - contradiction.
  - inversion Hnd as [| ? ? Hnotin Hnd']; subst.
    destruct Hin as [Hin | Hin].
    + inversion Hin; subst. now rewrite String.eqb_refl.
    + destruct (String.eqb_spec k key) as [-> | Hne].
      * exfalso. apply Hnotin. apply (in_map fst) in Hin. exact Hin.
      * now apply IH.
Qed.

Lemma Map_get_Some_In (m : PositionMap) (key : string) (v : PositionSnapshot.t) :
  Map_get m key = Some v -> In (key, v) m.
Proof.
  induction m as [| [k x] m IH]; cbn; intro H.
  - discriminate.
  - destruct (String.eqb_spec k key) as [-> | Hne].
    + inversion H; subst. now left.
    + right. now apply IH.
Qed.

Lemma Map_get_None (m : PositionMap) (key : string) :
  Map_get m key = None <-> ~ In key (Map_keys m).
Proof.
  unfold Map_keys. induction m as [| [k x] m IH]; cbn.
  - split; [intros _ H; exact H | reflexivity].
  - destruct (String.eqb_spec k key) as [-> | Hne].
    + split; [discriminate | intro H; exfalso; apply H; now left].
    + rewrite IH. split.
      * intros H [Heq | Hin]; [contradiction | now apply H].
      * intros H Hin. apply H. now right.
Qed.

(** X1.  Every delta [computeDeltas] returns is the difference it says:
    its delta size is its target size minus the size of its current position
    (0 when there is none).  With the distinct keys of a map, its current
    position is the one [getPosition] finds under the delta's coin. *)
Theorem computeDeltas_delta_is_target_minus_current
  (targets : list TargetPosition.t) (risk : RiskConfig.t)
  (st : TraderStateStore.t) :
  Forall
    (fun delta =>
       PositionDelta.deltaSize delta
       == PositionDelta.targetSize delta
          - currentSizeOr0 (PositionDelta.current delta)
       /\ (NoDup (Map_keys (TraderStateStore.positions st)) ->
           PositionDelta.current delta
           = fst (getPosition (PositionDelta.coin delta) st)))
    (fst (computeDeltas targets risk st)).
Proof.
  rewrite computeDeltas_eq. cbn [fst]. apply Forall_app. split;
    apply Forall_forall; intros delta Hin; apply in_map_iff in Hin;
    destruct Hin as [x [<- Hx]].
  - split; [reflexivity | intros _; reflexivity].
  - split.
    + cbn. ring.
    + intro Hnd. apply filter_In in Hx. destruct Hx as [Hx _].
      destruct x as [coin position]. cbn.
      symmetry. now apply Map_get_In.
Qed.

Lemma computeDeltas_delta_is_target_minus_current_example :
  NoDup (Map_keys (TraderStateStore.positions example_follower))
  /\ Forall
       (fun delta =>
          PositionDelta.deltaSize delta
          == PositionDelta.targetSize delta
             - currentSizeOr0 (PositionDelta.current delta)
          /\ (NoDup (Map_keys (TraderStateStore.positions example_follower)) ->
              PositionDelta.current delta
              = fst (getPosition (PositionDelta.coin delta) example_follower)))
       (fst (computeDeltas example_targets example_risk example_follower)).
Proof.
  split.
  - repeat constructor. intros [].
  - exact (computeDeltas_delta_is_target_minus_current example_targets
             example_risk example_follower).
Defined.

Lemma deltas_coins (targets : list TargetPosition.t) (risk : RiskConfig.t)
  (st : TraderStateStore.t) :
  map PositionDelta.coin (fst (computeDeltas targets risk st))
  = map TargetPosition.coin targets
    ++ map fst (filter (toClose targets) (TraderStateStore.positions st)).
Proof.
  rewrite computeDeltas_eq. cbn [fst]. rewrite map_app, !map_map. reflexivity.
Qed.

Lemma NoDup_keys_filter (f : string * PositionSnapshot.t -> bool)
  (m : PositionMap) :
  NoDup (Map_keys m) -> NoDup (Map_keys (filter f m)).
Proof.
  unfold Map_keys. induction m as [| [k x] m IH]; cbn; intro H.
  - constructor.
  - inversion H as [| ? ? Hnotin Hnd]; subst.
    destruct (f (k, x)); cbn; [constructor|]; auto.
    intro Hin. apply Hnotin. apply in_map_iff in Hin.
    destruct Hin as [[k' x'] [Hk Hin]]. cbn in Hk. subst k'.
    apply filter_In in Hin. destruct Hin as [Hin _].
    apply (in_map fst) in Hin. exact Hin.
Qed.

(** X2.  When the targets have pairwise distinct coins and the follower's
    position map has distinct keys, the deltas of [computeDeltas] have
    pairwise distinct coins: no market gets two deltas, hence two orders. *)
Theorem computeDeltas_one_delta_per_coin
  (targets : list TargetPosition.t) (risk : RiskConfig.t)
  (st : TraderStateStore.t) :
  NoDup (map TargetPosition.coin targets) ->
  NoDup (Map_keys (TraderStateStore.positions st)) ->
  NoDup (map PositionDelta.coin (fst (computeDeltas targets risk st))).
Proof.
  intros Htargets Hkeys. rewrite deltas_coins. apply NoDup_app.
  - exact Htargets.
  - now apply NoDup_keys_filter.
  - intros coin Hin Hclosed. apply in_map_iff in Hclosed.
    destruct Hclosed as [[coin' position] [Hcoin Hkept]]. cbn in Hcoin.
    subst coin'. apply filter_In in Hkept. destruct Hkept as [_ Hkeep].
    unfold toClose in Hkeep. cbn [fst] in Hkeep.
    apply andb_true_iff in Hkeep. destruct Hkeep as [Hkeep _].
    apply negb_true_iff, inTargets_false in Hkeep. contradiction.
Qed.

Lemma computeDeltas_one_delta_per_coin_example :
  NoDup (map TargetPosition.coin example_targets)
  /\ NoDup (Map_keys (TraderStateStore.positions example_follower))
  /\ NoDup (map PositionDelta.coin
              (fst (computeDeltas example_targets example_risk example_follower))).
Proof.
  assert (H1 : NoDup (map TargetPosition.coin example_targets))
    by (repeat constructor; intros []).
  assert (H2 : NoDup (Map_keys (TraderStateStore.positions example_follower)))
    by (repeat constructor; intros []).
  split; [exact H1|]. split; [exact H2|].
  exact (computeDeltas_one_delta_per_coin example_targets example_risk
           example_follower H1 H2).
Defined.

(** X3.  [computeDeltas] leaves nothing out: every target has a delta under
    its coin, and so has every position of the follower whose size is not
    below the dust threshold [1e-9], either the delta derived from the target
    of that coin or a closing delta. *)
Theorem computeDeltas_covers_targets_and_positions
  (targets : list TargetPosition.t) (risk : RiskConfig.t)
  (st : TraderStateStore.t) :
  (forall target,
      In target targets ->
      In (TargetPosition.coin target)
         (map PositionDelta.coin (fst (computeDeltas targets risk st))))
  /\ (forall coin position,
         In (coin, position) (TraderStateStore.positions st) ->
         POSITION_DUST <= Math_abs (PositionSnapshot.size position) ->
         In coin (map PositionDelta.coin (fst (computeDeltas targets risk st)))).
Proof.
  rewrite deltas_coins. split.
  - intros target Hin. apply in_or_app. left. now apply in_map.
  - intros coin position Hin Hdust. apply in_or_app.
    destruct (inTargets targets coin) eqn:Htarget.
    + left. destruct (in_dec string_dec coin (map TargetPosition.coin targets))
        as [Hyes | Hno]; [exact Hyes|].
      apply inTargets_false in Hno. congruence.
    + right. change coin with (fst (coin, position)). apply in_map.
      apply filter_In. split; [exact Hin|]. unfold toClose. cbn [fst snd].
      rewrite Htarget. cbn. apply negb_true_iff. now apply Qltb_false.
Qed.

Lemma computeDeltas_covers_targets_and_positions_example :
  In "ETH"
     (map PositionDelta.coin
        (fst (computeDeltas example_targets example_risk example_follower))).
Proof.
  apply (proj2 (computeDeltas_covers_targets_and_positions example_targets
                  example_risk example_follower)
           "ETH" (PositionSnapshot.mk "ETH" 2 3000)).
  - left. reflexivity.
  - vm_compute. discriminate.
Defined.

(** ** From the leader's positions to the follower's deltas *)

Lemma Math_sign_scaled (s ratio : Q) :
  0 < ratio -> Math_sign (s * ratio) = Math_sign s.
Proof.
  intro Hr.
  destruct (Math_sign_cases s) as [[Hs E] | [[Hs E] | [Hs E]]]; rewrite E.
  - apply Math_sign_neg. nra.
  - apply Math_sign_zero. rewrite Hs. ring.
  - apply Math_sign_pos. nra.
Qed.

(** X6.  When the leader holds nothing, [computeTargets] returns no target
    and [computeDeltas] returns exactly the closing deltas of the follower's
    positions that are not below the dust threshold, in the order of the
    follower's position map: the follower is taken flat. *)
Theorem flat_leader_closes_follower
  (risk : RiskConfig.t) (leader follower : TraderStateStore.t) :
  TraderStateStore.positions leader = [] ->
  fst (computeTargets risk leader) = []
  /\ fst (computeDeltas (fst (computeTargets risk leader)) risk follower)
     = map closingDelta
         (filter
            (fun entry =>
               negb (Qltb (Math_abs (PositionSnapshot.size (snd entry)))
                       POSITION_DUST))
            (TraderStateStore.positions follower)).
Proof.
  intro Hflat. rewrite computeTargets_eq, Hflat. cbn [fst Map_values map].
  split; [reflexivity|]. rewrite computeDeltas_eq. cbn [fst map app].
  f_equal.
Qed.

Lemma flat_leader_closes_follower_example :
  fst (computeDeltas
         (fst (computeTargets example_risk
                 (flat (AccountMetrics.mk 1000000 None))))
         example_risk example_follower)
  = map closingDelta
      (filter
         (fun entry =>
            negb (Qltb (Math_abs (PositionSnapshot.size (snd entry)))
                    POSITION_DUST))
         (TraderStateStore.positions example_follower)).
Proof.
  exact (proj2 (flat_leader_closes_follower example_risk
                  (flat (AccountMetrics.mk 1000000 None)) example_follower
                  eq_refl)).
Defined.

(** X7.  The closing loop and the executor use different dust thresholds.
    A follower position whose coin is in no target and whose magnitude is at
    least [1e-9] but at most [1e-6] gets a closing delta from
    [computeDeltas], and that delta is not among the actionable ones: no
    order is built for it. *)
Theorem small_abandoned_position_is_not_traded
  (targets : list TargetPosition.t) (risk : RiskConfig.t)
  (st : TraderStateStore.t) (coin : string) (position : PositionSnapshot.t) :
  In (coin, position) (TraderStateStore.positions st) ->
  ~ In coin (map TargetPosition.coin targets) ->
  POSITION_DUST <= Math_abs (PositionSnapshot.size position) ->
  Math_abs (PositionSnapshot.size position) <= MIN_ABS_DELTA ->
  In (closingDelta (coin, position)) (fst (computeDeltas targets risk st))
  /\ ~ In (closingDelta (coin, position))
          (actionableOf (fst (computeDeltas targets risk st))).
Proof.
  intros Hin Hnot Hdust Hsmall. split.
  - rewrite computeDeltas_eq. cbn [fst]. apply in_or_app. right.
    apply in_map. apply filter_In. split; [exact Hin|].
    unfold toClose. cbn [fst snd]. apply inTargets_false in Hnot.
    rewrite Hnot. cbn. apply negb_true_iff. now apply Qltb_false.
  - unfold actionableOf. intro Hact. apply filter_In in Hact.
    destruct Hact as [_ Hact]. apply Qltb_true in Hact.
    cbn [closingDelta PositionDelta.deltaSize snd] in Hact.
    unfold Math_abs in *. rewrite Qabs_opp in Hact. lra.
Qed.

Lemma small_abandoned_position_is_not_traded_example :
  let st :=
    TraderStateStore.mk [("ETH", PositionSnapshot.mk "ETH" 5e-7 3000)]
      (AccountMetrics.mk 10000 None) in
  In (closingDelta ("ETH", PositionSnapshot.mk "ETH" 5e-7 3000))
     (fst (computeDeltas example_targets example_risk st))
  /\ ~ In (closingDelta ("ETH", PositionSnapshot.mk "ETH" 5e-7 3000))
          (actionableOf (fst (computeDeltas example_targets example_risk st))).
Proof.
  apply (small_abandoned_position_is_not_traded example_targets example_risk
           (TraderStateStore.mk [("ETH", PositionSnapshot.mk "ETH" 5e-7 3000)]
              (AccountMetrics.mk 10000 None))
           "ETH" (PositionSnapshot.mk "ETH" 5e-7 3000)).
  - left. reflexivity.
  - intros [H | []]. discriminate.
  - vm_compute. discriminate.
  - vm_compute. discriminate.
Defined.

(** * Further properties of the executor *)

Lemma advance_pbind {A B : Type} (m : Prog A) (f : A -> Prog B) (w : World.t) :
  advance (pbind m f) w
  = match advance m w with
    | (w', Settled (Normal a)) => advance (f a) w'
    | (w', Settled (Throw e)) => (w', Settled (Throw e))
    | (w', Blocked call k) => (w', Blocked call (fun r => pbind (k r) f))
    end.
Proof.
  revert w. induction m as [a | e | X g k IH | call k IH]; intro w; cbn.
  - reflexivity.
  - reflexivity.
  - destruct (g w) as [x w']. apply IH.
  - reflexivity.
Qed.

Lemma world_eta (w : World.t) :
  World.mk (World.syncing w) (World.leaderState w) (World.followerState w)
    (World.metadataService w) (World.risk w) (World.log w)
    (World.uuidSource w) (World.uuidsDrawn w) = w.
Proof. destruct w. reflexivity. Qed.

Lemma withUuidsDrawn_same (w : World.t) : withUuidsDrawn w (World.uuidsDrawn w) = w.
Proof. apply world_eta. Qed.

(** [buildOrder] looks at the metadata service, the risk configuration and
    the UUID source only, and moves the UUID counter by one. *)
Lemma buildOrder_known (delta : PositionDelta.t) (w : World.t) :
  knownMarket w delta ->
  exists order,
    advance (buildOrder delta) w
    = (withUuidsDrawn w (S (World.uuidsDrawn w)), Settled (Normal order)).
Proof.
  intros [metadata Hmeta]. rewrite buildOrder_advance, Hmeta.
  eexists. reflexivity.
Qed.

Lemma buildOrder_unknown (delta : PositionDelta.t) (w : World.t) (e : JsError) :
  MarketMetadataService.requireByCoin (World.metadataService w)
    (PositionDelta.coin delta) = Throw e ->
  advance (buildOrder delta) w = (w, Settled (Throw e)).
Proof. intro H. now rewrite buildOrder_advance, H. Qed.

Lemma knownMarket_withUuidsDrawn (w : World.t) (n : nat) (delta : PositionDelta.t) :
  knownMarket (withUuidsDrawn w n) delta <-> knownMarket w delta.
Proof. reflexivity. Qed.

Lemma tradableMarket_known (w : World.t) (delta : PositionDelta.t) :
  tradableMarket w delta -> knownMarket w delta.
Proof. intros [metadata [H _]]. now exists metadata. Qed.

(** Building the orders of deltas whose markets are known. *)
Lemma Array_map_buildOrder_builds (deltas : list PositionDelta.t) (w : World.t) :
  Forall (knownMarket w) deltas ->
  exists orders,
    advance (Array_map buildOrder deltas) w
    = (withUuidsDrawn w (World.uuidsDrawn w + List.length deltas),
       Settled (Normal orders))
    /\ List.length orders = List.length deltas
    /\ forall i delta,
         nth_error deltas i = Some delta ->
         exists order,
           nth_error orders i = Some order
           /\ snd (advance (buildOrder delta)
                     (withUuidsDrawn w (World.uuidsDrawn w + i)))
              = Settled (Normal order).
Proof.
  revert w. induction deltas as [| delta deltas IH]; intros w Hknown.
  - exists []. cbn [Array_map advance List.length]. rewrite Nat.add_0_r.
    rewrite withUuidsDrawn_same. repeat split.
    intros i delta Hi. destruct i; discriminate.
  - inversion Hknown as [| ? ? Hd Hrest]; subst.
    destruct (buildOrder_known delta w Hd) as [order Horder].
    destruct (IH (withUuidsDrawn w (S (World.uuidsDrawn w))) Hrest)
      as [orders [Hadv [Hlen Hnth]]].
    exists (order :: orders). cbn [Array_map].
    rewrite advance_pbind, Horder, advance_pbind, Hadv.
    cbn [advance List.length withUuidsDrawn World.uuidsDrawn World.syncing
           World.leaderState World.followerState World.metadataService
           World.risk World.log World.uuidSource].
    split.
    { unfold withUuidsDrawn. f_equal. f_equal. lia. }
    split; [now rewrite Hlen|].
    intros i delta' Hi. destruct i as [| i]; cbn in Hi.
    + inversion Hi; subst. exists order. split; [reflexivity|].
      rewrite Nat.add_0_r, withUuidsDrawn_same, Horder. reflexivity.
    + destruct (Hnth i delta' Hi) as [order' [Hin Hbuilt]].
      exists order'. split; [exact Hin|].
      cbn [withUuidsDrawn World.uuidsDrawn World.syncing World.leaderState
             World.followerState World.metadataService World.risk World.log
             World.uuidSource] in Hbuilt.
      replace (World.uuidsDrawn w + S i)%nat
        with (S (World.uuidsDrawn w) + i)%nat by lia.
      exact Hbuilt.
Qed.

(** X8.  [actionable.map(buildOrder)] when every market is known and has a
    size precision of at most 100 digits, so that [toFixed] does not throw:
    one order per delta, in the order of the deltas; the order at index [i]
    is the one [buildOrder] makes of the delta at index [i] with the UUID
    drawn at position [i] after those already drawn, and as many UUIDs are
    drawn as there are deltas. *)
Theorem buildOrders_one_per_delta (deltas : list PositionDelta.t) (w : World.t) :
  Forall (tradableMarket w) deltas ->
  exists orders,
    advance (Array_map buildOrder deltas) w
    = (withUuidsDrawn w (World.uuidsDrawn w + List.length deltas),
       Settled (Normal orders))
    /\ List.length orders = List.length deltas
    /\ forall i delta,
         nth_error deltas i = Some delta ->
         exists order,
           nth_error orders i = Some order
           /\ snd (advance (buildOrder delta)
                     (withUuidsDrawn w (World.uuidsDrawn w + i)))
              = Settled (Normal order).
Proof.
  intro Htradable. apply Array_map_buildOrder_builds.
  eapply Forall_impl; [|exact Htradable].
  intros delta. apply tradableMarket_known.
Qed.

Lemma buildOrders_one_per_delta_example :
  Forall (tradableMarket example_world) [example_closing_delta]
  /\ exists orders,
       advance (Array_map buildOrder [example_closing_delta]) example_world
       = (withUuidsDrawn example_world 1, Settled (Normal orders))
       /\ List.length orders = 1%nat.
Proof.
  assert (H : Forall (tradableMarket example_world) [example_closing_delta]).
  { constructor; [|constructor]. eexists. split; [reflexivity | cbn; lia]. }
  split; [exact H|].
  destruct (buildOrders_one_per_delta [example_closing_delta] example_world H)
    as [orders [Hadv [Hlen _]]].
  exists orders. split; [exact Hadv | exact Hlen].
Defined.

(** Building the orders stops at the first delta whose market is unknown. *)
Lemma Array_map_buildOrder_throws
  (known : list PositionDelta.t) (delta : PositionDelta.t)
  (rest : list PositionDelta.t) (w : World.t) (e : JsError) :
  Forall (knownMarket w) known ->
  MarketMetadataService.requireByCoin (World.metadataService w)
    (PositionDelta.coin delta) = Throw e ->
  advance (Array_map buildOrder (known ++ delta :: rest)) w
  = (withUuidsDrawn w (World.uuidsDrawn w + List.length known),
     Settled (Throw e)).
Proof.
  revert w. induction known as [| d known IH]; intros w Hknown Hthrow.
  - cbn [app Array_map List.length]. rewrite advance_pbind.
    rewrite (buildOrder_unknown delta w e Hthrow).
    now rewrite Nat.add_0_r, withUuidsDrawn_same.
  - inversion Hknown as [| ? ? Hd Hrest]; subst.
    destruct (buildOrder_known d w Hd) as [order Horder].
    cbn [app Array_map]. rewrite advance_pbind, Horder, advance_pbind.
    rewrite (IH (withUuidsDrawn w (S (World.uuidsDrawn w))) Hrest Hthrow).
    cbn [List.length withUuidsDrawn World.uuidsDrawn World.syncing
           World.leaderState World.followerState World.metadataService
           World.risk World.log World.uuidSource].
    unfold withUuidsDrawn. f_equal. f_equal. lia.
Qed.

(** X9.  [actionable.map(buildOrder)] when a market is unknown: if the
    deltas before the first one whose market is unknown have markets with a
    size precision of at most 100 digits, so that [toFixed] does not throw
    for them, the build throws what [requireByCoin] throws for that first
    delta, and no list of orders comes out, whatever the other deltas.  One
    UUID has been drawn for each delta before that one and none after. *)
Theorem buildOrders_all_or_nothing
  (known : list PositionDelta.t) (delta : PositionDelta.t)
  (rest : list PositionDelta.t) (w : World.t) (e : JsError) :
  Forall (tradableMarket w) known ->
  MarketMetadataService.requireByCoin (World.metadataService w)
    (PositionDelta.coin delta) = Throw e ->
  snd (advance (Array_map buildOrder (known ++ delta :: rest)) w)
  = Settled (Throw e)
  /\ World.uuidsDrawn
       (fst (advance (Array_map buildOrder (known ++ delta :: rest)) w))
     = (World.uuidsDrawn w + List.length known)%nat.
Proof.
  intros Htradable Hthrow.
  assert (Hknown : Forall (knownMarket w) known).
  { eapply Forall_impl; [|exact Htradable].
    intros d. apply tradableMarket_known. }
  rewrite (Array_map_buildOrder_throws known delta rest w e Hknown Hthrow).
  split; reflexivity.
Qed.

Lemma buildOrders_all_or_nothing_example :
  Forall (tradableMarket example_world) [example_closing_delta]
  /\ MarketMetadataService.requireByCoin (World.metadataService example_world)
       (PositionDelta.coin example_unpriced_delta)
     = Throw (JsErr "Unknown coin")
  /\ snd (advance
            (Array_map buildOrder
               ([example_closing_delta] ++ example_unpriced_delta :: []))
            example_world)
     = Settled (Throw (JsErr "Unknown coin")).
Proof.
  assert (H : Forall (tradableMarket example_world) [example_closing_delta]).
  { constructor; [|constructor]. eexists. split; [reflexivity | cbn; lia]. }
  split; [exact H|]. split; [reflexivity|].
  exact (proj1 (buildOrders_all_or_nothing [example_closing_delta]
                  example_unpriced_delta [] example_world
                  (JsErr "Unknown coin") H eq_refl)).
Defined.

(** ** A pass, step by step *)

Lemma computeTargets_store (risk : RiskConfig.t) (st : TraderStateStore.t) :
  snd (computeTargets risk st) = st.
Proof. now rewrite computeTargets_eq. Qed.

Lemma computeDeltas_store (targets : list TargetPosition.t)
  (risk : RiskConfig.t) (st : TraderStateStore.t) :
  snd (computeDeltas targets risk st) = st.
Proof. now rewrite computeDeltas_eq. Qed.

Lemma buildOrders_length (deltas : list PositionDelta.t) (w : World.t)
  (orders : list Order.t) :
  snd (advance (Array_map buildOrder deltas) w) = Settled (Normal orders) ->
  List.length orders = List.length deltas.
Proof.
  revert w orders. induction deltas as [| delta deltas IH]; intros w orders.
  - cbn. intro H. inversion H. reflexivity.
  - cbn [Array_map]. rewrite advance_pbind, buildOrder_advance.
    destruct (MarketMetadataService.requireByCoin (World.metadataService w)
                (PositionDelta.coin delta)) as [metadata | e];
      [|discriminate].
    rewrite advance_pbind.
    match goal with
    | |- context [advance (Array_map buildOrder deltas) ?w0] =>
        specialize (IH w0);
        destruct (advance (Array_map buildOrder deltas) w0) as [w' [c k | [os | e]]]
    end; cbn; try discriminate.
    intro H. inversion H; subst. cbn. f_equal. now apply IH.
Qed.

Lemma first_unknown_market (deltas : list PositionDelta.t) (w : World.t)
  (delta : PositionDelta.t) (e : JsError) :
  In delta deltas ->
  MarketMetadataService.requireByCoin (World.metadataService w)
    (PositionDelta.coin delta) = Throw e ->
  exists known first rest e',
    deltas = known ++ first :: rest
    /\ Forall (knownMarket w) known
    /\ MarketMetadataService.requireByCoin (World.metadataService w)
         (PositionDelta.coin first) = Throw e'.
Proof.
  induction deltas as [| d deltas IH]; intros Hin Hthrow.
  - contradiction.
  - destruct (MarketMetadataService.requireByCoin (World.metadataService w)
                (PositionDelta.coin d)) as [metadata | e0] eqn:Hd.
    + destruct Hin as [-> | Hin]; [congruence|].
      destruct (IH Hin Hthrow) as [known [first [rest [e' [Heq [Hk Hf]]]]]].
      exists (d :: known), first, rest, e'. split; [now rewrite Heq|].
      split; [|exact Hf]. constructor; [|exact Hk]. now exists metadata.
    + exists [], d, deltas, e0. repeat split; [constructor | exact Hd].
Qed.

(** The pass after two successful loads. *)
Lemma syncPass_after_loads (env : Environment) (w : World.t) :
  loadsSucceed env w ->
  run env syncPass (claimed w) []
  = let w2 := afterLoads env w in
    let loaded := [(EnsureLoaded, Normal tt); (RefreshMarkPrices, Normal tt)] in
    let actionable := actionableOf (passDeltas w2) in
    if (List.length actionable =? 0)%nat then
      Outcome.mk
        (logged w2 LogDebug "Follower already synchronized with leader")
        (Normal tt) loaded
    else
      match advance (Array_map buildOrder actionable) w2 with
      | (w3, Settled (Normal orders)) =>
          let settled :=
            env loaded (ExchangeOrder orders "na")
              (logged w3 LogInfo "Submitting follower sync orders") in
          Outcome.mk (snd settled) (fst settled)
            (loaded ++ [(ExchangeOrder orders "na", fst settled)])
      | (w3, Settled (Throw e)) => Outcome.mk w3 (Throw e) loaded
      | (w3, Blocked _ _) => Outcome.mk w3 (Normal tt) loaded
      end.
Proof.
  intros [Hload Hrefresh]. cbv zeta. unfold afterLoads.
  unfold syncPass. rewrite run_await, Hload. cbn [app].
  rewrite run_await, Hrefresh. cbn [app].
  set (w2 := snd (env [(EnsureLoaded, Normal tt)] RefreshMarkPrices
                    (snd (env [] EnsureLoaded (claimed w))))).
  rewrite run_reads, run_computeTargets, run_computeDeltas.
  cbn [World.syncing World.leaderState World.followerState
         World.metadataService World.risk World.log World.uuidSource
         World.uuidsDrawn].
  rewrite computeTargets_store, computeDeltas_store, world_eta.
  fold (passDeltas w2). cbv zeta.
  destruct (List.length (actionableOf (passDeltas w2)) =? 0)%nat.
  - rewrite run_log. reflexivity.
  - rewrite run_synchronous_pbind by auto with prog.
    destruct (synchronous_run env (Array_map buildOrder (actionableOf (passDeltas w2)))
                w2 [(EnsureLoaded, Normal tt); (RefreshMarkPrices, Normal tt)]
                (synchronous_buildOrders _)) as [_ [_ Hadv]].
    rewrite Hadv.
    destruct (Outcome.result
                (run env (Array_map buildOrder (actionableOf (passDeltas w2))) w2
                   [(EnsureLoaded, Normal tt); (RefreshMarkPrices, Normal tt)]))
      as [orders | e].
    + rewrite run_log, run_await_last. reflexivity.
    + reflexivity.
Qed.

(** X10.  What [syncWithLeader] submits is what it built.  Whenever an
    invocation has awaited an order submission, both loads had succeeded,
    the grouping is "na", and the batch is the list of orders [buildOrder]
    made of the actionable deltas computed in the world in which the pass
    resumed after the loads, one per actionable delta: in particular the
    batch is not empty.  The invocation completes as that submission
    settles. *)
Theorem syncWithLeader_submits_what_it_built
  (env : Environment) (w : World.t) (orders : list Order.t)
  (grouping : string) (r : Completion unit) :
  In (ExchangeOrder orders grouping, r)
     (Outcome.calls (run env syncWithLeader w [])) ->
  loadsSucceed env w
  /\ grouping = "na"
  /\ snd (advance
            (Array_map buildOrder (actionableOf (passDeltas (afterLoads env w))))
            (afterLoads env w))
     = Settled (Normal orders)
  /\ List.length orders
     = List.length (actionableOf (passDeltas (afterLoads env w)))
  /\ orders <> []
  /\ Outcome.result (run env syncWithLeader w []) = r.
Proof.
  destruct (World.syncing w) eqn:Hw.
  { rewrite (syncWithLeader_busy_outcome env w Hw). cbn. contradiction. }
  rewrite (syncWithLeader_outcome env w Hw). cbv zeta.
  cbn [Outcome.calls Outcome.result].
  assert (Hloads : In (ExchangeOrder orders grouping, r)
                     (Outcome.calls (run env syncPass (claimed w) [])) ->
                   loadsSucceed env w).
  { unfold loadsSucceed, syncPass. rewrite run_await.
    destruct (env [] EnsureLoaded (claimed w)) as [[[] | e1] w1];
      cbn [fst snd app].
    2:{ cbn. intros [H | []]. discriminate. }
    rewrite run_await.
    destruct (env [(EnsureLoaded, Normal tt)] RefreshMarkPrices w1)
      as [[[] | e2] w2]; cbn [fst snd app].
    2:{ cbn. intros [H | [H | []]]; discriminate. }
    intros _. split; reflexivity. }
  intro Hin. pose proof (Hloads Hin) as Hok. split; [exact Hok|].
  rewrite (syncPass_after_loads env w Hok) in Hin |- *. cbv zeta in Hin |- *.
  destruct (List.length (actionableOf (passDeltas (afterLoads env w))) =? 0)%nat
    eqn:Hempty.
  { cbn in Hin. destruct Hin as [H | [H | []]]; discriminate. }
  pose proof (buildOrders_length
                (actionableOf (passDeltas (afterLoads env w))) (afterLoads env w))
    as Hlen.
  destruct (advance
              (Array_map buildOrder (actionableOf (passDeltas (afterLoads env w))))
              (afterLoads env w)) as [w3 [c k | [orders' | e]]].
  - cbn in Hin. destruct Hin as [H | [H | []]]; discriminate.
  - cbn [Outcome.calls Outcome.result app In] in Hin |- *.
    destruct Hin as [H | [H | [H | []]]]; try discriminate.
    injection H as Ho Hg Hr. subst orders' grouping.
    specialize (Hlen orders eq_refl).
    split; [reflexivity|]. split; [reflexivity|]. split; [exact Hlen|].
    split; [|exact Hr].
    apply Nat.eqb_neq in Hempty. intro Hnil. subst orders. cbn in Hlen.
    congruence.
  - cbn in Hin. destruct Hin as [H | [H | []]]; discriminate.
Qed.

Lemma syncWithLeader_submits_what_it_built_example :
  In (ExchangeOrder example_orders "na", Normal tt)
     (Outcome.calls (run calm syncWithLeader example_world []))
  /\ List.length example_orders
     = List.length (actionableOf (passDeltas (afterLoads calm example_world))).
Proof.
  assert (H : In (ExchangeOrder example_orders "na", Normal tt)
                (Outcome.calls (run calm syncWithLeader example_world []))).
  { right. right. left. reflexivity. }
  split; [exact H|].
  exact (proj1 (proj2 (proj2 (proj2
           (syncWithLeader_submits_what_it_built calm example_world
              example_orders "na" (Normal tt) H))))).
Defined.

(** X11.  One unknown market fails the whole pass.  If, after two successful
    loads, the metadata service does not know the market of one of the
    actionable deltas, the invocation throws and submits nothing, not even
    the orders of the markets it knows; [syncing] is clear afterwards. *)
Theorem syncWithLeader_unknown_market_submits_nothing
  (env : Environment) (w : World.t) (delta : PositionDelta.t) (e : JsError) :
  World.syncing w = false ->
  loadsSucceed env w ->
  In delta (actionableOf (passDeltas (afterLoads env w))) ->
  MarketMetadataService.requireByCoin
    (World.metadataService (afterLoads env w)) (PositionDelta.coin delta)
  = Throw e ->
  (exists e', Outcome.result (run env syncWithLeader w []) = Throw e')
  /\ Outcome.calls (run env syncWithLeader w [])
     = [(EnsureLoaded, Normal tt); (RefreshMarkPrices, Normal tt)]
  /\ World.syncing (Outcome.world (run env syncWithLeader w [])) = false.
Proof.
  intros Hw Hok Hin Hthrow. rewrite (syncWithLeader_outcome env w Hw).
  cbv zeta. cbn [Outcome.calls Outcome.result Outcome.world].
  rewrite (syncPass_after_loads env w Hok). cbv zeta.
  destruct (List.length (actionableOf (passDeltas (afterLoads env w))) =? 0)%nat
    eqn:Hempty.
  { apply Nat.eqb_eq in Hempty.
    destruct (actionableOf (passDeltas (afterLoads env w)));
      [contradiction | discriminate]. }
  destruct (first_unknown_market _ _ _ _ Hin Hthrow)
    as [known [first [rest [e' [Heq [Hknown Hfirst]]]]]].
  assert (Hall : snd (advance
                        (Array_map buildOrder (known ++ first :: rest))
                        (afterLoads env w))
                 = Settled (Throw e'))
    by now rewrite (Array_map_buildOrder_throws known first rest
                      (afterLoads env w) e' Hknown Hfirst).
  rewrite <- Heq in Hall.
  destruct (advance
              (Array_map buildOrder (actionableOf (passDeltas (afterLoads env w))))
              (afterLoads env w)) as [w3 t].
  cbn [snd] in Hall. subst t. cbn. split; [now exists e'|]. split; reflexivity.
Qed.

Lemma syncWithLeader_unknown_market_submits_nothing_example :
  In example_closing_delta
     (actionableOf (passDeltas (afterLoads calm example_partial_world)))
  /\ Outcome.calls (run calm syncWithLeader example_partial_world [])
     = [(EnsureLoaded, Normal tt); (RefreshMarkPrices, Normal tt)].
Proof.
  assert (Hin : In example_closing_delta
                  (actionableOf
                     (passDeltas (afterLoads calm example_partial_world)))).
  { right. left. reflexivity. }
  split; [exact Hin|].
  exact (proj1 (proj2
           (syncWithLeader_unknown_market_submits_nothing calm
              example_partial_world example_closing_delta
              (JsErr "Unknown coin") eq_refl (conj eq_refl eq_refl) Hin
              eq_refl))).
Defined.

(** X12.  Nothing to do, nothing submitted.  If, after two successful loads,
    no delta is actionable, the invocation returns normally having awaited
    the two loads only; it has written the debug line "Follower already
    synchronized with leader" last, and [syncing] is clear. *)
Theorem syncWithLeader_synchronized_submits_nothing
  (env : Environment) (w : World.t) :
  World.syncing w = false ->
  loadsSucceed env w ->
  actionableOf (passDeltas (afterLoads env w)) = [] ->
  Outcome.result (run env syncWithLeader w []) = Normal tt
  /\ Outcome.calls (run env syncWithLeader w [])
     = [(EnsureLoaded, Normal tt); (RefreshMarkPrices, Normal tt)]
  /\ World.log (Outcome.world (run env syncWithLeader w []))
     = World.log (afterLoads env w)
       ++ [(LogDebug, "Follower already synchronized with leader")]
  /\ World.syncing (Outcome.world (run env syncWithLeader w [])) = false.
Proof.
  intros Hw Hok Hnone. rewrite (syncWithLeader_outcome env w Hw).
  cbv zeta. cbn [Outcome.calls Outcome.result Outcome.world].
  rewrite (syncPass_after_loads env w Hok). cbv zeta. rewrite Hnone.
  cbn. repeat split.
Qed.

Lemma syncWithLeader_synchronized_submits_nothing_example :
  actionableOf (passDeltas (afterLoads calm example_synchronized_world)) = []
  /\ Outcome.calls (run calm syncWithLeader example_synchronized_world [])
     = [(EnsureLoaded, Normal tt); (RefreshMarkPrices, Normal tt)].
Proof.
  split; [reflexivity|].
  exact (proj1 (proj2
           (syncWithLeader_synchronized_submits_nothing calm
              example_synchronized_world eq_refl (conj eq_refl eq_refl)
              eq_refl))).
Defined.

(** X13.  A failed load fails the pass before anything is computed.  If the
    metadata load or the mark price refresh settles by throwing [e], the
    invocation throws that [e]; the failed load is the last call it awaited
    (after a failed metadata load the mark prices are not refreshed), no
    order is submitted, the failure is the last line of the log and
    [syncing] is clear. *)
Theorem syncWithLeader_propagates_load_failure
  (env : Environment) (w : World.t) (call : ExternalCall) (e : JsError) :
  call = EnsureLoaded \/ call = RefreshMarkPrices ->
  In (call, Throw e) (Outcome.calls (run env syncWithLeader w [])) ->
  Outcome.result (run env syncWithLeader w []) = Throw e
  /\ (Outcome.calls (run env syncWithLeader w []) = [(EnsureLoaded, Throw e)]
      \/ Outcome.calls (run env syncWithLeader w [])
         = [(EnsureLoaded, Normal tt); (RefreshMarkPrices, Throw e)])
  /\ submissions (map fst (Outcome.calls (run env syncWithLeader w []))) = 0%nat
  /\ (exists earlier,
         World.log (Outcome.world (run env syncWithLeader w []))
         = earlier ++ [(LogError, "Failed to synchronize follower with leader")])
  /\ World.syncing (Outcome.world (run env syncWithLeader w [])) = false.
Proof.
  intro Hcall. destruct (World.syncing w) eqn:Hw.
  { rewrite (syncWithLeader_busy_outcome env w Hw). cbn. contradiction. }
  rewrite (syncWithLeader_outcome env w Hw). cbv zeta.
  pose proof (syncPass_outcome env (claimed w) []) as Hp. cbv zeta in Hp.
  remember (run env syncPass (claimed w) []) as o eqn:Eo. clear Eo.
  cbn [Outcome.calls Outcome.result Outcome.world].
  destruct Hp as [[e1 [Hr Hc]] | [[e2 [Hr Hc]] | [Hc | [orders' Hc]]]];
    rewrite Hc; cbn [app In]; intro Hin.
  - destruct Hin as [Hin | []]. injection Hin as _ He. subst e1.
    rewrite Hr. repeat split; [now left | eexists; reflexivity].
  - destruct Hin as [Hin | [Hin | []]]; [discriminate|].
    injection Hin as _ He. subst e2.
    rewrite Hr. repeat split; [now right | eexists; reflexivity].
  - destruct Hin as [Hin | [Hin | []]]; discriminate.
  - destruct Hin as [Hin | [Hin | [Hin | []]]]; try discriminate.
    destruct Hcall as [-> | ->]; discriminate.
Qed.

Lemma syncWithLeader_propagates_load_failure_example :
  In (EnsureLoaded, Throw (JsErr "offline"))
     (Outcome.calls
        (run (unloadable (JsErr "offline")) syncWithLeader example_world []))
  /\ Outcome.result
       (run (unloadable (JsErr "offline")) syncWithLeader example_world [])
     = Throw (JsErr "offline").
Proof.
  assert (H : In (EnsureLoaded, Throw (JsErr "offline"))
                (Outcome.calls
                   (run (unloadable (JsErr "offline")) syncWithLeader
                      example_world []))).
  { left. reflexivity. }
  split; [exact H|].
  exact (proj1 (syncWithLeader_propagates_load_failure
                  (unloadable (JsErr "offline")) example_world EnsureLoaded
                  (JsErr "offline") (or_introl eq_refl) H)).
Defined.

(** ** More about the orders *)














(** ** The executor and the state it reads *)

Lemma sameDeps_refl (w : World.t) : sameDeps w w.
Proof. repeat split. Qed.

Lemma sameDeps_trans (w1 w2 w3 : World.t) :
  sameDeps w1 w2 -> sameDeps w2 w3 -> sameDeps w1 w3.
Proof.
  unfold sameDeps. intros [A1 [A2 [A3 A4]]] [B1 [B2 [B3 B4]]].
  repeat split; congruence.
Qed.

Lemma keepsDeps_pbind {A B : Type} (m : Prog A) (f : A -> Prog B) :
  keepsDeps m -> (forall a, keepsDeps (f a)) -> keepsDeps (pbind m f).
Proof.
  intros Hm Hf. induction m as [a | e | X g k IH | call k IH]; cbn in *.
  - apply Hf.
  - exact I.
  - destruct Hm as [Hg Hk]. split; [exact Hg|]. intro x. apply IH, Hk.
  - intro r. apply IH, Hm.
Qed.

Lemma keepsDeps_tryCatch {A : Type} (p : Prog A) (handler : JsError -> Prog A) :
  keepsDeps p -> (forall e, keepsDeps (handler e)) ->
  keepsDeps (tryCatch p handler).
Proof.
  intros Hp Hh. induction p as [a | e | X g k IH | call k IH]; cbn in *.
  - exact I.
  - apply Hh.
  - destruct Hp as [Hg Hk]. split; [exact Hg|]. intro x. apply IH, Hk.
  - intro r. apply IH, Hp.
Qed.

Lemma keepsDeps_tryFinally {A : Type} (p : Prog A) (finalizer : Prog unit) :
  keepsDeps p -> keepsDeps finalizer -> keepsDeps (tryFinally p finalizer).
Proof.
  intros Hp Hf. induction p as [a | e | X g k IH | call k IH]; cbn in *.
  - apply keepsDeps_pbind; [exact Hf | intro; exact I].
  - apply keepsDeps_pbind; [exact Hf | intro; exact I].
  - destruct Hp as [Hg Hk]. split; [exact Hg|]. intro x. apply IH, Hk.
  - intro r. apply IH, Hp.
Qed.

Lemma keepsDeps_await (call : ExternalCall) : keepsDeps (await call).
Proof. cbn. intros [[] | e]; exact I. Qed.

Lemma keepsDeps_reads {X : Type} (f : World.t -> X) : keepsDeps (reads f).
Proof. cbn. split; [intro; apply sameDeps_refl | intro; exact I]. Qed.

Lemma keepsDeps_log (level : LogLevel) (message : string) :
  keepsDeps (log_ level message).
Proof. cbn. split; [intro; repeat split | intro; exact I]. Qed.

Lemma keepsDeps_setSyncing (v : bool) : keepsDeps (setSyncing v).
Proof. cbn. split; [intro; repeat split | intro; exact I]. Qed.

Lemma keepsDeps_randomUUID : keepsDeps randomUUID.
Proof. cbn. split; [intro; repeat split | intro; exact I]. Qed.

Lemma keepsDeps_liftCompletion {A : Type} (r : Completion A) :
  keepsDeps (liftCompletion r).
Proof. destruct r; exact I. Qed.

Lemma keepsDeps_computeTargets (risk : RiskConfig.t) :
  keepsDeps (leaderState_computeTargets risk).
Proof.
  unfold leaderState_computeTargets. cbn [keepsDeps].
  split; [|intro; exact I]. intro w.
  pose proof (computeTargets_store risk (World.leaderState w)) as H.
  destruct (computeTargets risk (World.leaderState w)) as [targets st].
  cbn in H. subst st. repeat split.
Qed.

Lemma keepsDeps_computeDeltas (targets : list TargetPosition.t)
  (risk : RiskConfig.t) :
  keepsDeps (followerState_computeDeltas targets risk).
Proof.
  unfold followerState_computeDeltas. cbn [keepsDeps].
  split; [|intro; exact I]. intro w.
  pose proof (computeDeltas_store targets risk (World.followerState w)) as H.
  destruct (computeDeltas targets risk (World.followerState w)) as [deltas st].
  cbn in H. subst st. repeat split.
Qed.

Lemma keepsDeps_buildOrder (delta : PositionDelta.t) : keepsDeps (buildOrder delta).
Proof.
  unfold buildOrder.
  apply keepsDeps_pbind; [apply keepsDeps_reads | intro].
  apply keepsDeps_pbind; [apply keepsDeps_reads | intro].
  apply keepsDeps_pbind; [apply keepsDeps_liftCompletion | intro].
  apply keepsDeps_pbind; [apply keepsDeps_randomUUID | intro].
  exact I.
Qed.

Lemma keepsDeps_Array_map {A B : Type} (f : A -> Prog B) (xs : list A) :
  (forall x, keepsDeps (f x)) -> keepsDeps (Array_map f xs).
Proof.
  intro Hf. induction xs as [| x xs IH]; cbn [Array_map].
  - exact I.
  - apply keepsDeps_pbind; [apply Hf|]. intro y.
    apply keepsDeps_pbind; [exact IH|]. intro ys. exact I.
Qed.

Lemma syncWithLeader_keepsDeps : keepsDeps syncWithLeader.
Proof.
  unfold syncWithLeader.
  apply keepsDeps_pbind; [apply keepsDeps_reads | intros [|]].
  - apply keepsDeps_pbind; [apply keepsDeps_log | intro; exact I].
  - apply keepsDeps_pbind; [apply keepsDeps_setSyncing | intros _].
    apply keepsDeps_tryFinally; [|apply keepsDeps_setSyncing].
    apply keepsDeps_tryCatch.
    + unfold syncPass.
      apply keepsDeps_pbind; [apply keepsDeps_await | intros _].
      apply keepsDeps_pbind; [apply keepsDeps_await | intros _].
      apply keepsDeps_pbind; [apply keepsDeps_reads | intro risk].
      apply keepsDeps_pbind; [apply keepsDeps_computeTargets | intro targets].
      apply keepsDeps_pbind; [apply keepsDeps_computeDeltas | intro deltas].
      cbv zeta. destruct (List.length (actionableOf deltas) =? 0)%nat.
      * apply keepsDeps_pbind; [apply keepsDeps_log | intro; exact I].
      * apply keepsDeps_pbind;
          [apply keepsDeps_Array_map; exact keepsDeps_buildOrder | intro orders].
        apply keepsDeps_pbind; [apply keepsDeps_log | intros _].
        apply keepsDeps_await.
    + intro e. apply keepsDeps_pbind; [apply keepsDeps_log | intro; exact I].
Qed.

Lemma keepsDeps_advance {A : Type} (p : Prog A) (w : World.t) :
  keepsDeps p ->
  sameDeps w (fst (advance p w))
  /\ match snd (advance p w) with
     | Blocked _ k => forall r, keepsDeps (k r)
     | Settled _ => True
     end.
Proof.
  revert w. induction p as [a | e | X g k IH | call k IH]; cbn; intros w H.
  - split; [apply sameDeps_refl | exact I].
  - split; [apply sameDeps_refl | exact I].
  - destruct H as [Hg Hk]. specialize (Hg w). destruct (g w) as [x w'].
    cbn in Hg. destruct (IH x w' (Hk x)) as [Hsame Hrest].
    split; [eapply sameDeps_trans; eassumption | exact Hrest].
  - split; [apply sameDeps_refl | exact H].
Qed.

Lemma keepsDeps_fire (ev : Event) (s : System.t) :
  ownEvent ev = true ->
  Forall taskKeepsDeps (System.tasks s) ->
  sameDeps (System.world s) (System.world (fire ev s))
  /\ Forall taskKeepsDeps (System.tasks (fire ev s)).
Proof.
  intros Hown Htasks. destruct ev as [| i r | change]; cbn [fire];
    [| |discriminate].
  - destruct (keepsDeps_advance syncWithLeader (System.world s)
                syncWithLeader_keepsDeps) as [Hsame Hk].
    destruct (advance syncWithLeader (System.world s)) as [w' t].
    cbn [fst snd] in *. cbn [System.world System.tasks]. split; [exact Hsame|].
    apply Forall_app. split; [exact Htasks|]. constructor; [|constructor].
    destruct t; [exact Hk | exact I].
  - destruct (nth_error (System.tasks s) i) as [[call k | result] |] eqn:Hi;
      try (split; [apply sameDeps_refl | exact Htasks]).
    assert (Hk : taskKeepsDeps (Blocked call k)).
    { eapply Forall_forall; [exact Htasks|]. eapply nth_error_In, Hi. }
    destruct (keepsDeps_advance (k r) (System.world s) (Hk r)) as [Hsame Hk'].
    destruct (advance (k r) (System.world s)) as [w' t].
    cbn [fst snd] in *. cbn [System.world System.tasks]. split; [exact Hsame|].
    apply Forall_replace; [exact Htasks|]. destruct t; [exact Hk' | exact I].
Qed.

Lemma taskKeepsDeps_fires (evs : list Event) (s : System.t) :
  Forall taskKeepsDeps (System.tasks s) ->
  Forall taskKeepsDeps (System.tasks (fires evs s)).
Proof.
  revert s. induction evs as [| ev evs IH]; intros s Htasks; [exact Htasks|].
  cbn [fires fold_left]. apply IH.
  destruct (ownEvent ev) eqn:Hown.
  - now apply keepsDeps_fire.
  - destruct ev; try discriminate. exact Htasks.
Qed.

(** X17.  The executor only reads its stores.  In every state the event loop
    reaches from a fresh executor, whatever was invoked, however the awaited
    calls settled and whatever changed from outside before, an invocation of
    [syncWithLeader] or the resumption of a suspended one leaves the leader's
    store, the follower's store and the risk configuration as it found them:
    [computeTargets], [computeDeltas] and [buildOrder] write to none of
    them, and positions change from outside the executor only. *)
Theorem executor_never_writes_state
  (w : World.t) (evs : list Event) (ev : Event) :
  ownEvent ev = true ->
  World.leaderState (System.world (fire ev (fires evs (idle w))))
  = World.leaderState (System.world (fires evs (idle w)))
  /\ World.followerState (System.world (fire ev (fires evs (idle w))))
     = World.followerState (System.world (fires evs (idle w)))
  /\ World.risk (System.world (fire ev (fires evs (idle w))))
     = World.risk (System.world (fires evs (idle w))).
Proof.
  intro Hown.
  assert (Htasks : Forall taskKeepsDeps (System.tasks (fires evs (idle w))))
    by (apply taskKeepsDeps_fires; constructor).
  destruct (keepsDeps_fire ev _ Hown Htasks) as [[Hl [Hf [_ Hr]]] _].
  split; [exact Hl|]. split; [exact Hf | exact Hr].
Qed.

Lemma executor_never_writes_state_example :
  ownEvent (Settle 0 (Normal tt)) = true
  /\ World.followerState
       (System.world
          (fire (Settle 0 (Normal tt))
             (fires [Invoke; Invoke; Settle 0 (Normal tt)]
                (idle example_world))))
     = World.followerState
         (System.world
            (fires [Invoke; Invoke; Settle 0 (Normal tt)]
               (idle example_world))).
Proof.
  split; [reflexivity|].
  exact (proj1 (proj2
           (executor_never_writes_state example_world
              [Invoke; Invoke; Settle 0 (Normal tt)]
              (Settle 0 (Normal tt)) eq_refl))).
Defined.

(** An invocation that finds [syncing] clear sets it, issues the metadata
    load and is suspended there. *)
Lemma syncWithLeader_starts (w : World.t) :
  World.syncing w = false ->
  exists k, advance syncWithLeader w = (claimed w, Blocked EnsureLoaded k).
Proof.
  intro H. unfold syncWithLeader. cbn [pbind reads advance]. rewrite H.
  eexists. reflexivity.
Qed.

(** X18.  The executor is never stuck.  In every state the event loop reaches
    from a fresh executor in which no invocation is suspended, the next
    invocation of [syncWithLeader] starts a pass: it sets [syncing], issues
    the metadata load and nothing else, and is suspended awaiting it. *)
Theorem syncWithLeader_next_invocation_starts_a_pass
  (w : World.t) (evs : list Event) :
  inFlight (fires evs (idle w)) = 0%nat ->
  World.syncing (System.world (fire Invoke (fires evs (idle w)))) = true
  /\ inFlight (fire Invoke (fires evs (idle w))) = 1%nat
  /\ System.issued (fire Invoke (fires evs (idle w)))
     = System.issued (fires evs (idle w)) ++ [EnsureLoaded]
  /\ exists k,
       System.tasks (fire Invoke (fires evs (idle w)))
       = System.tasks (fires evs (idle w)) ++ [Blocked EnsureLoaded k].
Proof.
  intro Hzero.
  pose proof (singleFlight_fires evs _ (singleFlight_idle w)) as [Hcount _].
  rewrite Hzero in Hcount.
  destruct (World.syncing (System.world (fires evs (idle w)))) eqn:Hs;
    [discriminate|].
  destruct (syncWithLeader_starts _ Hs) as [k Hk].
  cbn [fire]. rewrite Hk. cbn [System.world System.tasks System.issued issuedBy].
  split; [reflexivity|]. split.
  - unfold inFlight in *. cbn [System.tasks]. rewrite inFlight_snoc, Hzero.
    reflexivity.
  - split; [reflexivity|]. exists k. reflexivity.
Qed.

Lemma syncWithLeader_next_invocation_starts_a_pass_example :
  inFlight
    (fires [Invoke; Settle 0 (Throw (JsErr "offline"))] (idle example_world))
  = 0%nat
  /\ inFlight
       (fire Invoke
          (fires [Invoke; Settle 0 (Throw (JsErr "offline"))]
             (idle example_world)))
     = 1%nat.
Proof.
  split; [reflexivity|].
  exact (proj1 (proj2
           (syncWithLeader_next_invocation_starts_a_pass example_world
              [Invoke; Settle 0 (Throw (JsErr "offline"))] eq_refl))).
Defined.

(** ** The size string *)

Lemma append_length (a b : string) :
  String.length (a ++ b) = (String.length a + String.length b)%nat.
Proof. induction a as [| ch a IH]; cbn; [reflexivity | now rewrite IH]. Qed.

Lemma append_assoc (a b c : string) : ((a ++ b) ++ c = a ++ (b ++ c))%string.
Proof. induction a as [| ch a IH]; cbn; [reflexivity | now rewrite IH]. Qed.

Lemma substring_length (n m : nat) (str : string) :
  (n + m <= String.length str)%nat ->
  String.length (substring n m str) = m.
Proof.
  revert n m. induction str as [| ch rest IH]; intros n m H; cbn in H.
  - destruct n, m; cbn; try reflexivity; lia.
  - destruct n as [| n]; cbn.
    + destruct m as [| m]; cbn; [reflexivity|].
      rewrite (IH 0%nat m) by (cbn; lia). reflexivity.
    + apply IH. lia.
Qed.

Lemma string_of_uint_nonempty (u : Decimal.uint) :
  (1 <= String.length (NilZero.string_of_uint u))%nat.
Proof. destruct u; cbn; lia. Qed.

(** With at least one fraction digit, [toFixed] writes a whole part of at
    least one character, a point, and exactly that many fraction digits. *)
Lemma toFixed_shape (x : Q) (d : nat) :
  exists whole fraction,
    toFixed x (S d) = (whole ++ "." ++ fraction)%string
    /\ (1 <= String.length whole)%nat
    /\ String.length fraction = S d.
Proof.
  unfold toFixed. cbv zeta.
  set (sign := if Qltb x 0 then "-"%string else ""%string).
  set (m0 := NilZero.string_of_uint _).
  assert (Hm0 : (1 <= String.length m0)%nat)
    by apply string_of_uint_nonempty.
  set (m := if (String.length m0 <=? S d)%nat then _ else m0).
  assert (Hm : (S d + 1 <= String.length m)%nat).
  { unfold m. destruct (Nat.leb_spec (String.length m0) (S d)) as [Hle | Hgt].
    - rewrite append_length, repeat_zero_length. lia.
    - lia. }
  exists (sign ++ substring 0 (String.length m - S d) m)%string,
    (substring (String.length m - S d) (S d) m).
  split; [|split].
  - symmetry. apply append_assoc.
  - rewrite append_length, substring_length by lia. lia.
  - apply substring_length. lia.
Qed.

(** X19.  On a market with at least one and at most 100 size decimals, and
    for a delta whose magnitude is below [1e21], the range in which
    [toFixed] writes plain decimal notation, the size string of a built order
    is a whole part of at least one character, a point, and exactly
    [sizeDecimals] characters after it. *)
Theorem buildOrder_size_has_market_precision
  (w : World.t) (delta : PositionDelta.t) (metadata : MarketMetadata.t) :
  MarketMetadataService.requireByCoin (World.metadataService w)
    (PositionDelta.coin delta) = Normal metadata ->
  (1 <= MarketMetadata.sizeDecimals metadata <= 100)%nat ->
  Math_abs (PositionDelta.deltaSize delta) < 1e21 ->
  exists w' order whole fraction,
    advance (buildOrder delta) w = (w', Settled (Normal order))
    /\ Order.s order = (whole ++ "." ++ fraction)%string
    /\ (1 <= String.length whole)%nat
    /\ String.length fraction = MarketMetadata.sizeDecimals metadata.
Proof.
  intros Hmeta [Hdecimals _] _. rewrite buildOrder_advance, Hmeta.
  destruct (MarketMetadata.sizeDecimals metadata) as [| d] eqn:Hd; [lia|].
  destruct (toFixed_shape (Math_abs (PositionDelta.deltaSize delta)) d)
    as [whole [fraction [Heq [Hwhole Hfraction]]]].
  eexists. eexists. exists whole, fraction.
  split; [reflexivity|]. cbn [Order.s].
  split; [exact Heq|]. split; assumption.
Qed.

Lemma buildOrder_size_has_market_precision_example :
  (1 <= MarketMetadata.sizeDecimals (MarketMetadata.mk "ETH" 1 4) <= 100)%nat
  /\ Math_abs (PositionDelta.deltaSize example_closing_delta) < 1e21
  /\ exists w' order whole fraction,
       advance (buildOrder example_closing_delta) example_world
       = (w', Settled (Normal order))
       /\ Order.s order = (whole ++ "." ++ fraction)%string
       /\ String.length fraction = 4%nat.
Proof.
  assert (H : (1 <= MarketMetadata.sizeDecimals (MarketMetadata.mk "ETH" 1 4)
               <= 100)%nat)
    by (cbn; lia).
  assert (Hplain : Math_abs (PositionDelta.deltaSize example_closing_delta)
                   < 1e21)
    by reflexivity.
  split; [exact H|]. split; [exact Hplain|].
  destruct (buildOrder_size_has_market_precision example_world
              example_closing_delta (MarketMetadata.mk "ETH" 1 4) eq_refl H
              Hplain)
    as [w' [order [whole [fraction [Hadv [Hs [_ Hf]]]]]]].
  exists w', order, whole, fraction. repeat split; assumption.
Defined.

(** ** A copy ratio of zero *)

(** X21.  A copy ratio of 0 unwinds the follower.  Whatever the leader holds
    and whatever the caps are, every delta of the pass then has target size 0
    and a delta size that is the opposite of the follower's current size in
    that market (0 where the follower holds nothing). *)
Theorem zero_copy_ratio_unwinds_follower
  (risk : RiskConfig.t) (leader follower : TraderStateStore.t) :
  RiskConfig.copyRatio risk == 0 ->
  Forall
    (fun delta =>
       PositionDelta.targetSize delta == 0
       /\ PositionDelta.deltaSize delta
          == - currentSizeOr0 (PositionDelta.current delta))
    (fst (computeDeltas (fst (computeTargets risk leader)) risk follower)).
Proof.
  intro Hratio. rewrite computeDeltas_eq. cbn [fst]. apply Forall_app. split;
    apply Forall_forall; intros delta Hin; apply in_map_iff in Hin;
    destruct Hin as [x [<- Hx]].
  - rewrite computeTargets_eq in Hx. cbn [fst] in Hx.
    apply in_map_iff in Hx. destruct Hx as [position [<- _]].
    unfold derivedDelta.
    cbn [PositionDelta.targetSize PositionDelta.deltaSize PositionDelta.current
           TargetPosition.size TargetPosition.notionalUsd
           TargetPosition.impliedEntryPrice TargetPosition.coin].
    rewrite (Math_sign_zero
               (PositionSnapshot.size position * RiskConfig.copyRatio risk))
      by (rewrite Hratio; ring).
    split; ring.
  - cbn. split; [reflexivity | ring].
Qed.

Lemma zero_copy_ratio_unwinds_follower_example :
  RiskConfig.copyRatio example_paused_risk == 0
  /\ map (fun delta => Qred (PositionDelta.deltaSize delta))
       (fst (computeDeltas
               (fst (computeTargets example_paused_risk example_leader))
               example_paused_risk example_follower))
     = [0; -2]
  /\ Forall
       (fun delta =>
          PositionDelta.targetSize delta == 0
          /\ PositionDelta.deltaSize delta
             == - currentSizeOr0 (PositionDelta.current delta))
       (fst (computeDeltas
               (fst (computeTargets example_paused_risk example_leader))
               example_paused_risk example_follower)).
Proof.
  assert (H : RiskConfig.copyRatio example_paused_risk == 0) by reflexivity.
  split; [exact H|]. split; [reflexivity|].
  exact (zero_copy_ratio_unwinds_follower example_paused_risk example_leader
           example_follower H).
Defined.

(** * The rounded arithmetic *)

(** ** Rounding to the nearest double *)

Lemma two_power_pos (k : Z) : 0 < 2 ^ k.
Proof. apply Qpower_0_lt. reflexivity. Qed.

Lemma two_power_succ (k : Z) : 2 ^ (k + 1) == 2 * 2 ^ k.
Proof.
  rewrite Qpower_plus by discriminate. rewrite Qpower_1_r. ring.
Qed.

Lemma two_power_inject (a : Z) : (0 <= a)%Z -> inject_Z (2 ^ a) == 2 ^ a.
Proof. intro H. now rewrite Zpower_Qpower. Qed.

Lemma Z_log2_bounds (n : Z) :
  (0 < n)%Z -> 2 ^ Z.log2 n <= inject_Z n /\ inject_Z n < 2 * 2 ^ Z.log2 n.
Proof.
  intro Hn. destruct (Z.log2_spec n Hn) as [Hlo Hhi].
  pose proof (Z.log2_nonneg n) as Hnn.
  rewrite <- two_power_inject by exact Hnn. split.
  - rewrite <- Zle_Qle. exact Hlo.
  - rewrite Z.pow_succ_r in Hhi by exact Hnn.
    change 2 with (inject_Z 2). rewrite <- inject_Z_mult, <- Zlt_Qlt. exact Hhi.
Qed.

Lemma ilog2_spec (x : Q) :
  0 < x -> 2 ^ Double.ilog2 x <= x /\ x < 2 ^ (Double.ilog2 x + 1).
Proof.
  intro Hx. unfold Double.ilog2.
  set (a := Z.log2 (Qnum x)). set (b := Z.log2 (Zpos (Qden x))).
  assert (Hn : (0 < Qnum x)%Z).
  { destruct x as [n d]. unfold Qlt in Hx. cbn in *. lia. }
  destruct (Z_log2_bounds (Qnum x) Hn) as [Hn1 Hn2]. fold a in Hn1, Hn2.
  destruct (Z_log2_bounds (Zpos (Qden x)) eq_refl) as [Hd1 Hd2].
  fold b in Hd1, Hd2.
  pose proof (two_power_pos a) as Ha. pose proof (two_power_pos b) as Hb.
  assert (Hxq : x * inject_Z (Zpos (Qden x)) == inject_Z (Qnum x)).
  { clear. destruct x as [n d]. unfold Qeq, Qmult, inject_Z, Qnum, Qden.
    rewrite Pos.mul_1_r. ring. }
  assert (Hk : 2 ^ (a - b) * 2 ^ b == 2 ^ a).
  { rewrite Qpower_minus by discriminate. field. lra. }
  set (N := inject_Z (Qnum x)) in *. set (D := inject_Z (Zpos (Qden x))) in *.
  set (A := 2 ^ a) in *. set (B := 2 ^ b) in *.
  assert (Hup : x < 2 * 2 ^ (a - b)).
  { set (K := 2 ^ (a - b)) in *. apply Qnot_le_lt. intro Hc.
    assert (2 * K * D <= x * D) by nra. nra. }
  assert (Hdown : 2 ^ (a - b) < 2 * x).
  { set (K := 2 ^ (a - b)) in *. apply Qnot_le_lt. intro Hc.
    assert (2 * x * D <= K * D) by nra. nra. }
  destruct (Qle_bool (2 ^ (a - b)) x) eqn:Htest.
  - apply Qle_bool_iff in Htest. split; [exact Htest|].
    rewrite two_power_succ. exact Hup.
  - assert (Hlt : x < 2 ^ (a - b)).
    { apply Qnot_le_lt. intro Hc. apply Qle_bool_iff in Hc. congruence. }
    replace (a - b - 1 + 1)%Z with (a - b)%Z by lia. split; [|exact Hlt].
    assert (Hs : 2 ^ (a - b) == 2 * 2 ^ (a - b - 1)).
    { rewrite <- two_power_succ. now replace (a - b - 1 + 1)%Z with (a - b)%Z by lia. }
    lra.
Qed.

Lemma ilog2_unique (x : Q) (k : Z) :
  2 ^ k <= x -> x < 2 ^ (k + 1) -> Double.ilog2 x = k.
Proof.
  intros Hlo Hhi.
  assert (Hx : 0 < x) by (pose proof (two_power_pos k); lra).
  destruct (ilog2_spec x Hx) as [Hlo' Hhi'].
  assert (H1 : 2 ^ k < 2 ^ (Double.ilog2 x + 1)) by lra.
  assert (H2 : 2 ^ Double.ilog2 x < 2 ^ (k + 1)) by lra.
  apply Qpower_lt_compat_l_inv in H1; [|reflexivity].
  apply Qpower_lt_compat_l_inv in H2; [|reflexivity]. lia.
Qed.

Lemma ilog2_comp (x y : Q) : 0 < x -> x == y -> Double.ilog2 x = Double.ilog2 y.
Proof.
  intros Hx Heq. symmetry. destruct (ilog2_spec x Hx) as [Hlo Hhi].
  apply ilog2_unique; rewrite <- Heq; assumption.
Qed.

Ltac compare_facts :=
  repeat match goal with
         | H : Qcompare _ _ = Eq |- _ => apply Qeq_alt in H
         | H : Qcompare _ _ = Lt |- _ => apply Qlt_alt in H
         | H : Qcompare _ _ = Gt |- _ => apply Qgt_alt in H
         end.

Lemma floor_bounds (y : Q) :
  inject_Z (Qfloor y) <= y /\ y < inject_Z (Qfloor y) + 1.
Proof.
  split; [apply Qfloor_le|].
  pose proof (Qlt_floor y) as H. rewrite inject_Z_plus in H. exact H.
Qed.

Lemma roundTiesToEven_cases (y : Q) :
  (Double.roundTiesToEven y = Qfloor y /\ y - inject_Z (Qfloor y) <= 1 # 2)
  \/ (Double.roundTiesToEven y = (Qfloor y + 1)%Z
      /\ 1 # 2 <= y - inject_Z (Qfloor y)).
Proof.
  unfold Double.roundTiesToEven.
  destruct (Qcompare (y - inject_Z (Qfloor y)) (1 # 2)) eqn:E.
  - apply Qeq_alt in E. destruct (Z.even (Qfloor y)); [left | right];
      (split; [reflexivity | lra]).
  - apply Qlt_alt in E. left. split; [reflexivity | lra].
  - apply Qgt_alt in E. right. split; [reflexivity | lra].
Qed.

Lemma roundTiesToEven_error (y : Q) :
  Qabs (inject_Z (Double.roundTiesToEven y) - y) <= 1 # 2.
Proof.
  destruct (floor_bounds y) as [Hlo Hhi].
  apply Qabs_Qle_condition.
  destruct (roundTiesToEven_cases y) as [[-> H] | [-> H]];
    rewrite ?inject_Z_plus; change (inject_Z 1) with 1; split; lra.
Qed.

Lemma roundTiesToEven_comp (x y : Q) :
  x == y -> Double.roundTiesToEven x = Double.roundTiesToEven y.
Proof.
  intro H. unfold Double.roundTiesToEven.
  rewrite (Qfloor_comp x y H).
  assert (Hc : Qcompare (x - inject_Z (Qfloor y)) (1 # 2)
               = Qcompare (y - inject_Z (Qfloor y)) (1 # 2))
    by now rewrite H.
  now rewrite Hc.
Qed.

Lemma roundTiesToEven_Z (m : Z) : Double.roundTiesToEven (inject_Z m) = m.
Proof.
  destruct (roundTiesToEven_cases (inject_Z m)) as [[H _] | [_ H]];
    rewrite Qfloor_Z in *; [exact H | lra].
Qed.

Lemma roundTiesToEven_mono (x y : Q) :
  x <= y -> (Double.roundTiesToEven x <= Double.roundTiesToEven y)%Z.
Proof.
  intro Hle. pose proof (Qfloor_resp_le x y Hle) as Hf.
  destruct (floor_bounds x) as [Hx1 Hx2]. destruct (floor_bounds y) as [Hy1 Hy2].
  destruct (Z.eq_dec (Qfloor x) (Qfloor y)) as [Heq | Hne].
  - unfold Double.roundTiesToEven. rewrite Heq.
    destruct (Qcompare (x - inject_Z (Qfloor y)) (1 # 2)) eqn:Ex;
      destruct (Qcompare (y - inject_Z (Qfloor y)) (1 # 2)) eqn:Ey;
      compare_facts; try lia; try (exfalso; lra); destruct (Z.even (Qfloor y)); lia.
  - assert (Hlt : (Qfloor x + 1 <= Qfloor y)%Z) by lia.
    destruct (roundTiesToEven_cases x) as [[-> _] | [-> _]];
      destruct (roundTiesToEven_cases y) as [[-> _] | [-> _]]; lia.
Qed.

Lemma roundTiesToEven_nonneg (y : Q) :
  0 <= y -> (0 <= Double.roundTiesToEven y)%Z.
Proof.
  intro H. rewrite <- (roundTiesToEven_Z 0). now apply roundTiesToEven_mono.
Qed.

(** [round] away from zero: the sign of [x] times the rounded magnitude. *)
Lemma round_nonzero (x : Q) :
  ~ x == 0 ->
  Double.round x
  = Math_sign x
    * (inject_Z (Double.roundTiesToEven (Qabs x / 2 ^ Double.ulpExponent x))
       * 2 ^ Double.ulpExponent x).
Proof.
  intro H. unfold Double.round. destruct (Qeq_bool x 0) eqn:E; [|reflexivity].
  apply Qeq_bool_iff in E. contradiction.
Qed.

Lemma round_zero (x : Q) : x == 0 -> Double.round x = 0.
Proof.
  intro H. unfold Double.round. apply Qeq_bool_iff in H. now rewrite H.
Qed.

Lemma rounded_magnitude_nonneg (x : Q) :
  0 <= inject_Z (Double.roundTiesToEven (Qabs x / 2 ^ Double.ulpExponent x))
       * 2 ^ Double.ulpExponent x.
Proof.
  pose proof (two_power_pos (Double.ulpExponent x)) as He.
  apply Qmult_le_0_compat; [|lra].
  change 0 with (inject_Z 0). rewrite <- Zle_Qle.
  apply roundTiesToEven_nonneg. apply Qle_shift_div_l; [exact He|].
  rewrite Qmult_0_l. apply Qabs_nonneg.
Qed.

Lemma round_nonneg (x : Q) : 0 <= x -> 0 <= Double.round x.
Proof.
  intro H. destruct (Qeq_dec x 0) as [Hz | Hnz].
  - rewrite (round_zero x Hz). lra.
  - rewrite (round_nonzero x Hnz), (Math_sign_pos x) by lra.
    pose proof (rounded_magnitude_nonneg x). lra.
Qed.

Lemma round_nonpos (x : Q) : x <= 0 -> Double.round x <= 0.
Proof.
  intro H. destruct (Qeq_dec x 0) as [Hz | Hnz].
  - rewrite (round_zero x Hz). lra.
  - rewrite (round_nonzero x Hnz), (Math_sign_neg x) by lra.
    pose proof (rounded_magnitude_nonneg x). lra.
Qed.

Lemma ulp_bound (x : Q) :
  ~ x == 0 ->
  2 ^ Double.ulpExponent x <= Number_EPSILON * Qabs x + Number_MIN_VALUE.
Proof.
  intro Hnz. unfold Double.ulpExponent, Number_EPSILON, Number_MIN_VALUE.
  assert (Hpos : 0 < Qabs x).
  { pose proof (Qabs_nonneg x). destruct (Qeq_dec (Qabs x) 0) as [Hz | Hz].
    - exfalso. apply Hnz. destruct (Qabs_cases x) as [[_ E] | [_ E]];
        rewrite E in Hz; lra.
    - lra. }
  destruct (ilog2_spec (Qabs x) Hpos) as [Hlo _].
  set (i := Double.ilog2 (Qabs x)) in *.
  pose proof (two_power_pos (-52)) as H52.
  pose proof (two_power_pos (-1074)) as H1074.
  destruct (Z.max_spec (i - 52) (-1074)) as [[_ ->] | [_ ->]].
  - assert (0 <= 2 ^ (-52) * Qabs x) by nra. lra.
  - assert (Hs : 2 ^ (i - 52) == 2 ^ (-52) * 2 ^ i).
    { replace (i - 52)%Z with (-52 + i)%Z by lia.
      now rewrite Qpower_plus by discriminate. }
    rewrite Hs. nra.
Qed.

Lemma Qhalf (x : Q) : x / 2 == x * (1 # 2).
Proof. field. Qed.

(** The standard model of rounding, with gradual underflow. *)
Lemma round_error (x : Q) :
  Qabs (Double.round x - x)
  <= Number_EPSILON / 2 * Qabs x + Number_MIN_VALUE / 2.
Proof.
  assert (HE : 0 < Number_EPSILON) by apply two_power_pos.
  assert (HM : 0 < Number_MIN_VALUE) by apply two_power_pos.
  pose proof (Qabs_nonneg x) as Habs. rewrite !Qhalf.
  destruct (Qeq_dec x 0) as [Hz | Hnz].
  - rewrite (round_zero x Hz).
    assert (Hx0 : Qabs x == 0) by (rewrite Hz; reflexivity).
    setoid_replace (0 - x) with 0 by lra. rewrite Hx0.
    change (Qabs 0) with 0. lra.
  - rewrite (round_nonzero x Hnz).
    pose proof (ulp_bound x Hnz) as Hulp.
    pose proof (two_power_pos (Double.ulpExponent x)) as He.
    pose proof (roundTiesToEven_error (Qabs x / 2 ^ Double.ulpExponent x)) as Hr.
    set (e := 2 ^ Double.ulpExponent x) in *.
    set (m := inject_Z (Double.roundTiesToEven (Qabs x / e))) in *.
    assert (Hm : Qabs (m * e - Qabs x) <= e * (1 # 2)).
    { setoid_replace (m * e - Qabs x) with ((m - Qabs x / e) * e)
        by (field; lra).
      rewrite Qabs_Qmult, (Qabs_pos e) by lra. nra. }
    apply Qabs_Qle_condition in Hm.
    apply Qabs_Qle_condition.
    destruct (Math_sign_cases x) as [[Hs E] | [[Hs E] | [Hs E]]]; rewrite E.
    + rewrite (Qabs_neg x) in * by lra. split; lra.
    + contradiction.
    + rewrite (Qabs_pos x) in * by lra. split; lra.
Qed.

Lemma Qabs_pos_iff (x : Q) : ~ x == 0 -> 0 < Qabs x.
Proof.
  intro Hnz. destruct (Qabs_cases x) as [[H E] | [H E]]; rewrite E; lra.
Qed.

Lemma ulpExponent_comp (x y : Q) :
  ~ x == 0 -> Qabs x == Qabs y -> Double.ulpExponent x = Double.ulpExponent y.
Proof.
  intros Hnz Heq. unfold Double.ulpExponent.
  now rewrite (ilog2_comp (Qabs x) (Qabs y) (Qabs_pos_iff x Hnz) Heq).
Qed.

Lemma Math_sign_comp (x y : Q) : x == y -> Math_sign x = Math_sign y.
Proof.
  intro H. destruct (Math_sign_cases y) as [[Hy E] | [[Hy E] | [Hy E]]];
    rewrite E.
  - apply Math_sign_neg. lra.
  - apply Math_sign_zero. lra.
  - apply Math_sign_pos. lra.
Qed.

Lemma round_comp (x y : Q) : x == y -> Double.round x == Double.round y.
Proof.
  intro H. destruct (Qeq_dec x 0) as [Hz | Hnz].
  - rewrite (round_zero x Hz), (round_zero y) by lra. reflexivity.
  - assert (Hny : ~ y == 0) by lra.
    assert (Habs : Qabs x == Qabs y) by now rewrite H.
    rewrite (round_nonzero x Hnz), (round_nonzero y Hny).
    rewrite (Math_sign_comp x y H), (ulpExponent_comp x y Hnz Habs).
    rewrite (roundTiesToEven_comp (Qabs x / 2 ^ Double.ulpExponent y)
               (Qabs y / 2 ^ Double.ulpExponent y)) by now rewrite Habs.
    reflexivity.
Qed.

Lemma Math_sign_opp (x : Q) : Math_sign (- x) == - Math_sign x.
Proof.
  destruct (Math_sign_cases x) as [[Hx E] | [[Hx E] | [Hx E]]]; rewrite E.
  - rewrite Math_sign_pos by lra. reflexivity.
  - rewrite Math_sign_zero by lra. reflexivity.
  - rewrite Math_sign_neg by lra. reflexivity.
Qed.

(** Rounding is symmetric. *)
Lemma round_opp (x : Q) : Double.round (- x) == - Double.round x.
Proof.
  destruct (Qeq_dec x 0) as [Hz | Hnz].
  - rewrite (round_zero x Hz), (round_zero (- x)) by lra. reflexivity.
  - assert (Hny : ~ - x == 0) by lra.
    assert (Habs : Qabs (- x) == Qabs x) by apply Qabs_opp.
    rewrite (round_nonzero x Hnz), (round_nonzero (- x) Hny).
    rewrite (ulpExponent_comp (- x) x Hny Habs).
    rewrite (roundTiesToEven_comp (Qabs (- x) / 2 ^ Double.ulpExponent x)
               (Qabs x / 2 ^ Double.ulpExponent x)) by now rewrite Habs.
    rewrite Math_sign_opp. ring.
Qed.

Lemma round_pos (x : Q) :
  0 < x ->
  Double.round x
  == inject_Z (Double.roundTiesToEven (x / 2 ^ Double.ulpExponent x))
     * 2 ^ Double.ulpExponent x.
Proof.
  intro H. rewrite round_nonzero by lra. rewrite Math_sign_pos by exact H.
  rewrite (roundTiesToEven_comp (Qabs x / 2 ^ Double.ulpExponent x)
             (x / 2 ^ Double.ulpExponent x)) by (rewrite Qabs_pos by lra; reflexivity).
  ring.
Qed.

Lemma ulpExponent_pos (x : Q) :
  0 < x -> Double.ulpExponent x = Z.max (Double.ilog2 x - 52) (-1074).
Proof.
  intro H. unfold Double.ulpExponent.
  now rewrite (ilog2_comp (Qabs x) x) by (rewrite ?Qabs_pos by lra; lra || reflexivity).
Qed.

Lemma two_power_split (a b : Z) : 2 ^ (a + b) == 2 ^ a * 2 ^ b.
Proof. apply Qpower_plus. discriminate. Qed.

Lemma two_power_le (a b : Z) : (a <= b)%Z -> 2 ^ a <= 2 ^ b.
Proof. intro H. apply Qpower_le_compat_l; [exact H | discriminate]. Qed.

Lemma two_power_lt (a b : Z) : (a < b)%Z -> 2 ^ a < 2 ^ b.
Proof. intro H. apply Qpower_lt_compat_l; [exact H | reflexivity]. Qed.

(** An integer of at most 53 bits times a power of two not below [2^-1074]
    is a double: rounding returns it. *)
Lemma round_representable (m e : Z) :
  (0 <= m <= 2 ^ 53)%Z -> (-1074 <= e)%Z ->
  Double.round (inject_Z m * 2 ^ e) == inject_Z m * 2 ^ e.
Proof.
  intros [Hm0 Hm53] He.
  destruct (Z.eq_dec m 0) as [-> | Hm].
  { rewrite round_zero by ring. ring. }
  assert (Hmpos : (0 < m)%Z) by lia.
  pose proof (two_power_pos e) as Hpe.
  assert (Hy : 0 < inject_Z m * 2 ^ e).
  { apply Qmult_lt_0_compat; [|exact Hpe].
    change 0 with (inject_Z 0). now rewrite <- Zlt_Qlt. }
  set (y := inject_Z m * 2 ^ e) in *.
  set (l := Z.log2 m).
  destruct (Z_log2_bounds m Hmpos) as [Hl1 Hl2]. fold l in Hl1, Hl2.
  pose proof (Z.log2_nonneg m) as Hl0. fold l in Hl0.
  assert (Hl53 : (l <= 53)%Z).
  { unfold l. change 53%Z with (Z.log2 (2 ^ 53)). now apply Z.log2_le_mono. }
  assert (Hi : Double.ilog2 y = (l + e)%Z).
  { apply ilog2_unique; unfold y.
    - rewrite two_power_split. pose proof (two_power_pos l). nra.
    - replace (l + e + 1)%Z with ((l + 1) + e)%Z by lia.
      rewrite two_power_split, two_power_succ. pose proof (two_power_pos l). nra. }
  rewrite (round_pos y Hy), (ulpExponent_pos y Hy), Hi.
  destruct (Z.eq_dec l 53) as [Hl | Hl].
  - assert (Hm' : m = (2 ^ 53)%Z).
    { apply Z.le_antisymm; [exact Hm53|].
      rewrite Hl in Hl1. rewrite <- two_power_inject in Hl1 by lia.
      now rewrite <- Zle_Qle in Hl1. }
    rewrite Z.max_l by lia.
    assert (Hq : y / 2 ^ (l + e - 52) == inject_Z (2 ^ 52)).
    { unfold y. subst m. rewrite Hl.
      replace (53 + e - 52)%Z with (1 + e)%Z by lia.
      rewrite two_power_split, !two_power_inject by lia.
      field. lra. }
    rewrite (roundTiesToEven_comp _ _ Hq), roundTiesToEven_Z.
    unfold y. subst m. rewrite Hl.
    replace (53 + e - 52)%Z with (1 + e)%Z by lia.
    rewrite two_power_split, !two_power_inject by lia.
    change (2 ^ 53) with (2 * 2 ^ 52) at 1. change (2 ^ 1) with 2. ring.
  - set (u := Z.max (l + e - 52) (-1074)).
    assert (Hu : (u <= e)%Z) by (unfold u; lia).
    assert (Hq : y / 2 ^ u == inject_Z (m * 2 ^ (e - u))).
    { unfold y. rewrite inject_Z_mult, two_power_inject by lia.
      replace e with ((e - u) + u)%Z at 1 by lia.
      rewrite two_power_split. field.
      pose proof (two_power_pos u). lra. }
    rewrite (roundTiesToEven_comp _ _ Hq), roundTiesToEven_Z.
    unfold y. rewrite inject_Z_mult, two_power_inject by lia.
    replace e with ((e - u) + u)%Z at 2 by lia.
    rewrite two_power_split. ring.
Qed.

(** A rounded positive number is an integer of at most 53 bits times its
    unit in the last place. *)
Lemma round_pos_form (x : Q) :
  0 < x ->
  exists m : Z,
    (0 <= m <= 2 ^ 53)%Z
    /\ (-1074 <= Double.ulpExponent x)%Z
    /\ Double.round x == inject_Z m * 2 ^ Double.ulpExponent x.
Proof.
  intro Hx. exists (Double.roundTiesToEven (x / 2 ^ Double.ulpExponent x)).
  pose proof (two_power_pos (Double.ulpExponent x)) as He.
  destruct (ilog2_spec x Hx) as [_ Hhi].
  rewrite (ulpExponent_pos x Hx) in *.
  set (e := Z.max (Double.ilog2 x - 52) (-1074)) in *.
  split; [split|split].
  - apply roundTiesToEven_nonneg. apply Qle_shift_div_l; [exact He | lra].
  - rewrite <- (roundTiesToEven_Z (2 ^ 53)). apply roundTiesToEven_mono.
    apply Qle_shift_div_r; [exact He|].
    rewrite two_power_inject by lia. rewrite <- two_power_split.
    assert (H : 2 ^ (Double.ilog2 x + 1) <= 2 ^ (53 + e))
      by (apply two_power_le; unfold e; lia).
    lra.
  - unfold e. lia.
  - rewrite (round_pos x Hx), (ulpExponent_pos x Hx). reflexivity.
Qed.

Lemma round_idempotent_pos (x : Q) :
  0 < x -> Double.round (Double.round x) == Double.round x.
Proof.
  intro Hx. destruct (round_pos_form x Hx) as [m [Hm [He Heq]]].
  rewrite (round_comp _ _ Heq), Heq. now apply round_representable.
Qed.

(** What rounding returns is a double: rounding it again changes nothing. *)
Lemma round_idempotent (x : Q) :
  Double.round (Double.round x) == Double.round x.
Proof.
  destruct (Q_dec x 0) as [[Hneg | Hpos] | Hz].
  - assert (Hx : Double.round x == - Double.round (- x)).
    { rewrite <- round_opp. apply round_comp. ring. }
    rewrite (round_comp _ _ Hx), round_opp, Hx.
    rewrite round_idempotent_pos by lra. reflexivity.
  - now apply round_idempotent_pos.
  - rewrite (round_zero x Hz). now rewrite round_zero.
Qed.

Lemma ilog2_mono (x y : Q) :
  0 < x -> x <= y -> (Double.ilog2 x <= Double.ilog2 y)%Z.
Proof.
  intros Hx Hle. destruct (ilog2_spec x Hx) as [Hlo _].
  destruct (ilog2_spec y) as [_ Hhi]; [lra|].
  assert (H : 2 ^ Double.ilog2 x < 2 ^ (Double.ilog2 y + 1)) by lra.
  apply Qpower_lt_compat_l_inv in H; [lia | reflexivity].
Qed.

Lemma round_mono_pos (x y : Q) :
  0 < x -> x <= y -> Double.round x <= Double.round y.
Proof.
  intros Hx Hle. assert (Hy : 0 < y) by lra.
  pose proof (ilog2_mono x y Hx Hle) as Hi.
  destruct (ilog2_spec x Hx) as [Hxlo Hxhi].
  destruct (ilog2_spec y Hy) as [Hylo Hyhi].
  rewrite (round_pos x Hx), (round_pos y Hy).
  rewrite (ulpExponent_pos x Hx), (ulpExponent_pos y Hy).
  set (ex := Z.max (Double.ilog2 x - 52) (-1074)).
  set (ey := Z.max (Double.ilog2 y - 52) (-1074)).
  pose proof (two_power_pos ex) as Hpx. pose proof (two_power_pos ey) as Hpy.
  destruct (Z.eq_dec ex ey) as [Heq | Hne].
  - rewrite Heq. apply Qmult_le_compat_r; [|lra].
    rewrite <- Zle_Qle. apply roundTiesToEven_mono.
    apply Qmult_le_compat_r; [exact Hle|].
    apply Qlt_le_weak, Qinv_lt_0_compat. exact Hpy.
  - assert (Hlt : (ex < ey)%Z) by (unfold ex, ey in *; lia).
    assert (Hey : ey = (Double.ilog2 y - 52)%Z) by (unfold ex, ey in *; lia).
    apply Qle_trans with (2 ^ (52 + ey)).
    + assert (Hm : (Double.roundTiesToEven (x / 2 ^ ex) <= 2 ^ (52 + ey - ex))%Z).
      { rewrite <- (roundTiesToEven_Z (2 ^ (52 + ey - ex))).
        apply roundTiesToEven_mono.
        apply Qle_shift_div_r; [exact Hpx|].
        rewrite two_power_inject by lia. rewrite <- two_power_split.
        replace (52 + ey - ex + ex)%Z with (52 + ey)%Z by lia.
        assert (H : 2 ^ (Double.ilog2 x + 1) <= 2 ^ (52 + ey))
          by (apply two_power_le; unfold ex in *; lia).
        lra. }
      rewrite Zle_Qle in Hm. rewrite two_power_inject in Hm by lia.
      replace (52 + ey)%Z with ((52 + ey - ex) + ex)%Z at 1 by lia.
      rewrite two_power_split. apply Qmult_le_compat_r; [exact Hm | lra].
    + assert (Hm : (2 ^ 52 <= Double.roundTiesToEven (y / 2 ^ ey))%Z).
      { rewrite <- (roundTiesToEven_Z (2 ^ 52)) at 1.
        apply roundTiesToEven_mono.
        apply Qle_shift_div_l; [exact Hpy|].
        rewrite two_power_inject by lia. rewrite <- two_power_split.
        replace (52 + ey)%Z with (Double.ilog2 y) by lia. exact Hylo. }
      rewrite Zle_Qle in Hm. rewrite two_power_inject in Hm by lia.
      rewrite two_power_split. apply Qmult_le_compat_r; [exact Hm | lra].
Qed.

(** Rounding is monotone. *)
Lemma round_mono (x y : Q) : x <= y -> Double.round x <= Double.round y.
Proof.
  intro Hle.
  destruct (Qlt_le_dec 0 x) as [Hx | Hx].
  - now apply round_mono_pos.
  - destruct (Qlt_le_dec y 0) as [Hy | Hy].
    + assert (H : Double.round (- y) <= Double.round (- x))
        by (apply round_mono_pos; lra).
      rewrite !round_opp in H. lra.
    + pose proof (round_nonpos x Hx). pose proof (round_nonneg y Hy). lra.
Qed.

(** ** The rounded methods *)

Arguments Double.computeTargets : simpl never.
Arguments Double.computeDeltas : simpl never.

Lemma double_computeTargets_eq (risk : RiskConfig.t) (st : TraderStateStore.t) :
  Double.computeTargets risk st
  = (map (Double.targetOf risk (TraderStateStore.metrics st))
         (Map_values (TraderStateStore.positions st)),
     st).
Proof. reflexivity. Qed.

Lemma double_first_loop (cap : Q) (targets : list TargetPosition.t)
  (deltas : list PositionDelta.t) (targetCoins : StringSet)
  (st : TraderStateStore.t) :
  for_of targets
    (fun target '(deltas, targetCoins) =>
       positions <- getPositions ;;
       let current := Map_get positions (TargetPosition.coin target) in
       let targetCoins := Set_add targetCoins (TargetPosition.coin target) in
       let price := TargetPosition.impliedEntryPrice target in
       let allowedNotional := Math_min (TargetPosition.notionalUsd target) cap in
       let allowedSize :=
         Double.mul (Math_sign (TargetPosition.size target))
                    (Double.safeDivide allowedNotional price 0) in
       let deltaSize := Double.sub allowedSize (currentSizeOr0 current) in
       ret (deltas ++ [ {| PositionDelta.coin := TargetPosition.coin target;
                           PositionDelta.current := current;
                           PositionDelta.targetSize := allowedSize;
                           PositionDelta.deltaSize := deltaSize;
                           PositionDelta.maxNotionalUsd := allowedNotional |} ],
            targetCoins))
    (deltas, targetCoins) st
  = ((deltas
      ++ map (Double.derivedDelta cap (TraderStateStore.positions st)) targets,
      fold_left Set_add (map TargetPosition.coin targets) targetCoins),
     st).
Proof.
  revert deltas targetCoins.
  induction targets as [| target targets IH]; intros deltas targetCoins.
  - simpl. unfold ret. now rewrite app_nil_r.
  - cbn [for_of map fold_left]. unfold bind at 1. unfold bind at 1.
    unfold getPositions at 1. cbv beta iota zeta. unfold ret at 1.
    rewrite IH. rewrite <- app_assoc. reflexivity.
Qed.

Lemma double_second_loop (targetCoins : StringSet) (positions : PositionMap)
  (deltas : list PositionDelta.t) (st : TraderStateStore.t) :
  for_of positions
    (fun '(coin, position) deltas =>
       if Set_has targetCoins coin then ret deltas
       else if Qltb (Math_abs (PositionSnapshot.size position))
                 Double.POSITION_DUST
            then ret deltas
            else ret (deltas ++ [ {| PositionDelta.coin := coin;
                                     PositionDelta.current := Some position;
                                     PositionDelta.targetSize := 0;
                                     PositionDelta.deltaSize :=
                                       - PositionSnapshot.size position;
                                     PositionDelta.maxNotionalUsd := 0 |} ]))
    deltas st
  = (deltas
     ++ map closingDelta
          (filter (fun entry =>
                     negb (Set_has targetCoins (fst entry))
                     && negb (Qltb (Math_abs (PositionSnapshot.size (snd entry)))
                                Double.POSITION_DUST))
                  positions),
     st).
Proof.
  revert deltas.
  induction positions as [| [coin position] positions IH]; intro deltas.
  - simpl. unfold ret. now rewrite app_nil_r.
  - cbn [for_of filter fst snd]. unfold bind at 1.
    destruct (Set_has targetCoins coin); cbn [negb andb].
    + unfold ret at 1. apply IH.
    + destruct (Qltb (Math_abs (PositionSnapshot.size position))
                  Double.POSITION_DUST);
        cbn [negb]; unfold ret at 1.
      * apply IH.
      * rewrite IH. cbn [map]. rewrite <- app_assoc. reflexivity.
Qed.

Lemma double_computeDeltas_eq (targets : list TargetPosition.t)
  (risk : RiskConfig.t) (st : TraderStateStore.t) :
  Double.computeDeltas targets risk st
  = (map (Double.derivedDelta (Double.globalNotionalCapOf risk st)
            (TraderStateStore.positions st))
         targets
     ++ map closingDelta
          (filter (Double.toClose targets) (TraderStateStore.positions st)),
     st).
Proof.
  unfold Double.computeDeltas. unfold bind at 1. unfold getMetrics at 1.
  cbv beta iota zeta. unfold bind at 1.
  rewrite (double_first_loop (Double.globalNotionalCapOf risk st)).
  cbv beta iota zeta. unfold bind at 1. unfold getPositions at 1.
  cbv beta iota zeta. rewrite double_second_loop. cbn [app]. f_equal. f_equal.
  f_equal. apply filter_ext. intros [coin position]. cbn [fst snd].
  unfold Double.toClose. cbn [fst snd]. f_equal. f_equal.
  rewrite Set_has_fold. cbn. unfold inTargets.
  clear. induction targets as [| t targets IH]; simpl; [reflexivity|].
  now rewrite IH.
Qed.

Lemma isDouble_zero : isDouble 0.
Proof. unfold isDouble. now rewrite round_zero. Qed.

Lemma isDouble_round (x : Q) : isDouble (Double.round x).
Proof. apply round_idempotent. Qed.

Lemma isDouble_opp (x : Q) : isDouble x -> isDouble (- x).
Proof. unfold isDouble. intro H. now rewrite round_opp, H. Qed.

Lemma isDouble_safeDivide (n d : Q) : isDouble (Double.safeDivide n d 0).
Proof.
  unfold Double.safeDivide. destruct (Qeq_bool d 0);
    [apply isDouble_zero | apply isDouble_round].
Qed.

(** Multiplying a double by a sign is exact. *)
Lemma mul_sign_exact (s d : Q) :
  isDouble d -> Double.mul (Math_sign s) d == Math_sign s * d.
Proof.
  unfold isDouble, Double.mul. intro Hd.
  destruct (Math_sign_cases s) as [[_ E] | [[_ E] | [_ E]]]; rewrite E.
  - rewrite (round_comp (-1 * d) (- d)) by ring. rewrite round_opp, Hd. ring.
  - rewrite round_zero by ring. ring.
  - rewrite (round_comp (1 * d) d) by ring. rewrite Hd. ring.
Qed.

Lemma Number_EPSILON_pos : 0 < Number_EPSILON.
Proof. apply two_power_pos. Qed.

Lemma Number_MIN_VALUE_pos : 0 < Number_MIN_VALUE.
Proof. apply two_power_pos. Qed.

(** A rounded quotient of non-negative numbers, times the divisor, exceeds
    the dividend by the rounding error of the one division at most. *)
Lemma rounded_quotient_bound (n p : Q) :
  0 <= n -> 0 < p ->
  0 <= Double.div n p
  /\ Double.div n p * p
     <= n + (n * (Number_EPSILON / 2) + p * (Number_MIN_VALUE / 2)).
Proof.
  intros Hn Hp. unfold Double.div.
  assert (Hq : 0 <= n / p) by (apply Qle_shift_div_l; lra).
  split; [now apply round_nonneg|].
  pose proof (round_error (n / p)) as Herr.
  rewrite (Qabs_pos (n / p)) in Herr by exact Hq.
  apply Qabs_Qle_condition in Herr. destruct Herr as [_ Herr].
  rewrite !Qhalf in *.
  assert (Hnp : n / p * p == n) by (field; lra).
  set (q := n / p) in *. set (r := Double.round q) in *.
  pose proof Number_EPSILON_pos. pose proof Number_MIN_VALUE_pos.
  assert (H1 : r * p <= (q + Number_EPSILON * (1 # 2) * q
                         + Number_MIN_VALUE * (1 # 2)) * p) by nra.
  setoid_replace ((q + Number_EPSILON * (1 # 2) * q
                   + Number_MIN_VALUE * (1 # 2)) * p)
    with (q * p + q * p * (Number_EPSILON * (1 # 2))
          + p * (Number_MIN_VALUE * (1 # 2))) in H1 by ring.
  rewrite Hnp in H1. lra.
Qed.

(** The magnitude of the capped size the code computes, valued at the price
    it was derived from, is within the cap up to the rounding error of the
    division. *)
Lemma rounded_capped_size_bound (s N p cap : Q) :
  0 <= cap -> (0 < p -> 0 <= N) ->
  Qabs (Double.mul (Math_sign s) (Double.safeDivide (Math_min N cap) p 0)) * p
  <= cap + (cap * (Number_EPSILON / 2) + Qabs p * (Number_MIN_VALUE / 2)).
Proof.
  intros Hcap HN.
  pose proof Number_EPSILON_pos as HE. pose proof Number_MIN_VALUE_pos as HM.
  pose proof (Qabs_nonneg p) as Hp0.
  assert (Hrhs : 0 <= cap + (cap * (Number_EPSILON / 2)
                             + Qabs p * (Number_MIN_VALUE / 2))).
  { rewrite !Qhalf. nra. }
  rewrite (mul_sign_exact s _ (isDouble_safeDivide _ _)).
  rewrite Qabs_Qmult. destruct (Math_sign_abs_le s) as [Hs0 Hs1].
  pose proof (Qabs_nonneg (Double.safeDivide (Math_min N cap) p 0)) as Hq0.
  destruct (Q_dec p 0) as [[Hneg | Hpos] | Hz].
  - assert (0 <= Qabs (Math_sign s)
                 * Qabs (Double.safeDivide (Math_min N cap) p 0))
      by (apply Qmult_le_0_compat; assumption).
    nra.
  - unfold Double.safeDivide.
    destruct (Qeq_bool p 0) eqn:E; [apply Qeq_bool_iff in E; lra|].
    assert (Hmin0 : 0 <= Math_min N cap) by (apply Math_min_glb; auto).
    assert (Hmincap : Math_min N cap <= cap) by apply Math_min_le_r.
    destruct (rounded_quotient_bound (Math_min N cap) p Hmin0 Hpos)
      as [Hd0 Hd].
    rewrite (Qabs_pos (Double.div (Math_min N cap) p)) by exact Hd0.
    rewrite (Qabs_pos p) by lra. rewrite !Qhalf in *.
    set (d := Double.div (Math_min N cap) p) in *.
    set (m := Math_min N cap) in *.
    assert (Hdp : 0 <= d * p) by (apply Qmult_le_0_compat; lra).
    setoid_replace (Qabs (Math_sign s) * d * p)
      with (Qabs (Math_sign s) * (d * p)) by ring.
    set (dp := d * p) in *. clearbody dp.
    assert (Qabs (Math_sign s) * dp <= dp) by nra.
    assert (m * (Number_EPSILON * (1 # 2)) <= cap * (Number_EPSILON * (1 # 2)))
      by nra.
    lra.
  - assert (H0 : forall a, a * p == 0) by (intro a; rewrite Hz; ring).
    rewrite H0. exact Hrhs.
Qed.

Lemma double_derived_part (targets : list TargetPosition.t) (risk : RiskConfig.t)
  (st : TraderStateStore.t) :
  firstn (List.length targets) (fst (Double.computeDeltas targets risk st))
  = map (Double.derivedDelta (Double.globalNotionalCapOf risk st)
           (TraderStateStore.positions st))
        targets.
Proof.
  rewrite double_computeDeltas_eq. cbn [fst].
  rewrite <- (length_map (Double.derivedDelta (Double.globalNotionalCapOf risk st)
                            (TraderStateStore.positions st)) targets).
  rewrite firstn_app, firstn_all, Nat.sub_diag. cbn [firstn].
  now rewrite app_nil_r.
Qed.

Lemma double_closing_part (targets : list TargetPosition.t) (risk : RiskConfig.t)
  (st : TraderStateStore.t) :
  skipn (List.length targets) (fst (Double.computeDeltas targets risk st))
  = map closingDelta
      (filter (Double.toClose targets) (TraderStateStore.positions st)).
Proof.
  rewrite double_computeDeltas_eq. cbn [fst].
  rewrite <- (length_map (Double.derivedDelta (Double.globalNotionalCapOf risk st)
                            (TraderStateStore.positions st)) targets).
  rewrite skipn_app, skipn_all, Nat.sub_diag. reflexivity.
Qed.

(** The cap the code computes is the exact cap up to the rounding error of
    the one product. *)
Lemma rounded_cap_bound (risk : RiskConfig.t) (st : TraderStateStore.t) :
  Double.globalNotionalCapOf risk st
  <= globalNotionalCapOf risk st
     + (Math_abs (RiskConfig.maxLeverage risk
                  * AccountMetrics.accountValueUsd (TraderStateStore.metrics st))
        * (Number_EPSILON / 2)
        + Number_MIN_VALUE / 2).
Proof.
  unfold Double.globalNotionalCapOf, globalNotionalCapOf, Double.mul, Math_abs,
    Math_min.
  set (la := RiskConfig.maxLeverage risk
             * AccountMetrics.accountValueUsd (TraderStateStore.metrics st)).
  pose proof (round_error la) as Herr. apply Qabs_Qle_condition in Herr.
  destruct Herr as [_ Herr]. rewrite !Qhalf in *.
  pose proof Number_EPSILON_pos. pose proof Number_MIN_VALUE_pos.
  pose proof (Qabs_nonneg la).
  assert (Hpos : 0 <= Qabs la * (Number_EPSILON * (1 # 2))
                      + Number_MIN_VALUE * (1 # 2)) by nra.
  set (err := Qabs la * (Number_EPSILON * (1 # 2))
              + Number_MIN_VALUE * (1 # 2)) in *.
  assert (Hr : Double.round la <= la + err) by (unfold err; lra).
  set (M := RiskConfig.maxNotionalUsd risk).
  pose proof (Q.le_min_l M (Double.round la)).
  pose proof (Q.le_min_r M (Double.round la)).
  destruct (Q.min_spec M la) as [[_ E] | [_ E]]; rewrite E; lra.
Qed.

(** A rounded number is above a bound of the number by one more rounding
    error at most. *)
Lemma rounded_bound (x bound : Q) :
  x <= bound -> 0 <= bound ->
  Double.round x <= bound * (1 + Number_EPSILON / 2) + Number_MIN_VALUE / 2.
Proof.
  intros Hx Hb. pose proof Number_EPSILON_pos. pose proof Number_MIN_VALUE_pos.
  rewrite !Qhalf.
  destruct (Qlt_le_dec x 0) as [Hneg | Hpos].
  - pose proof (round_nonpos x (Qlt_le_weak _ _ Hneg)). nra.
  - pose proof (round_error x) as Herr. rewrite (Qabs_pos x) in Herr by exact Hpos.
    apply Qabs_Qle_condition in Herr. destruct Herr as [_ Herr].
    rewrite !Qhalf in Herr. nra.
Qed.

(** C1.  With every operation rounded to the nearest double, as the code
    computes, and a global cap that is not negative: for the targets
    [computeTargets] returns, every derived delta has a target size whose
    magnitude, valued at the target's implied entry price, is at most the
    cap [min(maxNotionalUsd, maxLeverage * follower account value)] plus a
    tolerance, the rounding error of the one division
    [cap * EPSILON / 2 + |price| * MIN_VALUE / 2]; when that value is itself
    computed in doubles, one more rounding error comes on top.  Every closing
    delta has target size 0, hence magnitude times reference price 0, within
    the cap.  The cap the code computes exceeds the exactly computed one by
    the rounding error of its product at most. *)
Theorem computeDeltas_within_cap
  (risk : RiskConfig.t) (leader follower : TraderStateStore.t) :
  0 <= Double.globalNotionalCapOf risk follower ->
  let cap := Double.globalNotionalCapOf risk follower in
  let targets := fst (Double.computeTargets risk leader) in
  let deltas := fst (Double.computeDeltas targets risk follower) in
  Forall2
    (fun target delta =>
       let tolerance :=
         cap * (Number_EPSILON / 2)
         + Math_abs (TargetPosition.impliedEntryPrice target)
           * (Number_MIN_VALUE / 2) in
       Math_abs (PositionDelta.targetSize delta)
       * TargetPosition.impliedEntryPrice target
       <= cap + tolerance
       /\ Double.mul (Math_abs (PositionDelta.targetSize delta))
            (TargetPosition.impliedEntryPrice target)
          <= (cap + tolerance) * (1 + Number_EPSILON / 2)
             + Number_MIN_VALUE / 2)
    targets (firstn (List.length targets) deltas)
  /\ Forall
       (fun delta =>
          PositionDelta.targetSize delta = 0
          /\ Math_abs (PositionDelta.targetSize delta) * 0 <= cap)
       (skipn (List.length targets) deltas)
  /\ cap <= globalNotionalCapOf risk follower
            + (Math_abs (RiskConfig.maxLeverage risk
                         * AccountMetrics.accountValueUsd
                             (TraderStateStore.metrics follower))
               * (Number_EPSILON / 2)
               + Number_MIN_VALUE / 2).
Proof.
  intro Hcap. cbv zeta. rewrite double_derived_part, double_closing_part.
  split; [|split].
  - apply Forall2_map_self. intros target Hin.
    rewrite double_computeTargets_eq in Hin. cbn [fst] in Hin.
    apply in_map_iff in Hin. destruct Hin as [position [<- _]].
    unfold Double.derivedDelta, Double.targetOf.
    cbn [PositionDelta.targetSize TargetPosition.size TargetPosition.notionalUsd
           TargetPosition.impliedEntryPrice].
    cbv zeta. unfold Math_abs.
    match goal with
    | |- ?x <= ?b /\ _ => assert (Hexact : x <= b)
    end.
    { apply rounded_capped_size_bound; [exact Hcap|].
      intro Hprice. unfold Double.mul. apply round_nonneg.
      apply Qmult_le_0_compat; [apply Qabs_nonneg | lra]. }
    split; [exact Hexact|]. unfold Double.mul at 1.
    apply rounded_bound; [exact Hexact|].
    pose proof Number_EPSILON_pos. pose proof Number_MIN_VALUE_pos.
    pose proof (Qabs_nonneg (PositionSnapshot.entryPrice position)).
    rewrite !Qhalf. nra.
  - apply Forall_forall. intros delta Hin. apply in_map_iff in Hin.
    destruct Hin as [entry [<- _]]. cbn [closingDelta PositionDelta.targetSize].
    split; [reflexivity|]. unfold Math_abs.
    setoid_replace (Qabs 0 * 0) with 0 by ring. exact Hcap.
  - apply rounded_cap_bound.
Qed.

Lemma computeDeltas_within_cap_example :
  0 <= Double.globalNotionalCapOf example_full_copy_risk example_follower
  /\ (exists target delta,
         nth_error
           (fst (Double.computeTargets example_full_copy_risk
                   example_capped_leader)) 0 = Some target
         /\ nth_error
              (fst (Double.computeDeltas
                      (fst (Double.computeTargets example_full_copy_risk
                              example_capped_leader))
                      example_full_copy_risk example_follower)) 0
            = Some delta
         /\ Double.globalNotionalCapOf example_full_copy_risk example_follower
            < Math_abs (PositionDelta.targetSize delta)
              * TargetPosition.impliedEntryPrice target)
  /\ Forall2
       (fun target delta =>
          let tolerance :=
            Double.globalNotionalCapOf example_full_copy_risk example_follower
            * (Number_EPSILON / 2)
            + Math_abs (TargetPosition.impliedEntryPrice target)
              * (Number_MIN_VALUE / 2) in
          Math_abs (PositionDelta.targetSize delta)
          * TargetPosition.impliedEntryPrice target
          <= Double.globalNotionalCapOf example_full_copy_risk example_follower
             + tolerance
          /\ Double.mul (Math_abs (PositionDelta.targetSize delta))
               (TargetPosition.impliedEntryPrice target)
             <= (Double.globalNotionalCapOf example_full_copy_risk
                   example_follower + tolerance)
                * (1 + Number_EPSILON / 2)
                + Number_MIN_VALUE / 2)
       (fst (Double.computeTargets example_full_copy_risk example_capped_leader))
       (firstn
          (List.length
             (fst (Double.computeTargets example_full_copy_risk
                     example_capped_leader)))
          (fst (Double.computeDeltas
                  (fst (Double.computeTargets example_full_copy_risk
                          example_capped_leader))
                  example_full_copy_risk example_follower))).
Proof.
  assert (H : 0 <= Double.globalNotionalCapOf example_full_copy_risk
                     example_follower)
    by (vm_compute; discriminate).
  split; [exact H|]. split.
  - eexists. eexists. split; [vm_compute; reflexivity|].
    split; [vm_compute; reflexivity|]. vm_compute. reflexivity.
  - exact (proj1 (computeDeltas_within_cap example_full_copy_risk
                    example_capped_leader example_follower H)).
Defined.

(** The sign of a rounded number is the sign of the number, or zero. *)
Lemma Math_sign_round (x : Q) :
  Double.round x == 0 \/ Math_sign (Double.round x) = Math_sign x.
Proof.
  destruct (Math_sign_cases x) as [[Hx E] | [[Hx E] | [Hx E]]]; rewrite E.
  - pose proof (round_nonpos x (Qlt_le_weak _ _ Hx)).
    destruct (Qeq_dec (Double.round x) 0); [now left | right].
    apply Math_sign_neg. lra.
  - left. now rewrite round_zero.
  - pose proof (round_nonneg x (Qlt_le_weak _ _ Hx)).
    destruct (Qeq_dec (Double.round x) 0); [now left | right].
    apply Math_sign_pos. lra.
Qed.

Lemma signed_magnitude (s d : Q) :
  0 <= d -> Math_sign s * d == 0 \/ Math_sign (Math_sign s * d) = Math_sign s.
Proof.
  intro Hd. destruct (Qeq_dec d 0) as [Hz | Hnz].
  - left. rewrite Hz. ring.
  - destruct (Math_sign_cases s) as [[Hs E] | [[Hs E] | [Hs E]]]; rewrite E.
    + right. apply Math_sign_neg. lra.
    + left. ring.
    + right. apply Math_sign_pos. lra.
Qed.

(** The capped size the code computes is zero or on the side of [s], when
    the notional has the sign of the price. *)
Lemma rounded_capped_size_sign (s N p cap : Q) :
  0 <= cap -> (0 < p -> 0 <= N) -> (p < 0 -> N <= 0) ->
  Double.mul (Math_sign s) (Double.safeDivide (Math_min N cap) p 0) == 0
  \/ Math_sign (Double.mul (Math_sign s)
                  (Double.safeDivide (Math_min N cap) p 0))
     = Math_sign s.
Proof.
  intros Hcap Hpos Hneg.
  assert (Hd : 0 <= Double.safeDivide (Math_min N cap) p 0).
  { unfold Double.safeDivide, Double.div.
    destruct (Qeq_bool p 0) eqn:E; [lra|].
    assert (Hp : ~ p == 0) by (intro H; apply Qeq_bool_iff in H; congruence).
    apply round_nonneg.
    destruct (Qlt_le_dec 0 p) as [Hp1 | Hp1].
    - apply Qle_shift_div_l; [exact Hp1|].
      rewrite Qmult_0_l. apply Math_min_glb; auto.
    - assert (Hp2 : p < 0) by lra.
      assert (Hm : Math_min N cap <= 0).
      { apply Qle_trans with N; [apply Q.le_min_l | auto]. }
      setoid_replace (Math_min N cap / p) with ((- Math_min N cap) / (- p))
        by (field; lra).
      apply Qle_shift_div_l; lra. }
  pose proof (mul_sign_exact s _ (isDouble_safeDivide (Math_min N cap) p)) as E.
  destruct (signed_magnitude s _ Hd) as [H | H].
  - left. now rewrite E.
  - right. now rewrite (Math_sign_comp _ _ E).
Qed.

(** X4.  Mirroring never turns a position, rounding included.  With every
    operation rounded to the nearest double, a positive copy ratio and a
    global cap that is not negative, the delta derived from a leader
    position, whatever its entry price, has a target size that is zero or on
    the leader's side. *)
Theorem mirrored_target_keeps_leader_direction
  (risk : RiskConfig.t) (leader follower : TraderStateStore.t) :
  0 < RiskConfig.copyRatio risk ->
  0 <= Double.globalNotionalCapOf risk follower ->
  Forall2
    (fun position delta =>
       PositionDelta.targetSize delta == 0
       \/ Math_sign (PositionDelta.targetSize delta)
          = Math_sign (PositionSnapshot.size position))
    (Map_values (TraderStateStore.positions leader))
    (firstn (List.length (TraderStateStore.positions leader))
       (fst (Double.computeDeltas (fst (Double.computeTargets risk leader))
               risk follower))).
Proof.
  intros Hratio Hcap.
  pose proof (double_derived_part (fst (Double.computeTargets risk leader))
                risk follower) as H.
  rewrite double_computeTargets_eq in *. cbn [fst] in *.
  unfold Map_values in *. rewrite !length_map in H. rewrite H, map_map.
  apply Forall2_map_self. intros position _.
  unfold Double.derivedDelta, Double.targetOf.
  cbn [PositionDelta.targetSize TargetPosition.size TargetPosition.notionalUsd
         TargetPosition.impliedEntryPrice].
  set (s := PositionSnapshot.size position).
  set (s' := Double.mul s (RiskConfig.copyRatio risk)).
  set (p := PositionSnapshot.entryPrice position).
  assert (Hs' : s' == 0 \/ Math_sign s' = Math_sign s).
  { unfold s', Double.mul.
    rewrite <- (Math_sign_scaled s (RiskConfig.copyRatio risk) Hratio).
    apply Math_sign_round. }
  destruct Hs' as [Hz | Hsame].
  - left. rewrite (mul_sign_exact s' _ (isDouble_safeDivide _ _)).
    rewrite (Math_sign_zero s' Hz). ring.
  - rewrite <- Hsame. apply rounded_capped_size_sign; [exact Hcap| |].
    + intro Hp. unfold Double.mul, Math_abs. apply round_nonneg.
      apply Qmult_le_0_compat; [apply Qabs_nonneg | lra].
    + intro Hp. unfold Double.mul, Math_abs. apply round_nonpos.
      pose proof (Qabs_nonneg s'). nra.
Qed.

Lemma mirrored_target_keeps_leader_direction_example :
  0 < RiskConfig.copyRatio example_full_copy_risk
  /\ 0 <= Double.globalNotionalCapOf example_full_copy_risk example_follower
  /\ Forall2
       (fun position delta =>
          PositionDelta.targetSize delta == 0
          \/ Math_sign (PositionDelta.targetSize delta)
             = Math_sign (PositionSnapshot.size position))
       (Map_values (TraderStateStore.positions example_capped_leader))
       (firstn (List.length (TraderStateStore.positions example_capped_leader))
          (fst (Double.computeDeltas
                  (fst (Double.computeTargets example_full_copy_risk
                          example_capped_leader))
                  example_full_copy_risk example_follower))).
Proof.
  assert (H1 : 0 < RiskConfig.copyRatio example_full_copy_risk) by reflexivity.
  assert (H2 : 0 <= Double.globalNotionalCapOf example_full_copy_risk
                      example_follower)
    by (vm_compute; discriminate).
  split; [exact H1|]. split; [exact H2|].
  exact (mirrored_target_keeps_leader_direction example_full_copy_risk
           example_capped_leader example_follower H1 H2).
Defined.

Lemma isDouble_abs (x : Q) : isDouble x -> isDouble (Qabs x).
Proof.
  intro H. unfold isDouble in *.
  destruct (Qabs_cases x) as [[_ E] | [_ E]].
  - rewrite (round_comp _ _ E), H. now rewrite E.
  - rewrite (round_comp _ _ E), round_opp, H. now rewrite E.
Qed.

(** On a double, the test against the literal [1e-9] and the test against the
    rational 1e-9 agree: no double lies between the two. *)
Lemma dust_test_agrees (x : Q) :
  isDouble x ->
  Qltb (Math_abs x) Double.POSITION_DUST = Qltb (Math_abs x) POSITION_DUST.
Proof.
  intro Hx. unfold Math_abs.
  assert (Hup : POSITION_DUST <= Double.POSITION_DUST)
    by (vm_compute; discriminate).
  destruct (Qltb (Qabs x) POSITION_DUST) eqn:E.
  - apply Qltb_true in E. apply Qltb_true. lra.
  - apply Qltb_false in E. apply Qltb_false.
    unfold Double.POSITION_DUST.
    pose proof (round_mono _ _ E) as Hm.
    pose proof (isDouble_abs x Hx) as Hd. unfold isDouble in Hd.
    now rewrite Hd in Hm.
Qed.

Lemma inTargets_coins (targets targets' : list TargetPosition.t) (coin : string) :
  map TargetPosition.coin targets = map TargetPosition.coin targets' ->
  inTargets targets coin = inTargets targets' coin.
Proof.
  revert targets'. induction targets as [| t targets IH];
    intros [| t' targets'] H; try discriminate; [reflexivity|].
  cbn in H |- *. injection H as Hc Hrest. rewrite Hc. f_equal. now apply IH.
Qed.

Lemma targets_coins (risk : RiskConfig.t) (leader : TraderStateStore.t) :
  map TargetPosition.coin (fst (Double.computeTargets risk leader))
  = map TargetPosition.coin (fst (computeTargets risk leader)).
Proof.
  rewrite double_computeTargets_eq, computeTargets_eq. cbn [fst].
  now rewrite !map_map.
Qed.

(** X5.  Rounding changes the numbers of the derived deltas only.  With
    follower position sizes that are doubles, the deltas the code computes
    (every operation rounded) and the deltas of the exact arithmetic have the
    same coins and the same current positions in the same order, and the
    same closing deltas after the derived ones. *)
Theorem rounding_keeps_delta_structure
  (risk : RiskConfig.t) (leader follower : TraderStateStore.t) :
  Forall (fun entry => isDouble (PositionSnapshot.size (snd entry)))
    (TraderStateStore.positions follower) ->
  let exact :=
    fst (computeDeltas (fst (computeTargets risk leader)) risk follower) in
  let rounded :=
    fst (Double.computeDeltas (fst (Double.computeTargets risk leader))
           risk follower) in
  map PositionDelta.coin rounded = map PositionDelta.coin exact
  /\ map PositionDelta.current rounded = map PositionDelta.current exact
  /\ skipn (List.length (TraderStateStore.positions leader)) rounded
     = skipn (List.length (TraderStateStore.positions leader)) exact.
Proof.
  intro Hdoubles. cbv zeta.
  pose proof (targets_coins risk leader) as Hcoins.
  assert (Hclose : filter (Double.toClose (fst (Double.computeTargets risk leader)))
                     (TraderStateStore.positions follower)
                   = filter (toClose (fst (computeTargets risk leader)))
                       (TraderStateStore.positions follower)).
  { induction (TraderStateStore.positions follower) as [| entry entries IH];
      [reflexivity|].
    inversion Hdoubles as [| ? ? Hentry Hrest]; subst. cbn [filter].
    assert (Hsame : Double.toClose (fst (Double.computeTargets risk leader)) entry
                    = toClose (fst (computeTargets risk leader)) entry).
    { unfold Double.toClose, toClose.
      rewrite (inTargets_coins _ _ (fst entry) Hcoins).
      now rewrite (dust_test_agrees _ Hentry). }
    rewrite Hsame, (IH Hrest). reflexivity. }
  assert (Hlen : List.length (TraderStateStore.positions leader)
                 = List.length (fst (computeTargets risk leader))).
  { rewrite computeTargets_eq. cbn [fst]. unfold Map_values.
    now rewrite !length_map. }
  assert (Hlen' : List.length (TraderStateStore.positions leader)
                  = List.length (fst (Double.computeTargets risk leader))).
  { rewrite double_computeTargets_eq. cbn [fst]. unfold Map_values.
    now rewrite !length_map. }
  split; [|split].
  - rewrite double_computeDeltas_eq, computeDeltas_eq. cbn [fst].
    rewrite !map_app, !map_map, Hclose. f_equal. exact Hcoins.
  - rewrite double_computeDeltas_eq, computeDeltas_eq. cbn [fst].
    rewrite !map_app, !map_map, Hclose. f_equal.
    cbn [Double.derivedDelta derivedDelta PositionDelta.current].
    rewrite <- !(map_map TargetPosition.coin
                   (fun coin => Map_get (TraderStateStore.positions follower) coin)).
    now rewrite Hcoins.
  - rewrite Hlen' at 1. rewrite Hlen at 1.
    rewrite double_closing_part, closing_part, Hclose. reflexivity.
Qed.

Lemma rounding_keeps_delta_structure_example :
  Forall (fun entry => isDouble (PositionSnapshot.size (snd entry)))
    (TraderStateStore.positions example_follower)
  /\ map PositionDelta.coin
       (fst (Double.computeDeltas
               (fst (Double.computeTargets example_full_copy_risk
                       example_capped_leader))
               example_full_copy_risk example_follower))
     = ["SOL"; "ETH"]
  /\ map PositionDelta.coin
       (fst (Double.computeDeltas
               (fst (Double.computeTargets example_full_copy_risk
                       example_capped_leader))
               example_full_copy_risk example_follower))
     = map PositionDelta.coin
         (fst (computeDeltas
                 (fst (computeTargets example_full_copy_risk
                         example_capped_leader))
                 example_full_copy_risk example_follower)).
Proof.
  assert (H : Forall (fun entry => isDouble (PositionSnapshot.size (snd entry)))
                (TraderStateStore.positions example_follower)).
  { constructor; [|constructor]. vm_compute. reflexivity. }
  split; [exact H|]. split; [vm_compute; reflexivity|].
  exact (proj1 (rounding_keeps_delta_structure example_full_copy_risk
                  example_capped_leader example_follower H)).
Defined.

(** ** The dashboard's return on investment *)

Lemma round_minus_one : Double.round (-1) == -1.
Proof. vm_compute. reflexivity. Qed.

Lemma round_minus_hundred : Double.round (-100) == -100.
Proof. vm_compute. reflexivity. Qed.

(** X20.  The return shown for a vault, with every operation rounded to the
    nearest double as the code computes it (a missing equity or PnL counted
    as 0): it is 0 when the initial capital, equity minus PnL, is not
    positive, so nothing is divided by zero; it is never of the sign opposite
    to the PnL's; and with a PnL that is a double and an equity that is not
    negative it is never below -100 percent. *)
Theorem roiPercent_consistent (equity totalPnl : option Q) :
  (orZero equity - orZero totalPnl <= 0 ->
   Double.roiPercentOf equity totalPnl = 0)
  /\ (0 <= orZero totalPnl -> 0 <= Double.roiPercentOf equity totalPnl)
  /\ (orZero totalPnl <= 0 -> Double.roiPercentOf equity totalPnl <= 0)
  /\ (isDouble (orZero totalPnl) -> 0 <= orZero equity ->
      -100 <= Double.roiPercentOf equity totalPnl).
Proof.
  unfold Double.roiPercentOf. cbv zeta.
  set (e := orZero equity). set (p := orZero totalPnl).
  set (c := Double.sub e p).
  assert (Hguard : Qltb 0 c = true -> 0 < c /\ 0 < e - p).
  { intro H. apply Qltb_true in H. split; [exact H|].
    apply Qnot_le_lt. intro Hle. apply round_nonpos in Hle.
    unfold c, Double.sub in H. lra. }
  split; [|split; [|split]].
  - intro H. assert (Hc : c <= 0) by now apply round_nonpos.
    apply Qltb_false in Hc. now rewrite Hc.
  - intro Hp. destruct (Qltb 0 c) eqn:E; [|lra].
    destruct (Hguard eq_refl) as [Hc _].
    unfold Double.mul, Double.div. apply round_nonneg.
    assert (0 <= Double.round (p / c))
      by (apply round_nonneg, Qle_shift_div_l; lra).
    lra.
  - intro Hp. destruct (Qltb 0 c) eqn:E; [|lra].
    destruct (Hguard eq_refl) as [Hc _].
    unfold Double.mul, Double.div. apply round_nonpos.
    assert (Double.round (p / c) <= 0).
    { apply round_nonpos. apply Qle_shift_div_r; lra. }
    lra.
  - intros Hdouble He. destruct (Qltb 0 c) eqn:E; [|lra].
    destruct (Hguard eq_refl) as [Hc Hexact].
    unfold Double.mul, Double.div.
    rewrite <- round_minus_hundred. apply round_mono.
    assert (Hq : -1 <= Double.round (p / c)); [|lra].
    rewrite <- round_minus_one. apply round_mono.
    apply Qle_shift_div_l; [exact Hc|].
    assert (Hcp : - p <= c).
    { unfold c, Double.sub.
      pose proof (isDouble_opp p Hdouble) as Hd. unfold isDouble in Hd.
      rewrite <- Hd. apply round_mono. lra. }
    lra.
Qed.

Lemma roiPercent_consistent_example :
  isDouble (orZero (Some (-10000000000)))
  /\ 0 <= orZero (Some 1e-10)
  /\ Double.roiPercentOf (Some 1e-10) (Some (-10000000000)) == -100
  /\ -100 <= Double.roiPercentOf (Some 1e-10) (Some (-10000000000)).
Proof.
  assert (H1 : isDouble (orZero (Some (-10000000000))))
    by (vm_compute; reflexivity).
  assert (H2 : 0 <= orZero (Some 1e-10)) by (vm_compute; discriminate).
  split; [exact H1|]. split; [exact H2|].
  split; [vm_compute; reflexivity|].
  exact (proj2 (proj2 (proj2
           (roiPercent_consistent (Some 1e-10) (Some (-10000000000)))))
           H1 H2).
Defined.
